(** * Daily task organiser: the file-backed task store, carry-over and
    range statistics of [daily_task_organizer_streamlit_app.py].

    The development embeds the functions of the module that read and write
    the per-day record files, locate the latest earlier record, append to
    the cumulative history table and summarise a date range, and proves the
    properties the specification states about them.

    Modelling conventions.
    - A Python [str] is the list of its Unicode code points ([N]); string
      comparison is Python's, lexicographic on code points. The strings of
      the program are text, as the user interface delivers it and the
      UTF-8 decoder produces it, so a file the program wrote holds the
      text written to it; for a record file of any origin, [Disk] reads
      its bytes through the strict UTF-8 decoder.
    - The data directory [DATA_DIR] is a finite map from the names of its
      text entries to their contents; the path [DATA_DIR/name] is
      represented by [name], so [os.path.basename] of a path is the name
      itself, and sorting paths is sorting names.
    - Text files are opened in text mode with universal newlines on a POSIX
      system: reading translates "\r\n" and "\r" to "\n", writing stores
      the text as it is.
    - Failures of the file system (a full disk, a missing permission) are
      not modelled.
    - pandas is outside the module: its CSV reader, CSV writer and date
      parser are parameters of the history section.
    - The completion rate is the binary64 number the program computes, a
      primitive float; numpy converts the two int64 counts to binary64,
      divides and multiplies by 100, each operation rounded to nearest,
      ties to even. *)

From Stdlib Require Import ZArith NArith QArith Qabs Ascii String.
From Stdlib Require PrimFloat Uint63 FloatOps SpecFloat FloatAxioms Zpower.
From Stdlib Require Qpower.
From stdpp Require Import base decidable list gmap sorting pretty.

Local Open Scope N_scope.

(** ** Python strings *)

Abbreviation str := (list N).

(** An ASCII literal as a Python string. *)
Definition lit (s : string) : str :=
  (λ a, N_of_ascii a) <$> list_ascii_of_string s.

Definition LF : N := 0x0A.
Definition CR : N := 0x0D.

(** [str.isspace] on one code point: the table of CPython's
    [_PyUnicode_IsWhitespace]. *)
Definition isspace (c : N) : bool :=
  ((0x09 <=? c) && (c <=? 0x0D)) || ((0x1C <=? c) && (c <=? 0x20))
  || (c =? 0x85) || (c =? 0xA0) || (c =? 0x1680)
  || ((0x2000 <=? c) && (c <=? 0x200A))
  || (c =? 0x2028) || (c =? 0x2029) || (c =? 0x202F) || (c =? 0x205F)
  || (c =? 0x3000).

Fixpoint lstrip (s : str) : str :=
  match s with
  | [] => []
  | c :: s' => if isspace c then lstrip s' else s
  end.

Definition rstrip (s : str) : str := reverse (lstrip (reverse s)).

(** [s.strip()] *)
Definition strip (s : str) : str := rstrip (lstrip s).

(** [s.startswith(p)] *)
Fixpoint startswith (s p : str) {struct p} : bool :=
  match p, s with
  | [], _ => true
  | _ :: _, [] => false
  | a :: p', b :: s' => (a =? b) && startswith s' p'
  end.

(** [s.endswith(p)] *)
Definition endswith (s p : str) : bool := startswith (reverse s) (reverse p).

(** [a < b] and [a <= b] on Python strings. *)
Fixpoint str_ltb (a b : str) : bool :=
  match a, b with
  | _, [] => false
  | [], _ :: _ => true
  | x :: a', y :: b' => (x <? y) || ((x =? y) && str_ltb a' b')
  end.

Fixpoint str_leb (a b : str) : bool :=
  match a, b with
  | [], _ => true
  | _ :: _, [] => false
  | x :: a', y :: b' => (x <? y) || ((x =? y) && str_leb a' b')
  end.

Definition str_le (a b : str) : Prop := Is_true (str_leb a b).
Definition str_lt (a b : str) : Prop := Is_true (str_ltb a b).

(** ** Text files *)

(** Universal-newline translation of a text stream opened for reading. *)
Fixpoint universal_newlines (s : str) : str :=
  match s with
  | [] => []
  | c :: s' =>
      if c =? CR then
        match s' with
        | c' :: s'' =>
            if c' =? LF then LF :: universal_newlines s''
            else LF :: universal_newlines s'
        | [] => [LF]
        end
      else c :: universal_newlines s'
  end.

(** [f.readlines()]: the lines of the stream, each with its terminating
    "\n" (the last one may lack it). *)
Fixpoint readlines (s : str) : list str :=
  match s with
  | [] => []
  | c :: s' =>
      if c =? LF then [c] :: readlines s'
      else match readlines s' with
           | [] => [[c]]
           | ln :: lns => (c :: ln) :: lns
           end
  end.

(** ** Dates *)

(** [datetime.date]: year in 1..9999, month and day in their ranges. *)
Record date := mkdate { year : N; month : N; day : N }.

Global Instance date_eq_dec : EqDecision date.
Proof. solve_decision. Defined.

(** [a <= b] on dates: the order of the triples (year, month, day). *)
Definition date_leb (a b : date) : bool :=
  (year a <? year b)
  || ((year a =? year b)
      && ((month a <? month b)
          || ((month a =? month b) && (day a <=? day b)))).

Definition digit (n : N) : N := 0x30 + n mod 10.

(** [str(d)], that is [d.isoformat()]: four, two and two zero-padded
    digits. *)
Definition isoformat (d : date) : str :=
  [digit (year d / 1000); digit (year d / 100); digit (year d / 10);
   digit (year d)]
  ++ lit "-" ++ [digit (month d / 10); digit (month d)]
  ++ lit "-" ++ [digit (day d / 10); digit (day d)].

(** [d.strftime("%Y-%m-%d")]: the fields are formatted by the C library;
    glibc writes the year in decimal without padding ("999" for the year
    999), the month and the day as two zero-padded digits. *)
Definition date_str (d : date) : str :=
  lit (pretty (year d))
  ++ lit "-" ++ [digit (month d / 10); digit (month d)]
  ++ lit "-" ++ [digit (day d / 10); digit (day d)].

(** The name of the day's record inside [DATA_DIR]. *)
Definition daily_file_path (d : date) : str := date_str d ++ lit ".txt".

Definition WEEKLY_REPORT : str := lit "weekly_report.txt".
Definition MONTHLY_REPORT : str := lit "monthly_report.txt".

(** ** Daily record files *)

Definition CHECK_MARK : N := 0x2705.
Definition CROSS_MARK : N := 0x274C.

Definition hdr_completed : str := CHECK_MARK :: lit " Completed Tasks".
Definition hdr_incomplete : str := CROSS_MARK :: lit " Incomplete Tasks".

Inductive section_name := sec_completed | sec_incomplete.

Global Instance section_name_eq_dec : EqDecision section_name.
Proof. solve_decision. Defined.

(** The variables of the parsing loop. *)
Record parse_state := mkps {
  ps_section : option section_name;
  ps_completed : list str;
  ps_incomplete : list str
}.

Definition parse_init : parse_state := mkps None [] [].

(** One iteration of the loop of [parse_txt_day] on a stripped line. *)
Definition parse_step (st : parse_state) (ln : str) : parse_state :=
  if startswith ln hdr_completed then
    mkps (Some sec_completed) (ps_completed st) (ps_incomplete st)
  else if startswith ln hdr_incomplete then
    mkps (Some sec_incomplete) (ps_completed st) (ps_incomplete st)
  else if startswith ln (lit "- ") then
    let task := strip (drop 2 ln) in
    match ps_section st with
    | Some sec_completed =>
        mkps (ps_section st) (ps_completed st ++ [task]) (ps_incomplete st)
    | Some sec_incomplete =>
        mkps (ps_section st) (ps_completed st) (ps_incomplete st ++ [task])
    | None => st
    end
  else st.

Definition parse_lines (st : parse_state) (lines : list str) : parse_state :=
  fold_left parse_step lines st.

(** The body of [parse_txt_day] once the file is open. *)
Definition parse_text (content : str) : list str * list str :=
  let lines := strip <$> readlines (universal_newlines content) in
  let st := parse_lines parse_init lines in
  (ps_completed st, ps_incomplete st).

Definition parse_txt_day (fs : gmap str str) (path : str)
  : list str * list str :=
  match fs !! path with
  | None => ([], [])
  | Some content => parse_text content
  end.

Definition bullet (t : str) : str := lit "- " ++ t ++ [LF].

(** One section body: a bullet per task, or the line "None". *)
Definition write_tasks (tasks : list str) : str :=
  match tasks with
  | [] => lit "None" ++ [LF]
  | _ :: _ => concat (bullet <$> tasks)
  end.

Definition daily_text (d : date) (completed incomplete : list str) : str :=
  (lit "===== " ++ date_str d ++ lit " =====" ++ [LF])
  ++ (hdr_completed ++ lit ":" ++ [LF])
  ++ write_tasks completed
  ++ (hdr_incomplete ++ lit ":" ++ [LF])
  ++ write_tasks incomplete.

Definition write_daily_file (d : date) (completed incomplete : list str)
    (fs : gmap str str) : gmap str str :=
  <[daily_file_path d := daily_text d completed incomplete]> fs.

(** ** Locating the latest earlier record *)

Global Instance str_le_dec : RelDecision str_le := λ a b, Is_true_dec _.
Global Instance str_lt_dec : RelDecision str_lt := λ a b, Is_true_dec _.

(** The pattern "*.txt" on an entry name: it ends in ".txt" and does not
    begin with a dot. *)
Definition matches_txt (n : str) : Prop :=
  Is_true (endswith n (lit ".txt") && negb (startswith n (lit "."))).

(** [glob.glob(os.path.join(DATA_DIR, "*.txt"))], in directory order. *)
Definition glob_txt (fs : gmap str str) : list str :=
  filter matches_txt (map_to_list fs).*1.

(** [sorted] on a list of strings. *)
Definition sorted (l : list str) : list str := merge_sort str_le l.

Definition get_latest_task_file (fs : gmap str str)
    (before_date : option date) : option str :=
  let files := sorted (glob_txt fs) in
  let files := filter (λ f, f ∉ [WEEKLY_REPORT; MONTHLY_REPORT]) files in
  let files :=
    match before_date with
    | Some d =>
        let cutoff := date_str d in
        filter (λ f, str_lt f (cutoff ++ lit ".txt")) files
    | None => files
    end in
  last files.

(** A path is never the empty string, so [not latest_path] tests for
    [None]. *)
Definition load_carry_over_tasks (fs : gmap str str) (today : date)
  : list str :=
  match get_latest_task_file fs (Some today) with
  | None => []
  | Some latest_path => (parse_txt_day fs latest_path).2
  end.

(** ** The history table *)

(** A row of the table; [D] is the type of the date cell: a string as
    stored, a [date] once coerced. *)
Record row (D : Type) := mkrow { r_date : D; r_task : str; r_status : str }.
Arguments mkrow {D} _ _ _.
Arguments r_date {D} _.
Arguments r_task {D} _.
Arguments r_status {D} _.

Inductive exn :=
  FileNotFoundError | ParserError | DateParseError | UnicodeDecodeError.

Inductive outcome (A : Type) := Returned (a : A) | Raised (e : exn).
Arguments Returned {A} _.
Arguments Raised {A} _.

(** ** Record files as bytes *)

(** The bytes 0x80..0xBF that continue a UTF-8 sequence. *)
Definition continuation (b : N) : bool := (0x80 <=? b) && (b <=? 0xBF).

(** The [utf-8] codec with [errors="strict"], the decoder of a file
    opened with [encoding="utf-8"]: [None] where Python raises
    [UnicodeDecodeError] (a stray or missing continuation byte, an
    overlong form, a surrogate, a code point above U+10FFFF). *)
Fixpoint utf8_decode (bs : list N) : option str :=
  match bs with
  | [] => Some []
  | b0 :: bs1 =>
      if b0 <? 0x80 then cons b0 <$> utf8_decode bs1
      else if (0xC2 <=? b0) && (b0 <=? 0xDF) then
        match bs1 with
        | b1 :: bs2 =>
            if continuation b1 then
              cons ((b0 - 0xC0) * 64 + (b1 - 0x80)) <$> utf8_decode bs2
            else None
        | [] => None
        end
      else if (0xE0 <=? b0) && (b0 <=? 0xEF) then
        match bs1 with
        | b1 :: b2 :: bs3 =>
            if continuation b1 && continuation b2
               && (if b0 =? 0xE0 then 0xA0 <=? b1 else true)
               && (if b0 =? 0xED then b1 <=? 0x9F else true)
            then
              cons ((b0 - 0xE0) * 4096 + (b1 - 0x80) * 64 + (b2 - 0x80))
                <$> utf8_decode bs3
            else None
        | _ => None
        end
      else if (0xF0 <=? b0) && (b0 <=? 0xF4) then
        match bs1 with
        | b1 :: b2 :: b3 :: bs4 =>
            if continuation b1 && continuation b2 && continuation b3
               && (if b0 =? 0xF0 then 0x90 <=? b1 else true)
               && (if b0 =? 0xF4 then b1 <=? 0x8F else true)
            then
              cons ((b0 - 0xF0) * 262144 + (b1 - 0x80) * 4096
                    + (b2 - 0x80) * 64 + (b3 - 0x80))
                <$> utf8_decode bs4
            else None
        | _ => None
        end
      else None
  end.

(** The data directory with the contents of its files as bytes, as they
    are on disk. *)
Module Disk.
(** [parse_txt_day] with the decoding [readlines] does: an existing file
    that is not valid UTF-8 makes it raise. *)
Definition parse_txt_day (disk : gmap str (list N)) (path : str)
  : outcome (list str * list str) :=
  match disk !! path with
  | None => Returned ([], [])
  | Some bytes =>
      match utf8_decode bytes with
      | Some content => Returned (parse_text content)
      | None => Raised UnicodeDecodeError
      end
  end.

(** The directory as text: its files that decode. *)
Definition decoded (disk : gmap str (list N)) : gmap str str :=
  omap utf8_decode disk.
End Disk.

Module History.
Section Model.
(** The contents of a CSV file, and pandas' reader, writer and date
    parser: [read_csv] and [to_datetime] give [None] when pandas
    raises. *)
Context {csv : Type}.
Context (read_csv : csv → option (list (row str))).
Context (to_csv : list (row str) → csv).
Context (to_datetime : list str → option (list date)).

(** The state is the file [HISTORY_CSV]: absent, or its contents.
    A computation returns or raises, and leaves a state behind. *)
Definition cmd (A : Type) : Type := option csv → outcome A * option csv.

Definition ret {A} (a : A) : cmd A := λ w, (Returned a, w).

Definition bind {A B} (m : cmd A) (k : A → cmd B) : cmd B :=
  λ w, match m w with
       | (Returned a, w') => k a w'
       | (Raised e, w') => (Raised e, w')
       end.

(** [try: m except Exception: h] *)
Definition try_except {A} (m h : cmd A) : cmd A :=
  λ w, match m w with
       | (Returned a, w') => (Returned a, w')
       | (Raised _, w') => h w'
       end.

Definition path_exists : cmd bool :=
  λ w, (Returned (bool_decide (is_Some w)), w).

(** [df.to_csv(HISTORY_CSV, index=False)] *)
Definition write_csv (df : list (row str)) : cmd unit :=
  λ _, (Returned (), Some (to_csv df)).

(** [pd.read_csv(HISTORY_CSV)] *)
Definition pd_read_csv : cmd (list (row str)) :=
  λ w, match w with
       | None => (Raised FileNotFoundError, w)
       | Some c =>
           match read_csv c with
           | Some df => (Returned df, w)
           | None => (Raised ParserError, w)
           end
       end.

(** [pd.to_datetime(col).dt.date] *)
Definition pd_to_date (col : list str) : cmd (list date) :=
  λ w, match to_datetime col with
       | Some ds => (Returned ds, w)
       | None => (Raised DateParseError, w)
       end.

Local Notation "'let*' x ':=' m 'in' k" := (bind m (λ x, k))
  (at level 10, x name, m at level 100, k at level 200).

Definition ensure_history_csv : cmd unit :=
  let* b := path_exists in
  if negb b then write_csv [] else ret ().

(** The rows [append_to_history] builds for one save. *)
Definition new_rows (d : date) (completed incomplete : list str)
  : list (row str) :=
  ((λ t, mkrow (date_str d) t (lit "completed")) <$> completed)
  ++ ((λ t, mkrow (date_str d) t (lit "incomplete")) <$> incomplete).

Definition append_to_history (d : date) (completed incomplete : list str)
  : cmd unit :=
  let* _ := ensure_history_csv in
  let rows := new_rows d completed incomplete in
  match rows with
  | _ :: _ =>
      let df_new := rows in
      let* b := path_exists in
      let* df := (if b then
                    let* df_old := pd_read_csv in ret (df_old ++ df_new)
                  else ret df_new) in
      write_csv df
  | [] => ret ()
  end.

(** [df["date"] = col] *)
Definition set_date_column (df : list (row str)) (col : list date)
  : list (row date) :=
  zip_with (λ r d, mkrow d (r_task r) (r_status r)) df col.

Definition load_history : cmd (list (row date)) :=
  let* _ := ensure_history_csv in
  try_except
    (let* df := pd_read_csv in
     let* col := pd_to_date (r_date <$> df) in
     ret (set_date_column df col))
    (ret []).

(** The rows the file holds: none when it is absent, unknown ([None])
    when pandas cannot read it. *)
Definition ledger_rows (w : option csv) : option (list (row str)) :=
  match w with
  | None => Some []
  | Some c => read_csv c
  end.
End Model.
End History.

(** A reference instance of the pandas parameters, for the examples: a
    CSV file is either unreadable or a table, and a date cell is read in
    the form YYYY-MM-DD. *)
Module Table.
Inductive csv := Unreadable | Rows (df : list (row str)).

Definition read_csv (c : csv) : option (list (row str)) :=
  match c with
  | Unreadable => None
  | Rows df => Some df
  end.

Definition to_csv (df : list (row str)) : csv := Rows df.

Definition digit_value (c : N) : option N :=
  if (0x30 <=? c) && (c <=? 0x39) then Some (c - 0x30) else None.

Definition iso_date (s : str) : option date :=
  match digit_value <$> s with
  | [Some a; Some b; Some c; Some d; None;
     Some e; Some f; None; Some g; Some h] =>
      Some (mkdate (1000 * a + 100 * b + 10 * c + d) (10 * e + f)
              (10 * g + h))
  | _ => None
  end.

Definition to_datetime (col : list str) : option (list date) :=
  mapM iso_date col.



End Table.

(** ** Range statistics *)

Record range_stats := mkstats {
  days_tracked : Z;
  completed : Z;
  incomplete : Z;
  total : Z;
  completion_rate : PrimFloat.float
}.

(** [s.sum()] of a boolean series. *)
Definition series_sum (s : list bool) : Z :=
  foldr (λ (b : bool) n, ((if b then 1 else 0) + n)%Z) 0%Z s.

(** [df.loc[mask]] *)
Definition loc {A} (df : list A) (mask : list bool) : list A :=
  (filter (λ p, Is_true p.2) (zip df mask)).*1.

(** [s.unique()]: the values in order of first appearance. *)
Definition unique (s : list date) : list date :=
  fold_left (λ seen d, if decide (d ∈ seen) then seen else seen ++ [d]) s [].

(** The rows [summarize_range] keeps ([sub]). *)
Definition range_rows (df : list (row date)) (start end_ : date)
  : list (row date) :=
  let mask := zip_with andb ((λ r, date_leb start (r_date r)) <$> df)
                            ((λ r, date_leb (r_date r) end_) <$> df) in
  loc df mask.

(** numpy's conversion of an int64 count to float64. *)
Definition np_float64 (n : Z) : PrimFloat.float :=
  PrimFloat.of_uint63 (Uint63.of_Z n).

(** The rate expression as the program evaluates it, in binary64. *)
Definition completion_rate_f64 (completed incomplete : Z) : PrimFloat.float :=
  if (completed + incomplete =? 0)%Z then PrimFloat.zero
  else PrimFloat.mul
         (PrimFloat.div (np_float64 completed)
            (np_float64 (completed + incomplete)))
         (np_float64 100).

(** The rational number a finite binary64 value denotes. *)
Definition f64_value (x : PrimFloat.float) : option Q :=
  match FloatOps.Prim2SF x with
  | SpecFloat.S754_zero _ => Some 0%Q
  | SpecFloat.S754_finite s m e =>
      Some (inject_Z (if s then Z.neg m else Z.pos m) * Qpower 2 e)%Q
  | _ => None
  end.

Definition summarize_range (df : list (row date)) (start end_ : date)
  : range_stats :=
  let sub := range_rows df start end_ in
  let completed :=
    series_sum ((λ r, bool_decide (r_status r = lit "completed")) <$> sub) in
  let incomplete :=
    series_sum ((λ r, bool_decide (r_status r = lit "incomplete")) <$> sub) in
  mkstats
    (Z.of_nat (length (unique (r_date <$> sub))))
    completed
    incomplete
    (completed + incomplete)
    (completion_rate_f64 completed incomplete).

(** ** Vocabulary of binary64 rounding *)

(** The location of the fraction [a / b] of [[0, 1)] with respect to 1/2. *)
Definition frac_loc (a b : Z) : SpecFloat.location :=
  if (a =? 0)%Z then SpecFloat.loc_Exact
  else SpecFloat.loc_Inexact (2 * a ?= b)%Z.

(** Rounding [m + a / b] to the nearest integer, ties to even. *)
Definition rne (m a b : Z) : Z :=
  if ((b <? 2 * a) || ((2 * a =? b) && Z.odd m))%Z then (m + 1)%Z else m.

(** The rounding step of the binary64 operations. *)
Definition binary64_round_aux := SpecFloat.binary_round_aux 53 1024.

(** The positive number [m * 2 ^ e], for a rounded mantissa
    [2 ^ 52 <= m <= 2 ^ 53]. *)
Definition norm (m e : Z) : SpecFloat.spec_float :=
  if (m <? 2 ^ 53)%Z then SpecFloat.S754_finite false (Z.to_pos m) e
  else SpecFloat.S754_finite false (Z.to_pos (2 ^ 52)) (e + 1)%Z.

(** The round and sticky bits [r], [s] describe the fraction [a / b]. *)
Definition bits_of (r s : bool) (a b : Z) : Prop :=
  (0 <= a < b)%Z ∧ (r = true ↔ (b <= 2 * a)%Z)
  ∧ (s = true ↔ a ≠ 0%Z ∧ (2 * a)%Z ≠ b).

(** ** Vocabulary of the specification *)

(** A string is trimmed when neither end is a whitespace character. *)
Definition trimmed (s : str) : Prop :=
  (∀ c, head s = Some c → isspace c = false)
  ∧ (∀ c, last s = Some c → isspace c = false).

(** No line break inside: neither "\n" nor "\r". *)
Definition single_line (s : str) : Prop := Forall (λ c, c ≠ LF ∧ c ≠ CR) s.

(** A task name of the data model: non-empty, trimmed, on one line. *)
Definition valid_task (t : str) : Prop :=
  t ≠ [] ∧ strip t = t ∧ single_line t.

(** The three kinds of line the parser reacts to. *)
Definition is_header (ln : str) : bool :=
  startswith ln hdr_completed || startswith ln hdr_incomplete.
Definition is_bullet (ln : str) : bool := startswith ln (lit "- ").
Definition recognized (ln : str) : bool := is_header ln || is_bullet ln.

(** The lines of a file as the parsing loop sees them. *)
Definition stripped_lines (content : str) : list str :=
  strip <$> readlines (universal_newlines content).


(** The text made of the given lines, each terminated by "\n". *)
Definition text_of_lines (ls : list str) : str :=
  concat ((λ l, l ++ [LF]) <$> ls).

Definition bullet_lines (tasks : list str) : list str :=
  (λ t, lit "- " ++ t) <$> tasks.

(** The lines of one section body as [write_daily_file] emits them. *)
Definition body_lines (tasks : list str) : list str :=
  match tasks with
  | [] => [lit "None"]
  | _ :: _ => bullet_lines tasks
  end.

(** The section a header line opens. *)
Definition header_section (ln : str) : option section_name :=
  if startswith ln hdr_completed then Some sec_completed
  else if startswith ln hdr_incomplete then Some sec_incomplete
  else None.




(** The result pair of a parsing state. *)
Definition parsed (st : parse_state) : list str * list str :=
  (ps_completed st, ps_incomplete st).

Global Instance single_line_dec s : Decision (single_line s).
Proof. unfold single_line. apply _. Defined.

(** The first line of a record file. *)
Definition title_line (d : date) : str :=
  lit "===== " ++ date_str d ++ lit " =====".

(** The lines of a record file as [write_daily_file] emits them. *)
Definition daily_lines (d : date) (completed incomplete : list str)
  : list str :=
  title_line d :: (hdr_completed ++ lit ":") :: body_lines completed
  ++ (hdr_incomplete ++ lit ":") :: body_lines incomplete.

Global Instance valid_task_dec t : Decision (valid_task t).
Proof. unfold valid_task. apply _. Defined.


(** A record file a carry-over for [today] may come from: an entry of the
    directory matched by "*.txt", not one of the two report files, whose
    name sorts strictly before the name of today's record. *)
Definition earlier_record (fs : gmap str str) (today : date) (n : str)
  : Prop :=
  is_Some (fs !! n) ∧ matches_txt n
  ∧ (n ∉ [WEEKLY_REPORT; MONTHLY_REPORT])
  ∧ str_lt n (daily_file_path today).

(** [a <= b] on dates, as a proposition. *)
Definition date_le (a b : date) : Prop :=
  year a < year b
  ∨ (year a = year b
     ∧ (month a < month b ∨ (month a = month b ∧ day a <= day b))).

Global Instance date_le_dec : RelDecision date_le.
Proof. intros a b. unfold date_le. apply _. Defined.

(** [a < b] on dates. *)
Definition date_lt (a b : date) : Prop := date_le a b ∧ a ≠ b.

(** The fields of a [datetime.date] fit the widths of [date_str]: the year
    has at most four digits, the month and the day at most two. *)
Definition valid_date (d : date) : Prop :=
  year d < 10000 ∧ month d < 100 ∧ day d < 100.

(** From the year 1000 on the year [date_str] writes has four digits, as
    in the ISO form. *)
Definition four_digit_year (d : date) : Prop := 1000 <= year d.

Global Instance four_digit_year_dec d : Decision (four_digit_year d).
Proof. unfold four_digit_year. apply _. Defined.

(** The date lies in the closed range. *)
Definition in_range (start end_ d : date) : Prop :=
  date_le start d ∧ date_le d end_.

(** ** Text reports *)

Definition BAR_CHART : N := 0x1F4CA.
Definition RIGHT_ARROW : N := 0x2192.
Definition CHART_UP : N := 0x1F4C8.

(** [str(n)] of an [int]. *)
Definition int_str (n : Z) : str := lit (pretty n).

(** The line of forty "=" that closes a report block, with the newline
    written before it. *)
Definition SEPARATOR : str := [LF] ++ replicate 40 0x3D ++ [LF].

Section Report.
(** Python's formatting of the rate with two decimals, [f"{x:.2f}"]. *)
Context (format_2f : PrimFloat.float → str).

(** The list [lines] of [save_text_report]; the f-string formats a date
    by [str], its ISO form. *)
Definition report_lines (title : str) (stats : range_stats)
    (start end_ : date) : list str :=
  ([LF; BAR_CHART] ++ lit " " ++ title ++ lit " (" ++ isoformat start
   ++ lit " " ++ [RIGHT_ARROW] ++ lit " " ++ isoformat end_ ++ lit ") "
   ++ [BAR_CHART; LF])
  :: (if (total stats =? 0)%Z then
        [lit "No tasks recorded in this period." ++ [LF]]
      else
        [lit "Days tracked: " ++ int_str (days_tracked stats) ++ [LF];
         [CHECK_MARK] ++ lit " Total Completed: "
         ++ int_str (completed stats) ++ [LF];
         [CROSS_MARK] ++ lit " Total Incomplete: "
         ++ int_str (incomplete stats) ++ [LF];
         [CHART_UP] ++ lit " Completion Rate: "
         ++ format_2f (completion_rate stats) ++ lit "%" ++ [LF]]).

(** The text one call appends. *)
Definition report_block (title : str) (stats : range_stats)
    (start end_ : date) : str :=
  concat (report_lines title stats start end_) ++ SEPARATOR.

(** The file is opened in append mode: an absent file starts empty. *)
Definition save_text_report (path title : str) (stats : range_stats)
    (start end_ : date) (fs : gmap str str) : gmap str str :=
  <[path := default [] (fs !! path) ++ report_block title stats start end_]>
    fs.
End Report.

(** ** The checklist of the day *)

(** The characters [str.splitlines] breaks a string at. *)
Definition is_linebreak (c : N) : bool :=
  (c =? LF) || (c =? CR) || (c =? 0x0B) || (c =? 0x0C) || (c =? 0x1C)
  || (c =? 0x1D) || (c =? 0x1E) || (c =? 0x85) || (c =? 0x2028)
  || (c =? 0x2029).

(** [s.splitlines()]: the lines without their terminators; "\r\n" is one
    terminator. *)
Fixpoint splitlines (s : str) : list str :=
  match s with
  | [] => []
  | c :: s' =>
      if is_linebreak c then
        [] :: (if c =? CR then
                 match s' with
                 | c' :: s'' => if c' =? LF then splitlines s'' else splitlines s'
                 | [] => []
                 end
               else splitlines s')
      else match splitlines s' with
           | [] => [[c]]
           | ln :: lns => (c :: ln) :: lns
           end
  end.

Definition EXAMPLE_TASKS : str :=
  lit "Finish assignment" ++ [LF] ++ lit "Read a book" ++ [LF]
  ++ lit "Exercise".

(** The text area after "Add Example Tasks". *)
Definition add_example_tasks (new_tasks_text : str) : str :=
  match new_tasks_text with
  | [] => EXAMPLE_TASKS
  | _ :: _ => strip (new_tasks_text ++ [LF] ++ EXAMPLE_TASKS)
  end.

(** [new_tasks]: the stripped non-blank lines of the text area. *)
Definition new_tasks (new_tasks_text : str) : list str :=
  strip <$> filter (λ t, strip t ≠ [])
              (match new_tasks_text with
               | [] => []
               | _ :: _ => splitlines new_tasks_text
               end).

(** [all_tasks] *)
Definition all_tasks (fs : gmap str str) (selected_date : date)
    (show_carry_over : bool) (new_tasks_text : str) : list str :=
  (if show_carry_over then load_carry_over_tasks fs selected_date else [])
  ++ new_tasks new_tasks_text.

(** [d[k] = v] on a dict, as the list of its items in insertion order: an
    existing key keeps its place. *)
Fixpoint dict_set (d : list (str * bool)) (k : str) (v : bool)
  : list (str * bool) :=
  match d with
  | [] => [(k, v)]
  | (k', v') :: d' =>
      if decide (k' = k) then (k', v) :: d' else (k', v') :: dict_set d' k v
  end.

Section Checklist.
(** The state of the checkbox of a task, as the user left it. *)
Context (checkbox : str → bool).

(** The items of [completed_flags]. *)
Definition completed_flags (tasks : list str) : list (str * bool) :=
  fold_left (λ d t, dict_set d t (checkbox t)) tasks [].

Definition checked_tasks (tasks : list str) : list str :=
  (filter (λ p : str * bool, Is_true p.2) (completed_flags tasks)).*1.

Definition unchecked_tasks (tasks : list str) : list str :=
  (filter (λ p : str * bool, ¬ Is_true p.2) (completed_flags tasks)).*1.

(** The pandas parameters of the history table. *)
Context {csv : Type}.
Context (read_csv : csv → option (list (row str))).
Context (to_csv : list (row str) → csv).

(** The branch of "Save Day": nothing happens on an empty checklist;
    otherwise the record of the day is written, then the history is
    appended to. The state is the data directory and the history file. *)
Definition save_day (selected_date : date) (tasks : list str)
    (fs : gmap str str) (w : option csv)
  : outcome unit * (gmap str str * option csv) :=
  match tasks with
  | [] => (Returned (), (fs, w))
  | _ :: _ =>
      let completed := checked_tasks tasks in
      let incomplete := unchecked_tasks tasks in
      let fs' := write_daily_file selected_date completed incomplete fs in
      let r := History.append_to_history read_csv to_csv selected_date
                 completed incomplete w in
      (r.1, (fs', r.2))
  end.
End Checklist.

(** ** The ranges of the reports *)

(** [today.replace(day=1)] *)
Definition month_start (today : date) : date :=
  mkdate (year today) (month today) 1.

(** ** Vocabulary of the further properties *)

(** A line of [readlines]: no "\n" inside, at most one at the end. *)
Definition line_of_file (ln : str) : Prop :=
  ∃ body, Forall (λ c, c ≠ LF) body ∧ (ln = body ∨ ln = body ++ [LF]).

(** Only whitespace. *)
Definition blank (s : str) : Prop := Forall (λ c, isspace c = true) s.

(** The tasks added to the list of the current section, if there is one. *)
Definition add_tasks (st : parse_state) (tasks : list str) : parse_state :=
  match ps_section st with
  | Some sec_completed =>
      mkps (ps_section st) (ps_completed st ++ tasks) (ps_incomplete st)
  | Some sec_incomplete =>
      mkps (ps_section st) (ps_completed st) (ps_incomplete st ++ tasks)
  | None => st
  end.

(** What is read back of a list of written task names: the stripped
    names that are not empty. *)
Definition read_back (tasks : list str) : list str :=
  filter (λ t, t ≠ []) (strip <$> tasks).

(** A record file [get_latest_task_file] may return: an entry matched by
    "*.txt" that is not a report file and, with a cutoff date, whose name
    sorts strictly before the name of that day's record. *)
Definition candidate (fs : gmap str str) (before_date : option date)
    (n : str) : Prop :=
  is_Some (fs !! n) ∧ matches_txt n
  ∧ (n ∉ [WEEKLY_REPORT; MONTHLY_REPORT])
  ∧ match before_date with
    | Some d => str_lt n (daily_file_path d)
    | None => True
    end.

Global Instance date_lt_dec : RelDecision date_lt.
Proof. intros a b. unfold date_lt. apply _. Defined.

Global Instance valid_date_dec d : Decision (valid_date d).
Proof. unfold valid_date. apply _. Defined.

(** The rows of a day with one status, with the date cell coerced. *)
Definition saved_rows (d : date) (status : str) (tasks : list str)
  : list (row date) :=
  (λ t, mkrow d t status) <$> tasks.

(** The table a computation returned; empty if it raised. *)
Definition returned_table {S : Type}
    (r : outcome (list (row date)) * S) : list (row date) :=
  match r.1 with
  | Returned df => df
  | Raised _ => []
  end.

(** The tasks of a list of lines: the stripped lines that are not blank. *)
Definition task_lines (lns : list str) : list str :=
  strip <$> filter (λ t, strip t ≠ []) lns.

(** * Properties *)

(** A decidable fact about closed terms, by evaluation. *)
Ltac closed_fact :=
  match goal with
  | |- ?P => apply (bool_decide_unpack P); vm_compute; exact I
  end.

(** Linear arithmetic with division and remainder by constants. *)
Ltac euclid := zify; Z.to_euclidean_division_equations; lia.

(** ** The model on small inputs *)

Example strip_example :
  strip ([0xA0] ++ lit "  - a b " ++ [0x09; LF]) = lit "- a b".
Proof. reflexivity. Qed.

Example readlines_example :
  readlines (universal_newlines
               (lit "a" ++ [CR; LF] ++ lit "b" ++ [CR] ++ lit "c"
                ++ [LF; LF] ++ lit "d"))
  = [lit "a" ++ [LF]; lit "b" ++ [LF]; lit "c" ++ [LF]; [LF]; lit "d"].
Proof. reflexivity. Qed.

Example date_str_example : date_str (mkdate 2024 1 3) = lit "2024-01-03".
Proof. reflexivity. Qed.

Example daily_text_example :
  daily_text (mkdate 2024 1 3) [lit "A"; lit "B"] []
  = text_of_lines
      [lit "===== 2024-01-03 ====="; CHECK_MARK :: lit " Completed Tasks:";
       lit "- A"; lit "- B"; CROSS_MARK :: lit " Incomplete Tasks:";
       lit "None"].
Proof. reflexivity. Qed.

Example get_latest_task_file_example :
  let fs : gmap str str :=
    {[ lit "2024-01-01.txt" := lit "a"; lit "2024-01-03.txt" := lit "b";
       lit "weekly_report.txt" := lit "c"; lit "history.csv" := lit "d" ]} in
  get_latest_task_file fs (Some (mkdate 2024 1 3))
  = Some (lit "2024-01-01.txt")
  ∧ get_latest_task_file fs (Some (mkdate 2024 1 1)) = None
  ∧ get_latest_task_file fs None = Some (lit "2024-01-03.txt").
Proof. by vm_compute. Qed.

Example unique_example :
  unique [mkdate 2024 1 3; mkdate 2024 1 1; mkdate 2024 1 3]
  = [mkdate 2024 1 3; mkdate 2024 1 1].
Proof. reflexivity. Qed.

(** ** Whitespace stripping *)

Lemma lstrip_head s c : head (lstrip s) = Some c → isspace c = false.
Proof.
  induction s as [|a s IH]; simpl; [done|].
  destruct (isspace a) eqn:Ha; [done|].
  simpl. by intros [= ->].
Qed.

Lemma lstrip_id s :
  (∀ c, head s = Some c → isspace c = false) → lstrip s = s.
Proof.
  destruct s as [|a s]; simpl; [done|].
  intros H. by rewrite (H a eq_refl).
Qed.

Lemma lstrip_last s c : last (lstrip s) = Some c → last s = Some c.
Proof.
  induction s as [|a s IH]; simpl; [done|].
  destruct (isspace a); [|done].
  intros H. specialize (IH H). rewrite last_cons, IH. done.
Qed.

Lemma lstrip_space c s : isspace c = true → lstrip (c :: s) = lstrip s.
Proof. simpl. by intros ->. Qed.

Lemma rstrip_space s c : isspace c = true → rstrip (s ++ [c]) = rstrip s.
Proof.
  intros Hc. unfold rstrip. by rewrite reverse_snoc, lstrip_space.
Qed.

Lemma rstrip_id s :
  (∀ c, last s = Some c → isspace c = false) → rstrip s = s.
Proof.
  intros H. unfold rstrip. rewrite lstrip_id, reverse_involutive; [done|].
  intros c. rewrite head_reverse. apply H.
Qed.

Lemma strip_trimmed s : trimmed (strip s).
Proof.
  unfold strip, rstrip. split; intros c.
  - rewrite head_reverse. intros H%lstrip_last.
    rewrite last_reverse in H. by apply lstrip_head in H.
  - rewrite last_reverse. apply lstrip_head.
Qed.

Lemma trimmed_strip s : trimmed s → strip s = s.
Proof.
  intros [Hh Hl]. unfold strip. rewrite lstrip_id by done. by apply rstrip_id.
Qed.

Lemma strip_fixpoint s : strip s = s ↔ trimmed s.
Proof.
  split; [intros <-; apply strip_trimmed | apply trimmed_strip].
Qed.

Lemma strip_idemp s : strip (strip s) = strip s.
Proof. apply trimmed_strip, strip_trimmed. Qed.

Lemma lstrip_snoc s c :
  lstrip (s ++ [c]) = match lstrip s with
                      | [] => lstrip [c]
                      | _ :: _ => lstrip s ++ [c]
                      end.
Proof.
  induction s as [|a s IH]; simpl; [done|].
  destruct (isspace a); [apply IH | done].
Qed.

Lemma strip_snoc_space s c : isspace c = true → strip (s ++ [c]) = strip s.
Proof.
  intros Hc. unfold strip. rewrite lstrip_snoc.
  destruct (lstrip s) as [|a u] eqn:E.
  - simpl. by rewrite Hc.
  - by apply (rstrip_space (a :: u)).
Qed.

(** ** The parsing loop *)

Lemma parse_lines_app st l1 l2 :
  parse_lines st (l1 ++ l2) = parse_lines (parse_lines st l1) l2.
Proof. apply fold_left_app. Qed.

Lemma parse_step_unrecognized st ln :
  recognized ln = false → parse_step st ln = st.
Proof.
  unfold recognized, is_header, is_bullet, parse_step.
  intros H. apply orb_false_iff in H as [H1 H3].
  apply orb_false_iff in H1 as [H1 H2]. by rewrite H1, H2, H3.
Qed.


Lemma parse_lines_recognized st lines :
  parse_lines st lines
  = parse_lines st (filter (λ ln, Is_true (recognized ln)) lines).
Proof.
  revert st. induction lines as [|ln lines IH]; intros st; [done|].
  rewrite filter_cons. destruct (decide (Is_true (recognized ln))) as [Hr|Hr].
  - simpl. apply IH.
  - apply Is_true_false_1 in Hr. simpl.
    rewrite (parse_step_unrecognized _ _ Hr). apply IH.
Qed.



(** Every task the loop stores is the stripped text after the marker of
    a bullet line. *)
Lemma parse_step_tasks (Q : str → Prop) st ln :
  (is_bullet ln = true → Q (strip (drop 2 ln))) →
  Forall Q (ps_completed st) → Forall Q (ps_incomplete st) →
  Forall Q (ps_completed (parse_step st ln))
  ∧ Forall Q (ps_incomplete (parse_step st ln)).
Proof.
  intros Hln Hc Hi. unfold parse_step. unfold is_bullet in Hln.
  destruct (startswith ln hdr_completed); [done|].
  destruct (startswith ln hdr_incomplete); [done|].
  destruct (startswith ln (lit "- ")); [|done].
  assert (Ht : Forall Q [strip (drop 2 ln)]) by by apply Forall_singleton, Hln.
  destruct (ps_section st) as [[]|]; cbn [ps_completed ps_incomplete];
    split; try done; by apply Forall_app.
Qed.

Lemma parse_lines_tasks (Q : str → Prop) lines st :
  Forall (λ ln, is_bullet ln = true → Q (strip (drop 2 ln))) lines →
  Forall Q (ps_completed st) → Forall Q (ps_incomplete st) →
  Forall Q (ps_completed (parse_lines st lines))
  ∧ Forall Q (ps_incomplete (parse_lines st lines)).
Proof.
  intros Hlines. revert st.
  induction Hlines as [|ln lines Hln _ IH]; intros st Hc Hi; [done|].
  simpl. destruct (parse_step_tasks Q st ln Hln Hc Hi). by apply IH.
Qed.


Lemma parse_lines_drop_unrecognized st l1 ln l2 :
  recognized ln = false →
  parse_lines st (l1 ++ ln :: l2) = parse_lines st (l1 ++ l2).
Proof.
  intros H. rewrite !parse_lines_app. cbn [parse_lines fold_left].
  by rewrite parse_step_unrecognized.
Qed.

(** C7, as the code has it. Reading a record that does not exist
    returns two empty lists. Reading a record whose bytes are valid
    UTF-8 returns, and the result is the one obtained from the lines
    that, once stripped of surrounding whitespace, start with a section
    header or with "- ": every other line is skipped, and removing such
    a line from the file would change nothing. *)
Theorem parse_txt_day_skips_unrecognized (disk : gmap str (list N))
    (path : str) :
  match disk !! path with
  | None => Disk.parse_txt_day disk path = Returned ([], [])
  | Some bytes =>
      ∀ content, utf8_decode bytes = Some content →
        let lines := stripped_lines content in
        Disk.parse_txt_day disk path
        = Returned (parsed (parse_lines parse_init
                              (filter (λ ln, Is_true (recognized ln)) lines)))
        ∧ ∀ l1 ln l2, lines = l1 ++ ln :: l2 → recognized ln = false →
            Disk.parse_txt_day disk path
            = Returned (parsed (parse_lines parse_init (l1 ++ l2)))
  end.
Proof.
  unfold Disk.parse_txt_day. destruct (disk !! path) as [bytes|]; [|done].
  intros content Hbytes. rewrite Hbytes.
  change (parse_text content)
    with (parsed (parse_lines parse_init (stripped_lines content))).
  split.
  - by rewrite <- parse_lines_recognized.
  - intros l1 ln l2 E Hln. by rewrite E, parse_lines_drop_unrecognized.
Qed.

(** C7, as stated, fails in two ways. A header line and a bullet line
    written with leading blanks do not begin with a header prefix or
    with "- ", yet they are not ignored: the lines are stripped before
    they are classified, and the task is read. An existing file that is
    not valid UTF-8 (here the Latin-1 byte 0xE9) makes the call raise. *)
Lemma parse_txt_day_unrecognized_lines_not_ignored :
  let content := text_of_lines [lit "  " ++ hdr_completed; lit "  - x"] in
  let bytes := lit "  " ++ [0xE2; 0x9C; 0x85] ++ lit " Completed Tasks"
               ++ [LF] ++ lit "  - x" ++ [LF] in
  utf8_decode bytes = Some content
  ∧ Forall (λ ln, recognized ln = false)
      (readlines (universal_newlines content))
  ∧ Disk.parse_txt_day {[ lit "2024-01-01.txt" := bytes ]}
      (lit "2024-01-01.txt")
    = Returned ([lit "x"], [])
  ∧ Disk.parse_txt_day {[ lit "2024-01-01.txt" := [0xE9; LF] ]}
      (lit "2024-01-01.txt")
    = Raised UnicodeDecodeError.
Proof.
  intros content bytes. split_and!.
  - by vm_compute.
  - repeat constructor.
  - by vm_compute.
  - by vm_compute.
Qed.

Lemma parse_txt_day_skips_unrecognized_witness :
  let bytes :=
    lit "===== 2024-01-01 =====" ++ [LF]
    ++ [0xE2; 0x9C; 0x85] ++ lit " Completed Tasks:" ++ [LF]
    ++ lit "- A" ++ [LF] ++ lit "call back on Monday" ++ [LF]
    ++ lit "- B" ++ [LF] in
  Disk.parse_txt_day {[ lit "2024-01-01.txt" := bytes ]}
    (lit "2024-01-01.txt")
  = Returned ([lit "A"; lit "B"], []).
Proof.
  intros bytes.
  pose proof (parse_txt_day_skips_unrecognized
                {[ lit "2024-01-01.txt" := bytes ]} (lit "2024-01-01.txt"))
    as H.
  rewrite lookup_singleton_eq in H.
  destruct (H (text_of_lines
                 [lit "===== 2024-01-01 ====="; hdr_completed ++ lit ":";
                  lit "- A"; lit "call back on Monday"; lit "- B"])
              ltac:(by vm_compute)) as [_ H'].
  rewrite (H' [lit "===== 2024-01-01 ====="; hdr_completed ++ lit ":";
               lit "- A"] (lit "call back on Monday") [lit "- B"])
    by by vm_compute.
  by vm_compute.
Defined.


(** ** Lines of a text file *)

Lemma universal_newlines_id s :
  Forall (λ c, c ≠ CR) s → universal_newlines s = s.
Proof.
  induction 1 as [|c s Hc _ IH]; [done|].
  cbn [universal_newlines]. apply N.eqb_neq in Hc. rewrite Hc. by rewrite IH.
Qed.

Lemma readlines_line l rest :
  Forall (λ c, c ≠ LF) l →
  readlines (l ++ LF :: rest) = (l ++ [LF]) :: readlines rest.
Proof.
  induction 1 as [|c l Hc _ IH]; [done|].
  cbn [app readlines]. apply N.eqb_neq in Hc. rewrite Hc. by rewrite IH.
Qed.

Lemma readlines_text ls :
  Forall single_line ls →
  readlines (text_of_lines ls) = (λ l, l ++ [LF]) <$> ls.
Proof.
  unfold text_of_lines.
  induction 1 as [|l ls Hl _ IH]; [done|].
  cbn [fmap list_fmap concat]. rewrite <- (assoc_L (++)). cbn [app].
  rewrite readlines_line, IH; [done|].
  eapply Forall_impl; [exact Hl|]. by intros c [? _].
Qed.

Lemma text_of_lines_no_CR ls :
  Forall single_line ls → Forall (λ c, c ≠ CR) (text_of_lines ls).
Proof.
  unfold text_of_lines.
  induction 1 as [|l ls Hl _ IH]; [constructor|].
  cbn [fmap list_fmap concat]. rewrite !Forall_app. split_and!; [|by repeat constructor|done].
  eapply Forall_impl; [exact Hl|]. by intros c [_ ?].
Qed.

Lemma stripped_lines_text ls :
  Forall single_line ls → stripped_lines (text_of_lines ls) = strip <$> ls.
Proof.
  intros Hls. unfold stripped_lines.
  rewrite universal_newlines_id by by apply text_of_lines_no_CR.
  rewrite readlines_text by done.
  rewrite <- list_fmap_compose. apply list_fmap_ext.
  intros _ l _. simpl. by apply strip_snoc_space.
Qed.

Lemma text_of_lines_app l1 l2 :
  text_of_lines (l1 ++ l2) = text_of_lines l1 ++ text_of_lines l2.
Proof. unfold text_of_lines. by rewrite fmap_app, concat_app. Qed.

Lemma write_tasks_lines ts : write_tasks ts = text_of_lines (body_lines ts).
Proof.
  destruct ts as [|t ts]; [done|].
  unfold write_tasks, body_lines, bullet_lines, text_of_lines.
  rewrite <- list_fmap_compose. reflexivity.
Qed.

Lemma text_of_lines_cons l ls :
  text_of_lines (l :: ls) = (l ++ [LF]) ++ text_of_lines ls.
Proof. done. Qed.

Lemma daily_text_lines d completed incomplete :
  daily_text d completed incomplete
  = text_of_lines (daily_lines d completed incomplete).
Proof.
  unfold daily_text, daily_lines, title_line.
  rewrite !write_tasks_lines.
  rewrite !text_of_lines_cons, text_of_lines_app, text_of_lines_cons.
  by rewrite <- !(assoc_L (++)).
Qed.

(** ** Writing a record and reading it back *)

Lemma digit_single_line n : digit n ≠ LF ∧ digit n ≠ CR.
Proof.
  unfold digit, LF, CR. pose proof (N.le_0_l (n mod 10)).
  split; intros E; [assert (0x30 <= 0x0A) by lia | assert (0x30 <= 0x0D) by lia];
    done.
Qed.

(** The decimal digits of a number. *)
Lemma N_of_ascii_pretty_N_char k :
  k < 10 → N_of_ascii (pretty_N_char k) = 0x30 + k.
Proof.
  intros Hk.
  assert (k = 0 ∨ k = 1 ∨ k = 2 ∨ k = 3 ∨ k = 4 ∨ k = 5 ∨ k = 6 ∨ k = 7
          ∨ k = 8 ∨ k = 9) as H by lia.
  repeat (destruct H as [->|H]; [reflexivity|]). by subst.
Qed.

Lemma lit_pretty_N_go x :
  ∀ s, ∃ ds, lit (pretty_N_go x s) = ds ++ lit s
             ∧ Forall (λ c, 0x30 <= c <= 0x39) ds
             ∧ (0 < x → ds ≠ []).
Proof.
  induction (N.lt_wf_0 x) as [x _ IH]. intros s.
  destruct (decide (x = 0)) as [->|Hx].
  - exists []. rewrite pretty_N_go_0. split_and!; [done|constructor|lia].
  - rewrite pretty_N_go_step by lia.
    destruct (IH (x / 10) ltac:(apply N.div_lt; lia)
                (String (pretty_N_char (x mod 10)) s)) as (ds & E & Hds & _).
    exists (ds ++ [N_of_ascii (pretty_N_char (x mod 10))]).
    split_and!.
    + rewrite E. by rewrite <- (assoc_L (++)).
    + apply Forall_app. split; [done|]. apply Forall_singleton.
      rewrite N_of_ascii_pretty_N_char by (apply N.mod_lt; lia).
      cbv beta. euclid.
    + intros _. by destruct ds.
Qed.

Lemma lit_pretty_N (n : N) :
  lit (pretty n) ≠ [] ∧ Forall (λ c, 0x30 <= c <= 0x39) (lit (pretty n)).
Proof.
  unfold pretty, pretty_N. case_decide as E.
  - split; [done|]. apply Forall_singleton. by vm_compute.
  - destruct (lit_pretty_N_go n EmptyString) as (ds & -> & Hds & Hne).
    change (lit EmptyString) with (@nil N). rewrite app_nil_r.
    split; [apply Hne; lia|done].
Qed.

Lemma lit_inj s1 s2 : lit s1 = lit s2 → s1 = s2.
Proof.
  revert s2. induction s1 as [|a s1 IH]; intros [|b s2]; try done.
  unfold lit. cbn [list_ascii_of_string fmap list_fmap].
  intros [= Hab Hs]. f_equal; [|by apply IH].
  by rewrite <- (ascii_N_embedding a), <- (ascii_N_embedding b), Hab.
Qed.

(** A year of four digits is written as in the ISO form. *)
Lemma lit_pretty_four_digits y :
  1000 <= y < 10000 →
  lit (pretty y) = [digit (y / 1000); digit (y / 100); digit (y / 10); digit y].
Proof.
  intros Hy. unfold pretty, pretty_N. rewrite decide_False by lia.
  assert (0 < y / 10 ∧ 0 < y / 10 / 10 ∧ 0 < y / 10 / 10 / 10
          ∧ y / 10 / 10 / 10 / 10 = 0) as (H1 & H2 & H3 & H4)
    by (split_and!; euclid).
  rewrite (pretty_N_go_step y) by lia.
  rewrite (pretty_N_go_step (y / 10)) by done.
  rewrite (pretty_N_go_step (y / 10 / 10)) by done.
  rewrite (pretty_N_go_step (y / 10 / 10 / 10)) by done.
  rewrite H4, pretty_N_go_0.
  unfold lit. cbn [list_ascii_of_string fmap list_fmap].
  rewrite !N_of_ascii_pretty_N_char by (apply N.mod_lt; lia).
  unfold digit. rewrite !N.Div0.div_div. done.
Qed.

Lemma date_str_isoformat d :
  four_digit_year d → valid_date d → date_str d = isoformat d.
Proof.
  intros Hy (Hv & _). unfold date_str, isoformat.
  by rewrite lit_pretty_four_digits by (unfold four_digit_year in Hy; lia).
Qed.

Lemma date_str_head d :
  ∃ c rest, date_str d = c :: rest ∧ 0x30 <= c <= 0x39.
Proof.
  unfold date_str. destruct (lit_pretty_N (year d)) as [Hne Hds].
  destruct (lit (pretty (year d))) as [|c ds]; [done|].
  exists c, (ds ++ lit "-" ++ [digit (month d / 10); digit (month d)]
             ++ lit "-" ++ [digit (day d / 10); digit (day d)]).
  split; [done|]. by inversion Hds.
Qed.

Lemma title_line_single_line d : single_line (title_line d).
Proof.
  unfold single_line, title_line, date_str.
  apply Forall_app; split; [closed_fact|].
  apply Forall_app; split.
  - apply Forall_app; split.
    + eapply Forall_impl; [apply lit_pretty_N|].
      intros c Hc. cbv beta in Hc. unfold LF, CR. split; lia.
    + repeat (apply Forall_cons; split;
              [first [apply digit_single_line | by vm_compute] |]).
      constructor.
  - closed_fact.
Qed.

Lemma bullet_lines_single_line ts :
  Forall valid_task ts → Forall single_line (bullet_lines ts).
Proof.
  unfold bullet_lines. rewrite Forall_fmap. intros H.
  eapply Forall_impl; [exact H|].
  intros t (_ & _ & Ht). simpl. by repeat constructor.
Qed.

Lemma body_lines_single_line ts :
  Forall valid_task ts → Forall single_line (body_lines ts).
Proof.
  destruct ts as [|t ts]; intros H.
  - repeat constructor; by vm_compute.
  - by apply bullet_lines_single_line.
Qed.

Lemma daily_lines_single_line d completed incomplete :
  Forall valid_task completed → Forall valid_task incomplete →
  Forall single_line (daily_lines d completed incomplete).
Proof.
  intros Hc Hi. unfold daily_lines.
  apply Forall_cons; split; [apply title_line_single_line|].
  apply Forall_cons; split; [closed_fact|].
  apply Forall_app; split; [by apply body_lines_single_line|].
  apply Forall_cons; split; [closed_fact|].
  by apply body_lines_single_line.
Qed.

Lemma strip_title_line d : recognized (strip (title_line d)) = false.
Proof.
  rewrite trimmed_strip; [done|].
  split; intros c; unfold title_line.
  - change (lit "===== ") with [0x3D; 0x3D; 0x3D; 0x3D; 0x3D; 0x20].
    cbn [app head]. by intros [= <-].
  - rewrite (assoc_L (++)).
    change (lit " =====") with ([0x20; 0x3D; 0x3D; 0x3D; 0x3D] ++ [0x3D]).
    rewrite (assoc_L (++)), last_snoc. by intros [= <-].
Qed.

Lemma valid_task_trimmed t : valid_task t → trimmed t.
Proof. intros (_ & Ht & _). by apply strip_fixpoint. Qed.

Lemma strip_bullet_line t : valid_task t → strip (lit "- " ++ t) = lit "- " ++ t.
Proof.
  intros Ht. pose proof (valid_task_trimmed t Ht) as [_ Hl].
  destruct Ht as (Hne & _ & _).
  apply trimmed_strip. split; intros c.
  - cbn. by intros [= <-].
  - rewrite last_app. destruct (last t) as [a|] eqn:Ea.
    + intros [= <-]. by apply Hl.
    + by apply last_None in Ea.
Qed.

Lemma startswith_head_ne a b s p :
  a ≠ b → startswith (b :: s) (a :: p) = false.
Proof. intros H%N.eqb_neq. simpl. by rewrite H. Qed.

Lemma parse_step_bullet_line st t :
  valid_task t →
  parse_step st (strip (lit "- " ++ t))
  = match ps_section st with
    | Some sec_completed =>
        mkps (ps_section st) (ps_completed st ++ [t]) (ps_incomplete st)
    | Some sec_incomplete =>
        mkps (ps_section st) (ps_completed st) (ps_incomplete st ++ [t])
    | None => st
    end.
Proof.
  intros Ht. rewrite strip_bullet_line by done.
  change (lit "- " ++ t) with (0x2D :: 0x20 :: t).
  unfold parse_step, hdr_completed, hdr_incomplete.
  rewrite !startswith_head_ne by done.
  change (startswith (0x2D :: 0x20 :: t) (lit "- ")) with true.
  change (drop 2 (0x2D :: 0x20 :: t)) with t.
  by destruct Ht as (_ & -> & _).
Qed.

Lemma parse_bullets_completed ts st :
  ps_section st = Some sec_completed → Forall valid_task ts →
  parse_lines st (strip <$> bullet_lines ts)
  = mkps (Some sec_completed) (ps_completed st ++ ts) (ps_incomplete st).
Proof.
  intros Hs Hts. revert st Hs.
  induction Hts as [|t ts Ht _ IH]; intros st Hs.
  - destruct st; simpl in *. by rewrite app_nil_r, Hs.
  - cbn [bullet_lines fmap list_fmap parse_lines fold_left].
    rewrite parse_step_bullet_line by done. rewrite Hs.
    change (fold_left parse_step ?l ?s) with (parse_lines s l).
    unfold bullet_lines in IH. rewrite IH by done.
    simpl. by rewrite <- (assoc_L (++)).
Qed.

Lemma parse_bullets_incomplete ts st :
  ps_section st = Some sec_incomplete → Forall valid_task ts →
  parse_lines st (strip <$> bullet_lines ts)
  = mkps (Some sec_incomplete) (ps_completed st) (ps_incomplete st ++ ts).
Proof.
  intros Hs Hts. revert st Hs.
  induction Hts as [|t ts Ht _ IH]; intros st Hs.
  - destruct st; simpl in *. by rewrite app_nil_r, Hs.
  - cbn [bullet_lines fmap list_fmap parse_lines fold_left].
    rewrite parse_step_bullet_line by done. rewrite Hs.
    change (fold_left parse_step ?l ?s) with (parse_lines s l).
    unfold bullet_lines in IH. rewrite IH by done.
    simpl. by rewrite <- (assoc_L (++)).
Qed.

Lemma parse_body_completed ts st :
  ps_section st = Some sec_completed → Forall valid_task ts →
  parse_lines st (strip <$> body_lines ts)
  = mkps (Some sec_completed) (ps_completed st ++ ts) (ps_incomplete st).
Proof.
  destruct ts as [|t ts]; [|apply parse_bullets_completed].
  intros Hs _. destruct st; simpl in *. by rewrite app_nil_r, Hs.
Qed.

Lemma parse_body_incomplete ts st :
  ps_section st = Some sec_incomplete → Forall valid_task ts →
  parse_lines st (strip <$> body_lines ts)
  = mkps (Some sec_incomplete) (ps_completed st) (ps_incomplete st ++ ts).
Proof.
  destruct ts as [|t ts]; [|apply parse_bullets_incomplete].
  intros Hs _. destruct st; simpl in *. by rewrite app_nil_r, Hs.
Qed.

Lemma parse_step_hdr_completed st ln :
  startswith ln hdr_completed = true →
  parse_step st ln
  = mkps (Some sec_completed) (ps_completed st) (ps_incomplete st).
Proof. unfold parse_step. by intros ->. Qed.

Lemma parse_step_hdr_incomplete st ln :
  startswith ln hdr_incomplete = true →
  parse_step st ln
  = mkps (Some sec_incomplete) (ps_completed st) (ps_incomplete st).
Proof.
  unfold parse_step. intros H. rewrite H.
  destruct ln as [|c ln]; [done|].
  unfold hdr_incomplete in H. cbn [startswith] in H.
  apply andb_true_iff in H as [Hc _]. apply N.eqb_eq in Hc. subst c.
  unfold hdr_completed. by rewrite startswith_head_ne.
Qed.

Lemma parse_daily_lines d completed incomplete :
  Forall valid_task completed → Forall valid_task incomplete →
  parsed (parse_lines parse_init (strip <$> daily_lines d completed incomplete))
  = (completed, incomplete).
Proof.
  intros Hc Hi. unfold daily_lines.
  rewrite !fmap_cons, fmap_app, fmap_cons.
  cbn [parse_lines fold_left].
  rewrite (parse_step_unrecognized _ _ (strip_title_line d)).
  rewrite (parse_step_hdr_completed _ (strip (hdr_completed ++ lit ":")))
    by by vm_compute.
  change (fold_left parse_step ?l ?s) with (parse_lines s l).
  rewrite parse_lines_app, parse_body_completed by done.
  cbn [parse_lines fold_left].
  rewrite (parse_step_hdr_incomplete _ (strip (hdr_incomplete ++ lit ":")))
    by by vm_compute.
  change (fold_left parse_step ?l ?s) with (parse_lines s l).
  by rewrite parse_body_incomplete.
Qed.

Lemma parse_text_daily_text d completed incomplete :
  Forall valid_task completed → Forall valid_task incomplete →
  parse_text (daily_text d completed incomplete) = (completed, incomplete).
Proof.
  intros Hc Hi. rewrite daily_text_lines.
  change (parse_text ?c) with (parsed (parse_lines parse_init (stripped_lines c))).
  rewrite stripped_lines_text by by apply daily_lines_single_line.
  by apply parse_daily_lines.
Qed.

Lemma write_then_parse_lists fs d completed incomplete :
  Forall valid_task completed → Forall valid_task incomplete →
  parse_txt_day (write_daily_file d completed incomplete fs)
    (daily_file_path d)
  = (completed, incomplete).
Proof.
  intros Hc Hi. unfold parse_txt_day, write_daily_file.
  rewrite lookup_insert_eq. by apply parse_text_daily_text.
Qed.

Lemma parse_txt_day_insert_ne (fs : gmap str str) p q content :
  p ≠ q → parse_txt_day (<[p := content]> fs) q = parse_txt_day fs q.
Proof. intros H. unfold parse_txt_day. by rewrite lookup_insert_ne. Qed.

(** C2. Writing a day's record and reading the file back returns the two
    task lists unchanged and in the same order, for task names that are
    non-empty, trimmed and on a single line. *)
Theorem write_then_parse_roundtrip (fs : gmap str str) (d : date)
    (completed incomplete : list str) :
  Forall valid_task completed → Forall valid_task incomplete →
  parse_txt_day (write_daily_file d completed incomplete fs)
    (daily_file_path d)
  = (completed, incomplete).
Proof.
  intros Hc Hi. by apply write_then_parse_lists.
Qed.

Lemma write_then_parse_roundtrip_witness :
  parse_txt_day
    (write_daily_file (mkdate 2024 1 3) [lit "A"; lit "B"] [lit "C"] ∅)
    (daily_file_path (mkdate 2024 1 3))
  = ([lit "A"; lit "B"], [lit "C"]).
Proof. apply write_then_parse_roundtrip; closed_fact. Defined.

(** ** Section headers without the emoji *)



(** *** The bullets under the headers *)


Lemma is_header_section ln :
  is_header ln = false ↔ header_section ln = None.
Proof.
  unfold is_header, header_section.
  destruct (startswith ln hdr_completed), (startswith ln hdr_incomplete);
    by split.
Qed.






(** ** The order on strings *)

Lemma str_le_refl a : str_le a a.
Proof.
  unfold str_le. induction a as [|x a IH]; simpl; [done|].
  rewrite N.eqb_refl. apply Is_true_true in IH. rewrite IH.
  by rewrite orb_true_r.
Qed.

Lemma str_le_trans a b c : str_le a b → str_le b c → str_le a c.
Proof.
  unfold str_le. revert b c.
  induction a as [|x a IH]; intros [|y b] [|z c]; simpl; try done.
  destruct (N.ltb_spec x y), (N.eqb_spec x y), (N.ltb_spec y z),
    (N.eqb_spec y z), (N.ltb_spec x z), (N.eqb_spec x z);
    simpl; try done; try lia.
  apply IH.
Qed.

Lemma str_le_total a b : str_le a b ∨ str_le b a.
Proof.
  unfold str_le. revert b.
  induction a as [|x a IH]; intros [|y b]; simpl; auto.
  destruct (N.ltb_spec x y), (N.eqb_spec x y), (N.ltb_spec y x),
    (N.eqb_spec y x); simpl; auto; try lia.
Qed.

Lemma str_le_antisymm a b : str_le a b → str_le b a → a = b.
Proof.
  unfold str_le. revert b.
  induction a as [|x a IH]; intros [|y b]; simpl; try done.
  destruct (N.ltb_spec x y), (N.eqb_spec x y), (N.ltb_spec y x),
    (N.eqb_spec y x); simpl; try done; try lia.
  intros H1 H2. subst y. f_equal. by apply IH.
Qed.

(** [a < b] is [not (b <= a)]. *)
Lemma str_lt_not_le a b : str_lt a b ↔ ¬ str_le b a.
Proof.
  unfold str_lt, str_le. revert b.
  induction a as [|x a IH]; intros [|y b]; simpl; try tauto.
  destruct (N.ltb_spec x y), (N.eqb_spec x y), (N.ltb_spec y x),
    (N.eqb_spec y x); simpl; try tauto; try lia.
  apply IH.
Qed.

(** ** The latest earlier record *)

Lemma elem_of_glob_txt fs n :
  n ∈ glob_txt fs ↔ is_Some (fs !! n) ∧ matches_txt n.
Proof.
  unfold glob_txt. rewrite list_elem_of_filter, list_elem_of_fmap. split.
  - intros [Hm ([k v] & -> & Hkv)]. apply elem_of_map_to_list in Hkv.
    split; [by exists v | done].
  - intros [[v Hv] Hm]. split; [done|].
    exists (n, v). split; [done|]. by apply elem_of_map_to_list.
Qed.

Lemma elem_of_sorted l n : n ∈ sorted l ↔ n ∈ l.
Proof. unfold sorted. by rewrite merge_sort_Permutation. Qed.

Lemma sorted_StronglySorted l : StronglySorted str_le (sorted l).
Proof.
  apply Sorted_StronglySorted.
  - intros a b c. apply str_le_trans.
  - apply Sorted_merge_sort. intros a b. apply str_le_total.
Qed.

(** The sorted list does not depend on the sorting algorithm, nor on the
    order in which the directory lists its entries. *)
Lemma sorted_canonical l l' :
  l' ≡ₚ l → StronglySorted str_le l' → sorted l = l'.
Proof.
  intros Hperm Hsorted.
  assert (AntiSymm (=) str_le) by (intros a b; apply str_le_antisymm).
  apply (StronglySorted_unique str_le); [apply sorted_StronglySorted|done|].
  unfold sorted. by rewrite merge_sort_Permutation.
Qed.

Lemma StronglySorted_filter (P : str → Prop) `{!∀ x, Decision (P x)} l :
  StronglySorted str_le l → StronglySorted str_le (filter P l).
Proof.
  induction 1 as [|x l _ IH Hx]; [constructor|].
  rewrite filter_cons. destruct (decide (P x)); [|done].
  constructor; [done|].
  apply Forall_forall. intros y [_ Hy]%list_elem_of_filter.
  by eapply Forall_forall in Hx.
Qed.

Lemma last_StronglySorted l p :
  StronglySorted str_le l → last l = Some p →
  p ∈ l ∧ ∀ q, q ∈ l → str_le q p.
Proof.
  intros Hsorted [l' ->]%last_Some. split; [set_solver|].
  intros q [Hq|Hq]%elem_of_app.
  - eapply StronglySorted_app_1_elem_of; [done..|set_solver].
  - apply list_elem_of_singleton in Hq as ->. apply str_le_refl.
Qed.

Lemma get_latest_task_file_before fs today :
  match get_latest_task_file fs (Some today) with
  | Some p =>
      earlier_record fs today p ∧ ∀ n, earlier_record fs today n → str_le n p
  | None => ∀ n, ¬ earlier_record fs today n
  end.
Proof.
  unfold get_latest_task_file.
  set (l := filter _ (filter _ _)).
  assert (Hl : ∀ n, n ∈ l ↔ earlier_record fs today n).
  { intros n. unfold l, earlier_record, daily_file_path.
    rewrite !list_elem_of_filter, elem_of_sorted, elem_of_glob_txt. tauto. }
  assert (Hs : StronglySorted str_le l).
  { unfold l. do 2 apply StronglySorted_filter. apply sorted_StronglySorted. }
  destruct (last l) as [p|] eqn:E.
  - destruct (last_StronglySorted l p Hs E) as [Hp Hmax].
    split; [by apply Hl|]. intros n Hn. by apply Hmax, Hl.
  - apply last_None in E. intros n Hn%Hl. rewrite E in Hn. set_solver.
Qed.

(** ** File names in date order *)

Lemma ltb_two_digits n m (rest : bool) :
  n < 100 → m < 100 →
  (digit (n / 10) <? digit (m / 10))
  || ((digit (n / 10) =? digit (m / 10))
      && ((digit n <? digit m) || ((digit n =? digit m) && rest)))
  = (n <? m) || ((n =? m) && rest).
Proof.
  intros Hn Hm. apply eq_true_iff_eq.
  repeat first [rewrite orb_true_iff | rewrite andb_true_iff].
  rewrite !N.ltb_lt, !N.eqb_eq. unfold digit.
  assert (Hdigits : n = 10 * ((n / 10) mod 10) + n mod 10
                    ∧ m = 10 * ((m / 10) mod 10) + m mod 10
                    ∧ n mod 10 < 10 ∧ m mod 10 < 10)
    by (split_and!; euclid).
  destruct Hdigits as (Hn' & Hm' & ? & ?).
  generalize dependent ((n / 10) mod 10).
  generalize dependent ((m / 10) mod 10).
  generalize dependent (n mod 10). generalize dependent (m mod 10).
  intros. destruct rest; split; intros; lia.
Qed.

(** The four digits of a year are the two digits of its hundreds and the
    two digits of the rest. *)
Lemma year_digits y :
  digit (y / 1000) = digit (y / 100 / 10)
  ∧ digit (y / 10) = digit (y mod 100 / 10)
  ∧ digit y = digit (y mod 100).
Proof. unfold digit. split_and!; f_equal; euclid. Qed.

Lemma date_lt_not_le a b : date_lt a b ↔ ¬ date_le b a.
Proof.
  unfold date_lt, date_le. destruct a as [ya ma da], b as [yb mb db].
  cbn [year month day]. split.
  - intros [Hle Hne] Hge.
    assert (ya = yb ∧ ma = mb ∧ da = db) as (-> & -> & ->) by lia. done.
  - intros Hn. split; [lia|]. intros [= -> -> ->]. lia.
Qed.

(** On the names of the daily records, the order of strings is the order
    of dates. *)
Lemma daily_file_path_lt a b :
  four_digit_year a → four_digit_year b → valid_date a → valid_date b →
  str_lt (daily_file_path a) (daily_file_path b) ↔ date_lt a b.
Proof.
  intros Hya Hyb Hva Hvb.
  unfold daily_file_path. rewrite !date_str_isoformat by done.
  destruct Hva as (Ha1 & Ha2 & Ha3), Hvb as (Hb1 & Hb2 & Hb3).
  rewrite date_lt_not_le. unfold str_lt. rewrite Is_true_true.
  unfold isoformat, date_le.
  change (lit "-") with [0x2D].
  change (lit ".txt") with [0x2E; 0x74; 0x78; 0x74].
  cbn [app str_ltb].
  destruct (year_digits (year a)) as (-> & -> & ->).
  destruct (year_digits (year b)) as (-> & -> & ->).
  change (0x2D <? 0x2D) with false. change (0x2D =? 0x2D) with true.
  cbn [orb andb].
  assert (year a / 100 < 100 ∧ year b / 100 < 100
          ∧ year a mod 100 < 100 ∧ year b mod 100 < 100) as (?&?&?&?)
    by (split_and!; euclid).
  rewrite (ltb_two_digits (day a) (day b)) by done.
  rewrite (ltb_two_digits (month a) (month b)) by done.
  rewrite (ltb_two_digits (year a mod 100) (year b mod 100)) by done.
  rewrite (ltb_two_digits (year a / 100) (year b / 100)) by done.
  repeat first [rewrite orb_true_iff | rewrite andb_true_iff].
  rewrite !N.ltb_lt, !N.eqb_eq. euclid.
Qed.

Lemma startswith_app x y : startswith (x ++ y) x = true.
Proof. induction x as [|c x IH]; [done|]. simpl. by rewrite N.eqb_refl. Qed.

Lemma digit_range n : 0x30 <= digit n <= 0x39.
Proof. unfold digit. euclid. Qed.

(** The name of a daily record is matched by "*.txt" and is not the name
    of a report file. *)
Lemma daily_file_path_record d :
  matches_txt (daily_file_path d)
  ∧ daily_file_path d ∉ [WEEKLY_REPORT; MONTHLY_REPORT].
Proof.
  destruct (date_str_head d) as (c & rest & E & Hc).
  unfold matches_txt, daily_file_path. split.
  - apply Is_true_true, andb_true_iff. split.
    + unfold endswith. by rewrite reverse_app, startswith_app.
    + rewrite E. cbn [app]. change (lit ".") with [0x2E].
      rewrite startswith_head_ne; [done|lia].
  - rewrite E. cbn [app].
    intros [H|[H|H]%elem_of_cons]%elem_of_cons.
    + apply (f_equal head) in H. cbn in H. injection H as H. lia.
    + apply (f_equal head) in H. cbn in H. injection H as H. lia.
    + by apply elem_of_nil in H.
Qed.

(** The record selected for [today] is the one of the latest earlier
    day. *)
Lemma get_latest_task_file_latest_day fs today d :
  four_digit_year today → valid_date today →
  four_digit_year d → valid_date d →
  get_latest_task_file fs (Some today) = Some (daily_file_path d) →
  date_lt d today
  ∧ ∀ d', four_digit_year d' → valid_date d' →
          is_Some (fs !! daily_file_path d') →
          date_lt d' today → date_le d' d.
Proof.
  intros Hytoday Htoday Hyd Hd Hlatest.
  pose proof (get_latest_task_file_before fs today) as H.
  rewrite Hlatest in H. destruct H as [(_ & _ & _ & Hlt) Hmax].
  split; [by apply daily_file_path_lt|].
  intros d' Hyd' Hd' Hfile Hlt'.
  destruct (daily_file_path_record d') as [Hm Hr].
  assert (Hle : str_le (daily_file_path d') (daily_file_path d)).
  { apply Hmax. split_and!; try done. by apply daily_file_path_lt. }
  destruct (decide (date_le d' d)) as [|Hn]; [done|].
  apply date_lt_not_le, daily_file_path_lt, str_lt_not_le in Hn; done.
Qed.

Lemma carry_over_two_records (c1 c3 i3 : list str) (today : date) :
  today = mkdate 2024 1 3 ∨ today = mkdate 2024 1 2 →
  get_latest_task_file
    (write_daily_file (mkdate 2024 1 3) c3 i3
       (write_daily_file (mkdate 2024 1 1) c1 [lit "X"] ∅))
    (Some today)
  = Some (daily_file_path (mkdate 2024 1 1)).
Proof. intros [-> | ->]; by vm_compute. Qed.

(** C3. The carry-over for [today] is the incomplete list, in file order,
    of the record [get_latest_task_file] selects: the entry with the
    greatest name among the record files whose name sorts strictly before
    today's, the two report files left out; it is empty when there is no
    such entry. When the selected record was written by
    [write_daily_file], the carry-over is the incomplete list that was
    written; when it is the record of a day and the years have four
    digits (from the year 1000 on, where the names are the zero-padded
    ISO dates), that day is the latest day before [today] that has a
    record. With records for 2024-01-01 (incomplete "X") and 2024-01-03
    only, the carry-over for 2024-01-03 and for 2024-01-02 is "X". *)
Theorem load_carry_over_tasks_latest (fs : gmap str str) (today : date) :
  match get_latest_task_file fs (Some today) with
  | Some p =>
      earlier_record fs today p
      ∧ (∀ n, earlier_record fs today n → str_le n p)
      ∧ load_carry_over_tasks fs today = (parse_txt_day fs p).2
  | None =>
      (∀ n, ¬ earlier_record fs today n)
      ∧ load_carry_over_tasks fs today = []
  end
  ∧ (∀ d c i,
       get_latest_task_file fs (Some today) = Some (daily_file_path d) →
       fs !! daily_file_path d = Some (daily_text d c i) →
       Forall valid_task c → Forall valid_task i →
       load_carry_over_tasks fs today = i)
  ∧ (∀ d,
       four_digit_year today → valid_date today →
       four_digit_year d → valid_date d →
       get_latest_task_file fs (Some today) = Some (daily_file_path d) →
       date_lt d today
       ∧ ∀ d', four_digit_year d' → valid_date d' →
               is_Some (fs !! daily_file_path d') →
               date_lt d' today → date_le d' d)
  ∧ ∀ c1 c3 i3,
      Forall valid_task c1 →
      let records :=
        write_daily_file (mkdate 2024 1 3) c3 i3
          (write_daily_file (mkdate 2024 1 1) c1 [lit "X"] ∅) in
      load_carry_over_tasks records (mkdate 2024 1 3) = [lit "X"]
      ∧ load_carry_over_tasks records (mkdate 2024 1 2) = [lit "X"].
Proof.
  split_and!.
  - pose proof (get_latest_task_file_before fs today) as H.
    unfold load_carry_over_tasks.
    destruct (get_latest_task_file fs (Some today)) as [p|]; [|done].
    destruct H as [H1 H2]. done.
  - intros d c i Hlatest Hfs Hc Hi.
    unfold load_carry_over_tasks, parse_txt_day. rewrite Hlatest, Hfs.
    by rewrite parse_text_daily_text.
  - intros d. apply get_latest_task_file_latest_day.
  - intros c1 c3 i3 Hc1 records.
    assert (Hread : (parse_txt_day records (daily_file_path (mkdate 2024 1 1))).2
                    = [lit "X"]).
    { unfold records, write_daily_file at 1.
      rewrite (parse_txt_day_insert_ne _ _ _ _) by by vm_compute.
      rewrite write_then_parse_lists; [done..|closed_fact]. }
    unfold load_carry_over_tasks, records.
    rewrite !carry_over_two_records by auto. done.
Qed.

Lemma load_carry_over_tasks_latest_witness :
  let records :=
    write_daily_file (mkdate 2024 1 3) [] [lit "Y"]
      (write_daily_file (mkdate 2024 1 1) [lit "W"] [lit "X"] ∅) in
  load_carry_over_tasks records (mkdate 2024 1 3) = [lit "X"]
  ∧ load_carry_over_tasks records (mkdate 2024 1 2) = [lit "X"]
  ∧ date_lt (mkdate 2024 1 1) (mkdate 2024 1 3).
Proof.
  intros records.
  destruct (load_carry_over_tasks_latest records (mkdate 2024 1 3))
    as (_ & Hwritten & Hday & Hexample).
  split_and!.
  - apply (Hwritten (mkdate 2024 1 1) [lit "W"] [lit "X"]);
      first [reflexivity | closed_fact].
  - apply (Hexample [lit "W"] [] [lit "Y"]). closed_fact.
  - apply (Hday (mkdate 2024 1 1)); by vm_compute.
Defined.

(** ** The history table *)

Section HistoryFacts.
Import History.
Context {csv : Type}.
Context (read_csv : csv → option (list (row str))).
Context (to_csv : list (row str) → csv).
Context (to_datetime : list str → option (list date)).

Local Abbreviation append_to_history := (append_to_history read_csv to_csv).
Local Abbreviation load_history :=
  (load_history read_csv to_csv to_datetime).
Local Abbreviation ledger_rows := (ledger_rows read_csv).
Local Abbreviation ensure_history_csv := (ensure_history_csv to_csv).

(** The file [ensure_history_csv] leaves behind. *)
Lemma ensure_history_csv_run (w : option csv) :
  ensure_history_csv w
  = (Returned (), Some (match w with Some c => c | None => to_csv [] end)).
Proof. by destruct w. Qed.

Lemma append_to_history_run d completed incomplete (w : option csv) :
  let c := match w with Some c => c | None => to_csv [] end in
  append_to_history d completed incomplete w
  = match new_rows d completed incomplete with
    | [] => (Returned (), Some c)
    | r :: rows =>
        match read_csv c with
        | Some df_old => (Returned (), Some (to_csv (df_old ++ r :: rows)))
        | None => (Raised ParserError, Some c)
        end
    end.
Proof.
  unfold History.append_to_history, bind. rewrite ensure_history_csv_run.
  destruct (new_rows d completed incomplete) as [|r rows]; [done|].
  simpl. by destruct (read_csv _).
Qed.

Lemma load_history_run (w : option csv) :
  let c := match w with Some c => c | None => to_csv [] end in
  load_history w
  = (Returned
       match read_csv c with
       | Some df =>
           match to_datetime (r_date <$> df) with
           | Some col => set_date_column df col
           | None => []
           end
       | None => []
       end, Some c).
Proof.
  unfold History.load_history, bind. rewrite ensure_history_csv_run.
  unfold try_except, bind, pd_read_csv, pd_to_date, ret.
  destruct (read_csv _) as [df|]; [|done].
  by destruct (to_datetime _).
Qed.

Lemma append_to_history_rows d completed incomplete w old :
  let new := new_rows d completed incomplete in
  read_csv (to_csv []) = Some [] →
  read_csv (to_csv (old ++ new)) = Some (old ++ new) →
  ledger_rows w = Some old →
  (append_to_history d completed incomplete w).1 = Returned ()
  ∧ ledger_rows (append_to_history d completed incomplete w).2
    = Some (old ++ new).
Proof.
  intros new Hempty Hrt Hold. rewrite append_to_history_run.
  assert (Hc : read_csv (match w with Some c => c | None => to_csv [] end)
               = Some old).
  { destruct w as [c|]; simpl in *; [done|]. rewrite Hempty. congruence. }
  unfold new in *.
  destruct (new_rows d completed incomplete) as [|r rows]; simpl.
  - by rewrite app_nil_r.
  - rewrite Hc. simpl. by rewrite Hrt.
Qed.

(** On a file pandas cannot read, a save with at least one task raises and
    leaves the file as it is. *)
Lemma append_to_history_unreadable d completed incomplete c :
  read_csv c = None → new_rows d completed incomplete ≠ [] →
  append_to_history d completed incomplete (Some c)
  = (Raised ParserError, Some c).
Proof.
  intros Hc Hrows. rewrite append_to_history_run. simpl.
  destruct (new_rows d completed incomplete); [done|]. by rewrite Hc.
Qed.

(** The file a save leaves behind, given the table pandas reads from the
    file the save finds (header only when it was absent). *)
Lemma append_to_history_file d completed incomplete (w : option csv) old :
  let c := match w with Some c => c | None => to_csv [] end in
  read_csv c = Some old →
  append_to_history d completed incomplete w
  = (Returned (),
     Some (if decide (new_rows d completed incomplete = []) then c
           else to_csv (old ++ new_rows d completed incomplete))).
Proof.
  intros c Hold. rewrite append_to_history_run. fold c. rewrite Hold.
  by destruct (new_rows d completed incomplete).
Qed.


(** C9. A save with two empty task lists returns normally and writes no
    row: an existing file is left as it is, an absent one is created
    with the header only, and the table read before and after the call
    is the same. *)
Theorem append_to_history_empty_noop d (w : option csv) :
  append_to_history d [] [] w
  = (Returned (), Some (match w with Some c => c | None => to_csv [] end))
  ∧ (load_history (append_to_history d [] [] w).2).1 = (load_history w).1
  ∧ (read_csv (to_csv []) = Some [] →
     ledger_rows (append_to_history d [] [] w).2 = ledger_rows w).
Proof.
  rewrite append_to_history_run. simpl. split_and!; [done| |].
  - rewrite !load_history_run. by destruct w.
  - intros H. by destruct w.
Qed.

Lemma set_date_column_columns (raw : list (row str)) (col : list date) :
  length col = length raw →
  r_date <$> set_date_column raw col = col
  ∧ r_task <$> set_date_column raw col = r_task <$> raw
  ∧ r_status <$> set_date_column raw col = r_status <$> raw.
Proof.
  unfold set_date_column. revert col.
  induction raw as [|r raw IH]; intros [|d col] Hlen; try done.
  cbn [zip_with fmap list_fmap]. injection Hlen as Hlen.
  destruct (IH col Hlen) as (-> & -> & ->). done.
Qed.

(** C6. Loading the history never raises. When pandas cannot read the
    file, or cannot read its date column, the result is the empty
    table, the same as for a table without rows; otherwise it is the
    table pandas read, row by row with the same task and status, and
    with the dates pandas parsed in the date column. *)
Theorem load_history_fails_soft (w : option csv) :
  let c := match w with Some c => c | None => to_csv [] end in
  (∃ df, (load_history w).1 = Returned df)
  ∧ (read_csv c = None → (load_history w).1 = Returned [])
  ∧ (∀ raw, read_csv c = Some raw →
       to_datetime (r_date <$> raw) = None →
       (load_history w).1 = Returned [])
  ∧ (∀ raw col, read_csv c = Some raw →
       to_datetime (r_date <$> raw) = Some col →
       length col = length raw →
       ∃ df, (load_history w).1 = Returned df
             ∧ length df = length raw
             ∧ r_date <$> df = col
             ∧ r_task <$> df = r_task <$> raw
             ∧ r_status <$> df = r_status <$> raw)
  ∧ (∀ c0, read_csv c = None → read_csv c0 = Some [] →
       (load_history w).1 = (load_history (Some c0)).1).
Proof.
  intros c. rewrite load_history_run. fold c. simpl. split_and!.
  - eauto.
  - by intros ->.
  - by intros raw -> ->.
  - intros raw col -> -> Hlen. eexists. split; [done|].
    destruct (set_date_column_columns raw col Hlen) as (Hd & Ht & Hs).
    split_and!; try done.
    by rewrite <- (length_fmap r_task), Ht, length_fmap.
  - intros c0 -> H0. rewrite load_history_run. simpl. rewrite H0. simpl.
    by destruct (to_datetime []).
Qed.
End HistoryFacts.



Lemma append_to_history_empty_noop_witness :
  History.ledger_rows Table.read_csv
    (History.append_to_history Table.read_csv Table.to_csv
       (mkdate 2024 1 3) [] [] None).2
  = Some [].
Proof.
  apply (append_to_history_empty_noop Table.read_csv Table.to_csv
           Table.to_datetime (mkdate 2024 1 3) None). reflexivity.
Defined.

Lemma load_history_fails_soft_witness :
  let w := Some (Table.Rows
                   [mkrow (lit "2024-01-03") (lit "A") (lit "completed");
                    mkrow (lit "2024-01-04") (lit "B") (lit "incomplete")]) in
  ∃ df,
    (History.load_history Table.read_csv Table.to_csv Table.to_datetime w).1
    = Returned df
    ∧ length df = 2%nat
    ∧ r_date <$> df = [mkdate 2024 1 3; mkdate 2024 1 4]
    ∧ r_task <$> df = [lit "A"; lit "B"]
    ∧ r_status <$> df = [lit "completed"; lit "incomplete"].
Proof.
  intros w.
  destruct (load_history_fails_soft Table.read_csv Table.to_csv
              Table.to_datetime w) as (_ & _ & _ & H & _).
  apply (H [mkrow (lit "2024-01-03") (lit "A") (lit "completed");
            mkrow (lit "2024-01-04") (lit "B") (lit "incomplete")]
           [mkdate 2024 1 3; mkdate 2024 1 4]); reflexivity.
Defined.

(** ** Range statistics *)

Lemma date_leb_le a b : date_leb a b = true ↔ date_le a b.
Proof.
  unfold date_leb, date_le.
  rewrite !orb_true_iff, !andb_true_iff, !orb_true_iff, !andb_true_iff.
  rewrite !N.ltb_lt, !N.eqb_eq, N.leb_le. tauto.
Qed.

Lemma loc_filter {A} (f g : A → bool) (df : list A) :
  loc df (zip_with andb (f <$> df) (g <$> df))
  = filter (λ r, f r = true ∧ g r = true) df.
Proof.
  unfold loc. induction df as [|r df IH]; [done|].
  cbn [fmap list_fmap zip_with]. rewrite !filter_cons. cbn [snd].
  destruct (decide (Is_true (f r && g r))) as [H|H];
    destruct (decide (f r = true ∧ g r = true)) as [H'|H'].
  - cbn. by rewrite IH.
  - apply Is_true_true, andb_true_iff in H. tauto.
  - destruct H. apply Is_true_true, andb_true_iff. tauto.
  - apply IH.
Qed.

Lemma range_rows_filter df start end_ :
  range_rows df start end_ = filter (λ r, in_range start end_ (r_date r)) df.
Proof.
  unfold range_rows. rewrite loc_filter. apply list_filter_iff.
  intros r. unfold in_range. by rewrite !date_leb_le.
Qed.

Lemma series_sum_count {A} (P : A → Prop) `{!∀ x, Decision (P x)} l :
  series_sum ((λ x, bool_decide (P x)) <$> l)
  = Z.of_nat (length (filter P l)).
Proof.
  induction l as [|x l IH]; [done|].
  cbn [fmap list_fmap series_sum foldr]. rewrite filter_cons.
  fold (series_sum ((λ x, bool_decide (P x)) <$> l)). rewrite IH.
  destruct (decide (P x)) as [HP|HP].
  - rewrite bool_decide_true by done. cbn [length]. lia.
  - rewrite bool_decide_false by done. lia.
Qed.

Lemma series_sum_nonneg s : (0 <= series_sum s)%Z.
Proof. induction s as [|[] s IH]; simpl; lia. Qed.

Lemma unique_from seen s :
  NoDup seen →
  let f := λ seen d, if decide (d ∈ seen) then seen else seen ++ [d] in
  NoDup (fold_left f s seen)
  ∧ ∀ d : date, d ∈ fold_left f s seen ↔ d ∈ seen ∨ d ∈ s.
Proof.
  intros Hnd f. revert seen Hnd.
  induction s as [|x s IH]; intros seen Hnd; simpl.
  - split; [done|]. intros d. rewrite elem_of_nil. tauto.
  - destruct (IH (f seen x)) as [H1 H2].
    + unfold f. case_decide as Hx; [done|].
      apply NoDup_app. split_and!; [done| |apply NoDup_singleton].
      by intros y Hy ->%list_elem_of_singleton.
    + split; [done|]. intros d. rewrite H2, elem_of_cons. unfold f.
      case_decide as Hx.
      * split; [tauto|]. intros [?|[->|?]]; tauto.
      * rewrite elem_of_app, list_elem_of_singleton. tauto.
Qed.

Lemma unique_spec s : NoDup (unique s) ∧ ∀ d, d ∈ unique s ↔ d ∈ s.
Proof.
  destruct (unique_from [] s (NoDup_nil_2)) as [H1 H2].
  split; [done|]. intros d. unfold unique. rewrite H2, elem_of_nil. tauto.
Qed.

Lemma unique_two_days d1 d2 : d1 ≠ d2 → unique [d1; d1; d2] = [d1; d2].
Proof.
  intros Hne. unfold unique. cbn [fold_left].
  rewrite (decide_False (P := d1 ∈ [])) by apply not_elem_of_nil.
  cbn [app].
  rewrite (decide_True (P := d1 ∈ [d1])) by apply list_elem_of_here.
  rewrite (decide_False (P := d2 ∈ [d1]));
    [done | intros ?%list_elem_of_singleton; congruence].
Qed.

Lemma summarize_range_fields df start end_ :
  let kept := filter (λ r, in_range start end_ (r_date r)) df in
  let s := summarize_range df start end_ in
  completed s
  = Z.of_nat (length (filter (λ r, r_status r = lit "completed") kept))
  ∧ incomplete s
    = Z.of_nat (length (filter (λ r, r_status r = lit "incomplete") kept))
  ∧ total s = (completed s + incomplete s)%Z
  ∧ days_tracked s = Z.of_nat (length (unique (r_date <$> kept))).
Proof.
  intros kept s. unfold s, summarize_range. cbn [completed incomplete total days_tracked].
  rewrite range_rows_filter. fold kept.
  by rewrite !series_sum_count.
Qed.

(** ** Binary64 arithmetic of the rate *)

Module Binary64.
Import SpecFloat.
Local Open Scope Z_scope.

Lemma digits2_pos_spec p :
  2 ^ (Z.pos (digits2_pos p) - 1) <= Z.pos p < 2 ^ Z.pos (digits2_pos p).
Proof.
  induction p as [p IH|p IH|]; cbn [digits2_pos].
  - rewrite Pos2Z.inj_succ.
    replace (Z.succ (Z.pos (digits2_pos p)) - 1)
      with (Z.succ (Z.pos (digits2_pos p) - 1)) by lia.
    rewrite !Z.pow_succ_r by lia. lia.
  - rewrite Pos2Z.inj_succ.
    replace (Z.succ (Z.pos (digits2_pos p)) - 1)
      with (Z.succ (Z.pos (digits2_pos p) - 1)) by lia.
    rewrite !Z.pow_succ_r by lia. lia.
  - done.
Qed.

Lemma Zdigits2_spec m :
  0 < m → 2 ^ (Zdigits2 m - 1) <= m < 2 ^ Zdigits2 m.
Proof. destruct m as [|p|p]; [lia| |lia]. intros _. apply digits2_pos_spec. Qed.

Lemma Zdigits2_unique m k :
  0 < m → 2 ^ (k - 1) <= m < 2 ^ k → Zdigits2 m = k.
Proof.
  intros Hm [Hlo Hhi]. pose proof (Zdigits2_spec m Hm) as [Hlo' Hhi'].
  assert (0 < Zdigits2 m) by (destruct m; [lia|done|lia]).
  assert (0 < k).
  { destruct (Z.le_gt_cases k 0) as [Hk|]; [|done].
    destruct k as [| |p]; [simpl in Hhi; lia|lia|].
    rewrite Z.pow_neg_r in Hhi by lia. lia. }
  destruct (Z.lt_trichotomy (Zdigits2 m) k) as [Hl|[->|Hg]]; [|done|].
  - assert (2 ^ Zdigits2 m <= 2 ^ (k - 1)) by (apply Z.pow_le_mono_r; lia).
    lia.
  - assert (2 ^ k <= 2 ^ (Zdigits2 m - 1)) by (apply Z.pow_le_mono_r; lia).
    lia.
Qed.

Lemma iter_pos_nat {A} (f : A → A) p x :
  iter_pos f p x = Nat.iter (Pos.to_nat p) f x.
Proof.
  revert x. induction p as [p IH|p IH|]; intros x; cbn [iter_pos].
  - rewrite !IH, Pos2Nat.inj_xI.
    replace (S (2 * Pos.to_nat p))%nat
      with (Pos.to_nat p + (Pos.to_nat p + 1))%nat by lia.
    rewrite !Nat.iter_add. done.
  - rewrite !IH, Pos2Nat.inj_xO.
    replace (2 * Pos.to_nat p)%nat with (Pos.to_nat p + Pos.to_nat p)%nat
      by lia.
    by rewrite Nat.iter_add.
  - done.
Qed.

Lemma shr_1_nonneg m r s :
  0 <= m →
  shr_1 (Build_shr_record m r s)
  = Build_shr_record (m / 2) (Z.odd m) (r || s).
Proof.
  intros Hm. rewrite <- Z.div2_div.
  destruct m as [|[p|p|]|p]; try done; lia.
Qed.

Lemma bits_of_step m r s a b :
  0 <= m → bits_of r s a b →
  bits_of (Z.odd m) (r || s) ((m mod 2) * b + a) (2 * b).
Proof.
  intros Hm (Hab & Hr & Hs).
  rewrite Zmod_odd. unfold bits_of. rewrite orb_true_iff, Hr, Hs.
  destruct (Z.odd m); split_and!; try lia; try (split; intros; lia).
  all: split; [intros [?|?]; lia | intros; destruct (Z.le_gt_cases b (2 * a)); [left; lia | right; lia]].
Qed.

Lemma shr_iter n : ∀ m r s a b,
  0 <= m → bits_of r s a b →
  ∃ r' s', Nat.iter n shr_1 (Build_shr_record m r s)
           = Build_shr_record (m / 2 ^ Z.of_nat n) r' s'
           ∧ bits_of r' s' ((m mod 2 ^ Z.of_nat n) * b + a)
               (2 ^ Z.of_nat n * b).
Proof.
  induction n as [|n IH]; intros m r s a b Hm Hb.
  - exists r, s. cbn [Nat.iter]. change (2 ^ Z.of_nat 0) with 1.
    rewrite Z.div_1_r, Z.mod_1_r. split; [done|].
    by replace (0 * b + a) with a by lia; replace (1 * b) with b by lia.
  - destruct (IH m r s a b Hm Hb) as (r' & s' & E & Hb').
    rewrite Nat.iter_succ, E.
    assert (Hq : 0 <= m / 2 ^ Z.of_nat n) by (apply Z.div_pos; lia).
    rewrite shr_1_nonneg by done.
    pose proof (bits_of_step _ _ _ _ _ Hq Hb') as Hstep.
    eexists _, _. split; [|].
    + f_equal. rewrite Nat2Z.inj_succ, Z.pow_succ_r by lia.
      rewrite Z.div_div by lia. f_equal. lia.
    + rewrite Nat2Z.inj_succ, Z.pow_succ_r by lia.
      replace ((m mod (2 * 2 ^ Z.of_nat n)) * b + a)
        with (((m / 2 ^ Z.of_nat n) mod 2) * (2 ^ Z.of_nat n * b)
              + ((m mod 2 ^ Z.of_nat n) * b + a)).
      * by replace (2 * 2 ^ Z.of_nat n * b) with (2 * (2 ^ Z.of_nat n * b))
          by lia.
      * rewrite (Z.mul_comm 2 (2 ^ Z.of_nat n)).
        rewrite (Z.rem_mul_r m (2 ^ Z.of_nat n) 2) by lia. lia.
Qed.

Lemma shr_record_of_frac_loc m a b :
  0 <= a < b →
  ∃ r s, shr_record_of_loc m (frac_loc a b) = Build_shr_record m r s
         ∧ bits_of r s a b.
Proof.
  intros Hab. unfold frac_loc, bits_of.
  destruct (Z.eqb_spec a 0) as [->|Ha].
  - exists false, false. split; [done|]. split_and!; try lia; split; try done; lia.
  - destruct (Z.compare_spec (2 * a) b) as [E|E|E].
    + exists true, false. split; [done|]. split_and!; try lia; split; try done; lia.
    + exists false, true. split; [done|]. split_and!; try lia; split; try done; lia.
    + exists true, true. split; [done|]. split_and!; try lia; split; try done; lia.
Qed.

Lemma rne_loc m r s a b :
  bits_of r s a b →
  round_nearest_even m (loc_of_shr_record (Build_shr_record m r s))
  = rne m a b.
Proof.
  intros (Hab & Hr & Hs). unfold rne.
  destruct r, s; cbn [loc_of_shr_record round_nearest_even].
  - assert (b < 2 * a) as ->%Z.ltb_lt by (destruct Hr, Hs; lia). done.
  - assert (2 * a = b) by (destruct Hr, Hs; lia).
    assert ((b <? 2 * a) = false) as -> by (apply Z.ltb_ge; lia).
    assert ((2 * a =? b) = true) as -> by (apply Z.eqb_eq; lia).
    rewrite <- Z.negb_odd. by destruct (Z.odd m).
  - assert (¬ (b <= 2 * a)) by (intros Hle; apply Hr in Hle; discriminate).
    assert ((b <? 2 * a) = false) as -> by (apply Z.ltb_ge; lia).
    assert ((2 * a =? b) = false) as -> by (apply Z.eqb_neq; lia). done.
  - assert (¬ (b <= 2 * a)) by (intros Hle; apply Hr in Hle; discriminate).
    assert ((b <? 2 * a) = false) as -> by (apply Z.ltb_ge; lia).
    assert ((2 * a =? b) = false) as -> by (apply Z.eqb_neq; lia). done.
Qed.

Lemma shr_nat mrs e n :
  0 <= n → shr mrs e n = (Nat.iter (Z.to_nat n) shr_1 mrs, e + n).
Proof.
  intros Hn. destruct n as [|p|p]; [| |lia].
  - cbn [shr Z.to_nat Nat.iter]. by rewrite Z.add_0_r.
  - cbn [shr Z.to_nat]. by rewrite iter_pos_nat.
Qed.

Lemma rne_cases m a b : rne m a b = m ∨ rne m a b = m + 1.
Proof. unfold rne. destruct (_ || _); auto. Qed.

(** Rounding in the normal range: the mantissa [mx] with the fraction
    [a / b] behind it, at exponent [ex]. *)
Lemma binary_round_aux_normal mx ex a b :
  0 < mx → 0 <= a < b →
  let n := Zdigits2 mx - 53 in
  let m1 := rne (mx / 2 ^ n) ((mx mod 2 ^ n) * b + a) (2 ^ n * b) in
  0 <= n → -1074 <= ex + n → ex + n < 971 →
  2 ^ 52 <= mx / 2 ^ n < 2 ^ 53
  ∧ 2 ^ 52 <= m1 <= 2 ^ 53
  ∧ binary64_round_aux false mx ex (frac_loc a b)
    = if m1 <? 2 ^ 53 then S754_finite false (Z.to_pos m1) (ex + n)
      else S754_finite false (Z.to_pos (2 ^ 52)) (ex + n + 1).
Proof.
  intros Hmx Hab n m1 Hn Hlo Hhi.
  pose proof (Zdigits2_spec mx Hmx) as [Hd1 Hd2].
  assert (Hm' : 2 ^ 52 <= mx / 2 ^ n < 2 ^ 53).
  { assert (E1 : 2 ^ (Zdigits2 mx - 1) = 2 ^ n * 2 ^ 52).
    { rewrite <- Z.pow_add_r by lia. f_equal. lia. }
    assert (E2 : 2 ^ Zdigits2 mx = 2 ^ n * 2 ^ 53).
    { rewrite <- Z.pow_add_r by lia. f_equal. lia. }
    assert (0 < 2 ^ n) by (apply Z.pow_pos_nonneg; lia).
    split.
    - apply Z.div_le_lower_bound; lia.
    - apply Z.div_lt_upper_bound; lia. }
  assert (Hm1 : 2 ^ 52 <= m1 <= 2 ^ 53).
  { destruct (rne_cases (mx / 2 ^ n) ((mx mod 2 ^ n) * b + a) (2 ^ n * b))
      as [E|E]; fold m1 in E; lia. }
  split; [done|]. split; [done|].
  unfold binary64_round_aux, SpecFloat.binary_round_aux, shr_fexp.
  assert (Ef : fexp 53 1024 (Zdigits2 mx + ex) - ex = n).
  { unfold fexp, emin. lia. }
  rewrite Ef, shr_nat by done.
  destruct (shr_record_of_frac_loc mx a b Hab) as (r & s & -> & Hbits).
  destruct (shr_iter (Z.to_nat n) mx r s a b ltac:(lia) Hbits)
    as (r' & s' & Eit & Hbits').
  rewrite Z2Nat.id in Eit, Hbits' by done. rewrite Eit.
  cbn [shr_m]. rewrite (rne_loc _ _ _ _ _ Hbits'). fold m1.
  destruct (Z.ltb_spec m1 (2 ^ 53)) as [Hlt|Hge].
  - assert (Ed : Zdigits2 m1 = 53) by (apply Zdigits2_unique; lia).
    assert (Ef1 : fexp 53 1024 (Zdigits2 m1 + (ex + n)) - (ex + n) = 0).
    { rewrite Ed. unfold fexp, emin. lia. }
    rewrite Ef1. cbn [shr shr_record_of_loc shr_m].
    destruct m1 as [|p|p]; [lia| |lia].
    assert ((ex + n <=? 1024 - 53) = true) as -> by (apply Z.leb_le; lia).
    done.
  - assert (E : m1 = 2 ^ 53) by lia. rewrite E.
    assert (Ef1 : fexp 53 1024 (Zdigits2 (2 ^ 53) + (ex + n)) - (ex + n) = 1).
    { change (Zdigits2 (2 ^ 53)) with 54. unfold fexp, emin. lia. }
    rewrite Ef1. cbn [shr shr_record_of_loc iter_pos].
    change (shr_m (shr_1 {| shr_m := 2 ^ 53; shr_r := false; shr_s := false |}))
      with (2 ^ 52).
    change (2 ^ 52) with (Z.pos (Z.to_pos (2 ^ 52))).
    assert ((ex + n + 1 <=? 1024 - 53) = true) as -> by (apply Z.leb_le; lia).
    done.
Qed.

Lemma rne_exact m : rne m 0 1 = m.
Proof. done. Qed.

Lemma Pos_iter_xO p k : Z.pos (Pos.iter xO p k) = Z.pos p * 2 ^ Z.pos k.
Proof.
  change (Pos.iter xO p k) with (Zpower.shift_pos k p).
  rewrite Zpower.shift_pos_correct. change (Z.pow_pos 2 k) with (2 ^ Z.pos k).
  lia.
Qed.

(** A count below 2^53 is converted exactly: the mantissa is the count
    shifted to 53 bits. *)
Lemma Prim2SF_np_float64 c :
  0 < c < 2 ^ 53 →
  2 ^ 52 <= c * 2 ^ (53 - Zdigits2 c) < 2 ^ 53
  ∧ 0 < Zdigits2 c <= 53
  ∧ FloatOps.Prim2SF (np_float64 c)
    = S754_finite false (Z.to_pos (c * 2 ^ (53 - Zdigits2 c)))
        (Zdigits2 c - 53).
Proof.
  intros Hc. pose proof (Zdigits2_spec c ltac:(lia)) as [Hd1 Hd2].
  assert (Hd : 0 < Zdigits2 c <= 53).
  { split; [destruct c; [lia|done|lia]|].
    destruct (Z.le_gt_cases (Zdigits2 c) 53) as [|Hgt]; [done|].
    assert (2 ^ 53 <= 2 ^ (Zdigits2 c - 1)) by (apply Z.pow_le_mono_r; lia).
    lia. }
  assert (Hm : 2 ^ 52 <= c * 2 ^ (53 - Zdigits2 c) < 2 ^ 53).
  { assert (E1 : 2 ^ 52 = 2 ^ (Zdigits2 c - 1) * 2 ^ (53 - Zdigits2 c)).
    { rewrite <- Z.pow_add_r by lia. f_equal. lia. }
    assert (E2 : 2 ^ 53 = 2 ^ Zdigits2 c * 2 ^ (53 - Zdigits2 c)).
    { rewrite <- Z.pow_add_r by lia. f_equal. lia. }
    assert (0 < 2 ^ (53 - Zdigits2 c)) by (apply Z.pow_pos_nonneg; lia).
    rewrite E1, E2. split.
    - apply Z.mul_le_mono_nonneg_r; lia.
    - apply Z.mul_lt_mono_pos_r; lia. }
  split; [done|]. split; [done|].
  unfold np_float64. rewrite FloatAxioms.of_uint63_spec, Uint63.of_Z_spec.
  rewrite Z.mod_small by (change Uint63Axioms.wB with (2 ^ 63); lia).
  destruct c as [|p|p]; [lia| |lia].
  cbn [binary_normalize]. unfold binary_round, shl_align.
  change (Z.pos (digits2_pos p)) with (Zdigits2 (Z.pos p)) in *.
  assert (Ef : fexp FloatOps.prec FloatOps.emax (Zdigits2 (Z.pos p) + 0) - 0
               = Zdigits2 (Z.pos p) - 53).
  { unfold fexp, SpecFloat.emin, FloatOps.prec, FloatOps.emax. lia. }
  assert (Ef0 : fexp FloatOps.prec FloatOps.emax (Zdigits2 (Z.pos p) + 0)
                = Zdigits2 (Z.pos p) - 53) by lia.
  rewrite Ef. rewrite Ef0.
  set (mz := Z.pos p * 2 ^ (53 - Zdigits2 (Z.pos p))) in *.
  assert (Hdz : Zdigits2 mz = 53) by (apply Zdigits2_unique; lia).
  assert (Hround : ∀ q ez, Z.pos q = mz → ez = Zdigits2 (Z.pos p) - 53 →
            SpecFloat.binary_round_aux FloatOps.prec FloatOps.emax false
              (Z.pos q) ez loc_Exact
            = S754_finite false (Z.to_pos mz) (Zdigits2 (Z.pos p) - 53)).
  { intros q ez Eq ->. rewrite Eq.
    destruct (binary_round_aux_normal mz (Zdigits2 (Z.pos p) - 53) 0 1
                ltac:(lia) ltac:(lia)) as (_ & _ & E); try (rewrite Hdz; lia).
    rewrite Hdz in E. change (53 - 53) with 0 in E.
    change (2 ^ 0) with 1 in E. rewrite Z.div_1_r, Z.mod_1_r in E.
    change (0 * 1 + 0) with 0 in E. change (1 * 1) with 1 in E.
    rewrite rne_exact in E.
    assert ((mz <? 2 ^ 53) = true) as Hlt by (apply Z.ltb_lt; lia).
    rewrite Hlt, Z.add_0_r in E. exact E. }
  destruct (Zdigits2 (Z.pos p) - 53) as [|k|k] eqn:Ek.
  - apply Hround; [|done]. unfold mz.
    replace (53 - Zdigits2 (Z.pos p)) with 0 by lia. lia.
  - lia.
  - apply Hround; [|done]. rewrite Pos_iter_xO. unfold mz.
    f_equal. f_equal. lia.
Qed.

(** Rounding moves by at most one half. *)
Lemma rne_err m a b :
  0 <= a < b → Z.abs (2 * rne m a b * b - 2 * (m * b + a)) <= b.
Proof.
  intros Hab. unfold rne.
  destruct (Z.ltb_spec b (2 * a)); cbn [orb].
  - lia.
  - destruct (Z.eqb_spec (2 * a) b); cbn [andb]; [destruct (Z.odd m)|]; lia.
Qed.

Lemma new_location_frac b a : 0 <= a < b → new_location b a = frac_loc a b.
Proof.
  intros Hab. unfold new_location, new_location_even, new_location_odd,
    frac_loc.
  destruct (Z.even b) eqn:Eb; [done|].
  destruct (Z.eqb_spec a 0) as [|Ha]; [done|]. f_equal.
  assert (Hodd : Z.odd b = true) by (by rewrite <- Z.negb_even, Eb).
  apply Z.odd_spec in Hodd as [k Hk].
  destruct (Z.compare_spec (2 * a + 1) b), (Z.compare_spec (2 * a) b);
    try done; lia.
Qed.

(** The quotient of two normal numbers with 53-bit mantissas. *)
Lemma SFdiv_normal Mc Ec Mt Et :
  2 ^ 52 <= Mc < 2 ^ 53 → 2 ^ 52 <= Mt < 2 ^ 53 →
  -1000 <= Ec - Et <= 900 →
  let q := Mc * 2 ^ 53 / Mt in
  let r := (Mc * 2 ^ 53) mod Mt in
  let n := Zdigits2 q - 53 in
  let m1 := rne (q / 2 ^ n) ((q mod 2 ^ n) * Mt + r) (2 ^ n * Mt) in
  0 <= n <= 1
  ∧ 0 <= r < Mt
  ∧ Mc * 2 ^ 53 = q * Mt + r
  ∧ 2 ^ 52 <= m1 <= 2 ^ 53
  ∧ Z.abs (2 * m1 * (2 ^ n * Mt) - 2 * (Mc * 2 ^ 53)) <= 2 ^ n * Mt
  ∧ SFdiv 53 1024 (S754_finite false (Z.to_pos Mc) Ec)
      (S754_finite false (Z.to_pos Mt) Et)
    = if m1 <? 2 ^ 53 then
        S754_finite false (Z.to_pos m1) (Ec - Et - 53 + n)
      else S754_finite false (Z.to_pos (2 ^ 52)) (Ec - Et - 53 + n + 1).
Proof.
  intros HMc HMt HE q r n m1.
  assert (Hr : 0 <= r < Mt) by (apply Z.mod_pos_bound; lia).
  assert (Hqr : Mc * 2 ^ 53 = q * Mt + r).
  { unfold q, r. rewrite (Z.mul_comm _ Mt). apply Z.div_mod. lia. }
  assert (Hq : 2 ^ 52 <= q < 2 ^ 54).
  { unfold q. split.
    - apply Z.div_le_lower_bound; [lia|]. nia.
    - apply Z.div_lt_upper_bound; [lia|]. nia. }
  assert (Hn : 0 <= n <= 1).
  { unfold n. pose proof (Zdigits2_spec q ltac:(lia)) as [H1 H2].
    split.
    - destruct (Z.le_gt_cases 53 (Zdigits2 q)) as [|Hlt]; [lia|].
      assert (2 ^ Zdigits2 q <= 2 ^ 52) by (apply Z.pow_le_mono_r; lia).
      lia.
    - destruct (Z.le_gt_cases (Zdigits2 q) 54) as [|Hgt]; [lia|].
      assert (2 ^ 54 <= 2 ^ (Zdigits2 q - 1))
        by (apply Z.pow_le_mono_r; lia).
      lia. }
  destruct (binary_round_aux_normal q (Ec - Et - 53) r Mt
              ltac:(lia) Hr) as (_ & Hm1 & E); fold n; try lia.
  fold n m1 in Hm1, E.
  split; [done|]. split; [done|]. split; [done|]. split; [done|].
  split.
  { assert (0 < 2 ^ n) by (apply Z.pow_pos_nonneg; lia).
    pose proof (rne_err (q / 2 ^ n) ((q mod 2 ^ n) * Mt + r) (2 ^ n * Mt))
      as Herr.
    fold m1 in Herr.
    assert (Hq2 : q = 2 ^ n * (q / 2 ^ n) + q mod 2 ^ n)
      by (apply Z.div_mod; lia).
    pose proof (Z.mod_pos_bound q (2 ^ n) ltac:(lia)).
    replace (q / 2 ^ n * (2 ^ n * Mt) + ((q mod 2 ^ n) * Mt + r))
      with (Mc * 2 ^ 53) in Herr by (rewrite Hqr; rewrite Hq2 at 1; ring).
    apply Herr. nia. }
  rewrite <- E. cbn [SFdiv xorb]. unfold SFdiv_core_binary.
  rewrite !Z2Pos.id by lia.
  assert (HdMc : Zdigits2 Mc = 53) by (apply Zdigits2_unique; lia).
  assert (HdMt : Zdigits2 Mt = 53) by (apply Zdigits2_unique; lia).
  rewrite HdMc, HdMt.
  assert (Ee : Z.min (fexp 53 1024 (53 + Ec - (53 + Et))) (Ec - Et)
               = Ec - Et - 53) by (unfold fexp, emin; lia).
  rewrite Ee.
  replace (Ec - Et - (Ec - Et - 53)) with 53 by lia.
  rewrite Z.shiftl_mul_pow2 by lia.
  unfold Z.div_eucl at 1. fold (Z.div_eucl (Mc * 2 ^ 53) Mt).
  assert (Hde : Z.div_eucl (Mc * 2 ^ 53) Mt = (q, r)).
  { unfold q, r, Z.div, Z.modulo.
    by destruct (Z.div_eucl (Mc * 2 ^ 53) Mt). }
  rewrite Hde. rewrite new_location_frac by done. done.
Qed.

(** The product of a normal number with a 53-bit mantissa and 100. *)
Lemma SFmul_100 Mq Eq :
  2 ^ 52 <= Mq < 2 ^ 53 → -1000 <= Eq <= 900 →
  let mx := Mq * (100 * 2 ^ 46) in
  let n := Zdigits2 mx - 53 in
  let m2 := rne (mx / 2 ^ n) (mx mod 2 ^ n) (2 ^ n) in
  52 <= n <= 53
  ∧ 2 ^ 52 <= m2 <= 2 ^ 53
  ∧ Z.abs (2 * m2 * 2 ^ n - 2 * mx) <= 2 ^ n
  ∧ SFmul 53 1024 (S754_finite false (Z.to_pos Mq) Eq)
      (S754_finite false (Z.to_pos (100 * 2 ^ 46)) (-46))
    = if m2 <? 2 ^ 53 then
        S754_finite false (Z.to_pos m2) (Eq - 46 + n)
      else S754_finite false (Z.to_pos (2 ^ 52)) (Eq - 46 + n + 1).
Proof.
  intros HMq HEq mx n m2.
  assert (Hmx : 2 ^ 104 <= mx < 2 ^ 106) by (unfold mx; lia).
  assert (Hn : 52 <= n <= 53).
  { unfold n. pose proof (Zdigits2_spec mx ltac:(lia)) as [H1 H2].
    split.
    - destruct (Z.le_gt_cases 105 (Zdigits2 mx)) as [|Hlt]; [lia|].
      assert (2 ^ Zdigits2 mx <= 2 ^ 104) by (apply Z.pow_le_mono_r; lia).
      lia.
    - destruct (Z.le_gt_cases (Zdigits2 mx) 106) as [|Hgt]; [lia|].
      assert (2 ^ 106 <= 2 ^ (Zdigits2 mx - 1))
        by (apply Z.pow_le_mono_r; lia).
      lia. }
  destruct (binary_round_aux_normal mx (Eq - 46) 0 1 ltac:(lia) ltac:(lia))
    as (_ & Hm2 & E); fold n; try lia.
  fold n in Hm2, E.
  replace ((mx mod 2 ^ n) * 1 + 0) with (mx mod 2 ^ n) in Hm2, E by lia.
  replace (2 ^ n * 1) with (2 ^ n) in Hm2, E by lia.
  fold m2 in Hm2, E.
  split; [done|]. split; [done|]. split.
  { assert (0 < 2 ^ n) by (apply Z.pow_pos_nonneg; lia).
    pose proof (rne_err (mx / 2 ^ n) (mx mod 2 ^ n) (2 ^ n)
                  ltac:(apply Z.mod_pos_bound; lia)) as Herr.
    fold m2 in Herr.
    replace (mx / 2 ^ n * 2 ^ n + mx mod 2 ^ n) with mx in Herr; [done|].
    rewrite (Z.mul_comm (mx / 2 ^ n)). apply Z.div_mod. lia. }
  rewrite <- E. cbn [SFmul xorb].
  change (frac_loc 0 1) with loc_Exact.
  rewrite Pos2Z.inj_mul, !Z2Pos.id by lia.
  replace (Eq + -46) with (Eq - 46) by lia. done.
Qed.

Lemma Zdigits2_mono c t : 0 < c <= t → Zdigits2 c <= Zdigits2 t.
Proof.
  intros Hct. pose proof (Zdigits2_spec c ltac:(lia)) as [H1 _].
  pose proof (Zdigits2_spec t ltac:(lia)) as [_ H2].
  destruct (Z.le_gt_cases (Zdigits2 c) (Zdigits2 t)) as [|Hgt]; [done|].
  assert (2 ^ Zdigits2 t <= 2 ^ (Zdigits2 c - 1)).
  { apply Z.pow_le_mono_r; [lia|]. lia. }
  lia.
Qed.

(** The quotient of two counts, rounded: [m1 / 2 ^ k] is within half a
    unit in the last place of [c / t]. *)
Lemma div_rounding c t :
  0 < c <= t → t < 2 ^ 53 →
  ∃ m1 k,
    2 ^ 52 <= m1 <= 2 ^ 53 ∧ 52 <= k <= 105
    ∧ Z.abs (2 * m1 * t - 2 * c * 2 ^ k) <= t
    ∧ FloatOps.Prim2SF (PrimFloat.div (np_float64 c) (np_float64 t))
      = norm m1 (- k).
Proof.
  intros Hct Ht.
  destruct (Prim2SF_np_float64 c ltac:(lia)) as (HMc & Hdc & Ec).
  destruct (Prim2SF_np_float64 t ltac:(lia)) as (HMt & Hdt & Et).
  pose proof (Zdigits2_mono c t Hct) as Hmono.
  set (uc := 53 - Zdigits2 c) in *. set (ut := 53 - Zdigits2 t) in *.
  destruct (SFdiv_normal (c * 2 ^ uc) (Zdigits2 c - 53) (t * 2 ^ ut)
              (Zdigits2 t - 53) HMc HMt ltac:(lia))
    as (Hn & Hr & Hqr & Hm1 & Herr & Ediv).
  set (n := Zdigits2 (c * 2 ^ uc * 2 ^ 53 / (t * 2 ^ ut)) - 53) in *.
  set (m1 := rne _ _ _) in *.
  exists m1, (uc - ut + 53 - n). split; [done|]. split; [lia|]. split.
  - set (k := uc - ut + 53 - n).
    assert (Hk : 0 <= k) by lia.
    set (G := 2 ^ (uc + 53)).
    assert (HG : 0 < G) by (apply Z.pow_pos_nonneg; lia).
    assert (E1 : 2 ^ n * (t * 2 ^ ut) * 2 ^ k = t * G).
    { unfold G. replace (uc + 53) with (n + ut + k) by lia.
      rewrite !Z.pow_add_r by lia. ring. }
    assert (E2 : c * 2 ^ uc * 2 ^ 53 = c * G).
    { unfold G. rewrite Z.pow_add_r by lia. ring. }
    assert (0 < 2 ^ k) by (apply Z.pow_pos_nonneg; lia).
    assert (H3 : Z.abs ((2 * m1 * t - 2 * c * 2 ^ k) * G) <= t * G).
    { replace ((2 * m1 * t - 2 * c * 2 ^ k) * G)
        with ((2 * m1 * (2 ^ n * (t * 2 ^ ut)) - 2 * (c * 2 ^ uc * 2 ^ 53))
              * 2 ^ k)
        by (rewrite E2; transitivity
              (2 * m1 * (2 ^ n * (t * 2 ^ ut) * 2 ^ k) - 2 * c * G * 2 ^ k);
            [ring | rewrite E1; ring]).
      rewrite Z.abs_mul, (Z.abs_eq (2 ^ k)) by lia. rewrite <- E1.
      apply Z.mul_le_mono_nonneg_r; [lia|done]. }
    rewrite Z.abs_mul, (Z.abs_eq G) in H3 by lia.
    apply Z.mul_le_mono_pos_r in H3; done.
  - rewrite FloatAxioms.div_spec, Ec, Et.
    unfold FloatAxioms.SF64div.
    change FloatOps.prec with 53. change FloatOps.emax with 1024.
    rewrite Ediv. unfold norm.
    replace (Zdigits2 c - 53 - (Zdigits2 t - 53) - 53 + n)
      with (- (uc - ut + 53 - n)) by lia.
    done.
Qed.

(** The product with 100, rounded: [m2 / 2 ^ u2] is within half a unit
    in the last place of [100 * Mq / 2 ^ kq]. *)
Lemma mul_100_rounding x Mq kq :
  FloatOps.Prim2SF x = S754_finite false (Z.to_pos Mq) (- kq) →
  2 ^ 52 <= Mq < 2 ^ 53 → 52 <= kq <= 900 →
  ∃ m2 u2,
    2 ^ 52 <= m2 <= 2 ^ 53 ∧ kq - 7 <= u2 <= kq - 6
    ∧ Z.abs (2 * m2 * 2 ^ kq - 200 * Mq * 2 ^ u2) <= 2 ^ kq
    ∧ FloatOps.Prim2SF (PrimFloat.mul x (np_float64 100)) = norm m2 (- u2).
Proof.
  intros Ex HMq Hkq.
  destruct (Prim2SF_np_float64 100 ltac:(lia)) as (_ & _ & E100).
  change (Zdigits2 100) with 7 in E100. change (53 - 7) with 46 in E100.
  change (7 - 53) with (-46) in E100.
  destruct (SFmul_100 Mq (- kq) HMq ltac:(lia))
    as (Hn & Hm2 & Herr & Emul).
  set (n := Zdigits2 (Mq * (100 * 2 ^ 46)) - 53) in *.
  set (m2 := rne _ _ _) in *.
  exists m2, (kq + 46 - n). split; [done|]. split; [lia|]. split.
  - set (u2 := kq + 46 - n).
    assert (0 <= u2) by (unfold u2; lia).
    assert (EH : 2 ^ kq * 2 ^ 46 = 2 ^ u2 * 2 ^ n).
    { rewrite <- !Z.pow_add_r by lia. f_equal. unfold u2. lia. }
    assert (0 < 2 ^ u2) by (apply Z.pow_pos_nonneg; lia).
    assert (0 < 2 ^ n) by (apply Z.pow_pos_nonneg; lia).
    assert (0 < 2 ^ kq) by (apply Z.pow_pos_nonneg; lia).
    assert (H3 : Z.abs ((2 * m2 * 2 ^ kq - 200 * Mq * 2 ^ u2) * 2 ^ 46)
                 <= 2 ^ kq * 2 ^ 46).
    { replace ((2 * m2 * 2 ^ kq - 200 * Mq * 2 ^ u2) * 2 ^ 46)
        with ((2 * m2 * 2 ^ n - 2 * (Mq * (100 * 2 ^ 46))) * 2 ^ u2)
        by (transitivity
              (2 * m2 * (2 ^ u2 * 2 ^ n) - 200 * Mq * 2 ^ u2 * 2 ^ 46);
            [ring | rewrite <- EH; ring]).
      rewrite Z.abs_mul, (Z.abs_eq (2 ^ u2)) by lia. rewrite EH.
      rewrite (Z.mul_comm (2 ^ u2)).
      apply Z.mul_le_mono_nonneg_r; [lia|done]. }
    rewrite Z.abs_mul, (Z.abs_eq (2 ^ 46)) in H3 by lia.
    apply Z.mul_le_mono_pos_r in H3; [done|lia].
  - rewrite FloatAxioms.mul_spec, Ex, E100.
    unfold FloatAxioms.SF64mul.
    change FloatOps.prec with 53. change FloatOps.emax with 1024.
    rewrite Emul. unfold norm.
    replace (- kq - 46 + n) with (- (kq + 46 - n)) by lia. done.
Qed.

Lemma abs_mul_le x y z : 0 <= z → Z.abs x <= y → Z.abs (x * z) <= y * z.
Proof.
  intros Hz Hx. rewrite Z.abs_mul, (Z.abs_eq z) by done.
  by apply Z.mul_le_mono_nonneg_r.
Qed.

(** The arithmetic of the two roundings. *)
Lemma two_roundings (c t m1 K Mq Kq m2 U : Z) :
  0 < c <= t → t < 2 ^ 53 →
  2 ^ 52 <= K → 2 ^ 52 <= Kq → 2 ^ 45 <= U → Kq <= 128 * U →
  Z.abs (2 * m1 * t - 2 * c * K) <= t →
  Mq * K = m1 * Kq →
  Z.abs (2 * m2 * Kq - 200 * Mq * U) <= Kq →
  m2 <= 100 * U
  ∧ (c < t → m2 < 100 * U)
  ∧ (c = t → m2 = 100 * U)
  ∧ Z.abs (m2 * t - 100 * c * U) * 2 ^ 44 <= U * t.
Proof.
  intros Hct Ht HK HKq HU HKqU HA HB HC.
  assert (HA' := proj1 (Z.abs_le _ _) HA).
  assert (HC' := proj1 (Z.abs_le _ _) HC).
  assert (Hm1 : m1 <= K) by (clear - Hct HK HA'; nia).
  assert (Hm1' : c < t → m1 < K) by (clear - Hct Ht HK HA'; intros; nia).
  assert (Hm1'' : c = t → m1 = K) by (clear - Hct HK HA'; intros; nia).
  assert (HMq : Mq <= Kq) by (clear - HK HKq HB Hm1; nia).
  assert (HMq' : c < t → Mq < Kq)
    by (intros Hlt; specialize (Hm1' Hlt); clear - HK HKq HB Hm1'; nia).
  assert (HMq'' : c = t → Mq = Kq)
    by (intros He; specialize (Hm1'' He); clear - HK HKq HB Hm1''; nia).
  split; [clear - HKq HU HC' HMq; nia|].
  split; [intros Hlt; specialize (HMq' Hlt); clear - HKq HU HKqU HC' HMq'; nia|].
  split; [intros He; specialize (HMq'' He); clear - HKq HU HC' HMq''; nia|].
  set (Z0 := m2 * t - 100 * c * U).
  assert (Hid : 2 * Z0 * K * Kq
                = (2 * m2 * Kq - 200 * Mq * U) * (t * K)
                  + (2 * m1 * t - 2 * c * K) * (100 * U * Kq)).
  { unfold Z0.
    transitivity (2 * m2 * Kq * t * K - 200 * U * t * (Mq * K)
                  + 200 * U * t * (m1 * Kq) - 200 * U * Kq * c * K);
      [rewrite HB|]; ring. }
  assert (Hb1 : Z.abs ((2 * m2 * Kq - 200 * Mq * U) * (t * K))
                <= Kq * (t * K))
    by (apply abs_mul_le; [apply Z.mul_nonneg_nonneg; lia|done]).
  assert (Hb2 : Z.abs ((2 * m1 * t - 2 * c * K) * (100 * U * Kq))
                <= t * (100 * U * Kq))
    by (apply abs_mul_le; [apply Z.mul_nonneg_nonneg; lia|done]).
  assert (Hb3 : Z.abs (2 * Z0 * K * Kq) <= (t * (K + 100 * U)) * Kq).
  { rewrite Hid. etransitivity; [apply Z.abs_triangle|].
    replace (t * (K + 100 * U) * Kq)
      with (Kq * (t * K) + t * (100 * U * Kq)) by ring.
    by apply Z.add_le_mono. }
  replace (2 * Z0 * K * Kq) with ((2 * K * Z0) * Kq) in Hb3 by ring.
  rewrite Z.abs_mul, (Z.abs_eq Kq) in Hb3 by lia.
  apply Z.mul_le_mono_pos_r in Hb3; [|lia].
  rewrite !Z.abs_mul, (Z.abs_eq 2), (Z.abs_eq K) in Hb3 by lia.
  assert (H1 : t * K * 2 ^ 45 <= t * K * U)
    by (apply Z.mul_le_mono_nonneg_l; [apply Z.mul_nonneg_nonneg; lia|done]).
  assert (H2 : 100 * U * t * 2 ^ 52 <= 100 * U * t * K)
    by (apply Z.mul_le_mono_nonneg_l;
        [repeat apply Z.mul_nonneg_nonneg; lia|done]).
  remember (Z.abs Z0) as z eqn:Hz.
  assert (H3 : 2 * K * (z * 2 ^ 44) <= 2 * K * (U * t)).
  { assert (Ht0 : 0 < t) by lia.
    clear - Hb3 H1 H2 Ht0 HK HU.
    assert (2 * K * z * 2 ^ 52 <= t * (K + 100 * U) * 2 ^ 52)
      by (apply Z.mul_le_mono_nonneg_r; lia).
    lia. }
  apply Z.mul_le_mono_pos_l in H3; [done|lia].
Qed.
Lemma quotient_le (c t m1 K : Z) :
  0 < c <= t → 0 < K → Z.abs (2 * m1 * t - 2 * c * K) <= t → m1 <= K.
Proof. intros Hct HK HA%Z.abs_le. nia. Qed.

(** The rate of [c] completed tasks out of [t], as binary64 computes it:
    a quotient rounded, then a product with 100 rounded. *)
Lemma rate_rounding c t :
  0 < c <= t → t < 2 ^ 53 →
  ∃ m2 u2,
    2 ^ 52 <= m2 <= 2 ^ 53 ∧ 45 <= u2 <= 105
    ∧ m2 <= 100 * 2 ^ u2
    ∧ (c < t → m2 < 100 * 2 ^ u2)
    ∧ (c = t → m2 = 100 * 2 ^ u2)
    ∧ Z.abs (m2 * t - 100 * c * 2 ^ u2) * 2 ^ 44 <= 2 ^ u2 * t
    ∧ FloatOps.Prim2SF
        (PrimFloat.mul (PrimFloat.div (np_float64 c) (np_float64 t))
           (np_float64 100))
      = norm m2 (- u2).
Proof.
  intros Hct Ht.
  destruct (div_rounding c t Hct Ht) as (m1 & k & Hm1 & Hk & Herr1 & Ediv).
  assert (HK : 2 ^ 52 <= 2 ^ k) by (apply Z.pow_le_mono_r; lia).
  assert (Hle : m1 <= 2 ^ k) by (apply (quotient_le c t); [done|lia|done]).
  assert (∃ Mq kq, 2 ^ 52 <= Mq < 2 ^ 53 ∧ 52 <= kq <= k
            ∧ Mq * 2 ^ k = m1 * 2 ^ kq
            ∧ norm m1 (- k) = S754_finite false (Z.to_pos Mq) (- kq))
    as (Mq & kq & HMq & Hkq & HB & En).
  { unfold norm. destruct (Z.ltb_spec m1 (2 ^ 53)) as [Hlt|Hge].
    - exists m1, k. split_and!; try lia; done.
    - assert (m1 = 2 ^ 53) as -> by lia.
      assert (53 <= k).
      { destruct (Z.le_gt_cases 53 k); [done|].
        assert (2 ^ k <= 2 ^ 52) by (apply Z.pow_le_mono_r; lia). lia. }
      exists (2 ^ 52), (k - 1). split_and!; try lia.
      + replace k with ((k - 1) + 1) at 1 by lia.
        rewrite Z.pow_add_r by lia. lia.
      + f_equal. lia. }
  rewrite En in Ediv.
  destruct (mul_100_rounding _ Mq kq Ediv HMq ltac:(lia))
    as (m2 & u2 & Hm2 & Hu2 & Herr2 & Emul).
  exists m2, u2.
  assert (HKq : 2 ^ 52 <= 2 ^ kq) by (apply Z.pow_le_mono_r; lia).
  assert (HU : 2 ^ 45 <= 2 ^ u2) by (apply Z.pow_le_mono_r; lia).
  assert (HKqU : 2 ^ kq <= 128 * 2 ^ u2).
  { change 128 with (2 ^ 7). rewrite <- Z.pow_add_r by lia.
    apply Z.pow_le_mono_r; lia. }
  destruct (two_roundings c t m1 (2 ^ k) Mq (2 ^ kq) m2 (2 ^ u2)
              Hct Ht HK HKq HU HKqU Herr1 HB Herr2) as (H1 & H2 & H3 & H4).
  split_and!; try done; lia.
Qed.

Local Open Scope Q_scope.

Lemma Qpower_2_neg (u : Z) :
  (0 <= u)%Z → 2 ^ (- u) * inject_Z (2 ^ u) == 1.
Proof.
  intros Hu. rewrite Qpower.Qpower_opp, Qpower.Zpower_Qpower by done.
  change (inject_Z 2) with 2. rewrite Qmult_comm. apply Qmult_inv_r.
  by apply Qpower.Qpower_not_0.
Qed.

(** The number a rounded mantissa [m] at exponent [- u] denotes. *)
Lemma f64_value_norm x m u :
  FloatOps.Prim2SF x = norm m (- u) →
  (2 ^ 52 <= m <= 2 ^ 53)%Z → (0 <= u)%Z →
  ∃ q, f64_value x = Some q ∧ q == m # Z.to_pos (2 ^ u).
Proof.
  intros Ex Hm Hu. unfold f64_value. rewrite Ex. unfold norm.
  assert (HP : (0 < 2 ^ u)%Z) by (apply Z.pow_pos_nonneg; lia).
  assert (EP : (m # Z.to_pos (2 ^ u)) * inject_Z (2 ^ u) == inject_Z m).
  { unfold Qeq, Qmult, inject_Z. cbn [Qnum Qden].
    rewrite Pos.mul_1_r, Z2Pos.id by done. lia. }
  assert (Hnz : ¬ inject_Z (2 ^ u) == 0).
  { unfold Qeq, inject_Z. cbn [Qnum Qden]. lia. }
  destruct (Z.ltb_spec m (2 ^ 53)) as [Hlt|Hge]; eexists; (split; [done|]).
  - rewrite Z2Pos.id by lia.
    apply (Qmult_inj_r _ _ (inject_Z (2 ^ u))); [done|].
    rewrite EP, <- Qmult_assoc, Qpower_2_neg by done. apply Qmult_1_r.
  - assert (m = 2 ^ 53)%Z as -> by lia.
    apply (Qmult_inj_r _ _ (inject_Z (2 ^ u))); [done|].
    rewrite EP, Qpower.Qpower_plus by done.
    set (a := inject_Z (Z.pos (Z.to_pos (2 ^ 52)))).
    transitivity (a * 2 ^ 1 * (2 ^ (- u) * inject_Z (2 ^ u))); [ring|].
    rewrite Qpower_2_neg by done. by vm_compute.
Qed.

Lemma exact_rate_frac c t :
  (0 < t)%Z →
  inject_Z c / inject_Z t * inject_Z 100 == (100 * c) # Z.to_pos t.
Proof.
  intros Ht. destruct t as [|p|p]; [lia| |lia].
  unfold Qeq, Qdiv, Qmult, Qinv, inject_Z. cbn. lia.
Qed.

(** The rate as the program computes it, for counts below 2^53: a finite
    number between 0 and 100, within 2^-44 of the exact rate, equal to
    100 exactly when nothing is incomplete and to 0 exactly when nothing
    is completed. *)
Lemma completion_rate_f64_spec c i :
  (0 <= c)%Z → (0 <= i)%Z → (0 < c + i < 2 ^ 53)%Z →
  ∃ q, f64_value (completion_rate_f64 c i) = Some q
       ∧ 0 <= q ∧ q <= inject_Z 100
       ∧ Qabs (q - inject_Z c / inject_Z (c + i) * inject_Z 100) <= 2 ^ (-44)
       ∧ (q == inject_Z 100 ↔ i = 0%Z)
       ∧ (q == 0 ↔ c = 0%Z).
Proof.
  intros Hc Hi Ht. unfold completion_rate_f64.
  destruct (Z.eqb_spec (c + i) 0) as [|_]; [lia|].
  set (t := (c + i)%Z) in *.
  destruct (Z.eq_dec c 0%Z) as [->|Hc0].
  - destruct (Prim2SF_np_float64 t ltac:(lia)) as (_ & _ & Et).
    exists 0. split.
    + unfold f64_value.
      rewrite FloatAxioms.mul_spec, FloatAxioms.div_spec, Et.
      reflexivity.
    + rewrite exact_rate_frac by lia. split_and!; try done.
      split; [|lia]. intros E. exfalso. revert E. by vm_compute.
  - destruct (rate_rounding c t ltac:(lia) ltac:(lia))
      as (m2 & u2 & Hm2 & Hu2 & Hle & Hlt & Heq & Herr & E).
    destruct (f64_value_norm _ m2 u2 E Hm2 ltac:(lia)) as (q & Eq & Hq).
    exists q. split; [done|].
    assert (HP : (0 < 2 ^ u2)%Z) by (apply Z.pow_pos_nonneg; lia).
    rewrite exact_rate_frac by lia. rewrite !Hq.
    change (2 ^ (-44)) with (1 # 17592186044416).
    unfold Qle, Qeq, Qminus, Qplus, Qopp, Qabs, inject_Z. cbn [Qnum Qden].
    rewrite ?Pos2Z.inj_mul, !Z2Pos.id by lia.
    change (Z.pos 17592186044416) with (2 ^ 44)%Z in *.
    split_and!; lia.
Qed.
End Binary64.

Lemma summarize_range_example start end_ d1 d2 :
  in_range start end_ d1 → in_range start end_ d2 → d1 ≠ d2 →
  summarize_range
    [mkrow d1 (lit "A") (lit "completed");
     mkrow d1 (lit "B") (lit "incomplete");
     mkrow d2 (lit "C") (lit "completed")] start end_
  = mkstats 2 2 1 3 (completion_rate_f64 2 1).
Proof.
  intros [H1 H1'] [H2 H2'] Hne.
  apply date_leb_le in H1, H1', H2, H2'.
  unfold summarize_range, range_rows, loc.
  cbn [fmap list_fmap zip_with r_date]. rewrite H1, H1', H2, H2'.
  cbn [andb zip]. rewrite !filter_cons. cbn [snd].
  rewrite !decide_True by done. rewrite filter_nil.
  cbn [fmap list_fmap fst r_date r_status].
  by rewrite unique_two_days.
Qed.

(** C1. [summarize_range] keeps exactly the rows whose date lies in the
    closed range; [completed] and [incomplete] count the kept rows with
    that status, [total] is their sum, and [days_tracked] is the number
    of distinct dates among the kept rows. For the rows (d1, "A",
    completed), (d1, "B", incomplete), (d2, "C", completed) and a range
    that covers both days, the result is 2, 1, 3, two days, and a rate
    within 0.01 of 66.67. *)
Theorem summarize_range_counts (df : list (row date)) (start end_ : date) :
  let kept := filter (λ r, in_range start end_ (r_date r)) df in
  let s := summarize_range df start end_ in
  range_rows df start end_ = kept
  ∧ completed s
    = Z.of_nat (length (filter (λ r, r_status r = lit "completed") kept))
  ∧ incomplete s
    = Z.of_nat (length (filter (λ r, r_status r = lit "incomplete") kept))
  ∧ total s = (completed s + incomplete s)%Z
  ∧ (∃ days, NoDup days
       ∧ (∀ d, d ∈ days ↔ ∃ r, r ∈ kept ∧ r_date r = d)
       ∧ days_tracked s = Z.of_nat (length days))
  ∧ ∀ d1 d2,
      in_range start end_ d1 → in_range start end_ d2 → d1 ≠ d2 →
      let s' := summarize_range
                  [mkrow d1 (lit "A") (lit "completed");
                   mkrow d1 (lit "B") (lit "incomplete");
                   mkrow d2 (lit "C") (lit "completed")] start end_ in
      completed s' = 2%Z ∧ incomplete s' = 1%Z ∧ total s' = 3%Z
      ∧ days_tracked s' = 2%Z
      ∧ (Qabs (inject_Z (completed s') / inject_Z (total s') * inject_Z 100
               - (6667 # 100)) <= 1 # 100)%Q
      ∧ ∃ q, f64_value (completion_rate s') = Some q
             ∧ (Qabs (q - (6667 # 100)) <= 1 # 100)%Q.
Proof.
  intros kept s.
  destruct (summarize_range_fields df start end_) as (Hc & Hi & Ht & Hd).
  split_and!; try done.
  - apply range_rows_filter.
  - exists (unique (r_date <$> kept)).
    destruct (unique_spec (r_date <$> kept)) as [Hnd Hin].
    split_and!; [done| |done].
    intros d. rewrite Hin, list_elem_of_fmap.
    split; [intros (r & -> & Hr) | intros (r & Hr & <-)]; eauto.
  - intros d1 d2 H1 H2 Hne s'. unfold s'.
    rewrite summarize_range_example by done.
    split_and!; try by vm_compute.
    eexists. split; [vm_compute; reflexivity | by vm_compute].
Qed.

Lemma summarize_range_counts_witness :
  let s := summarize_range
             [mkrow (mkdate 2024 1 1) (lit "A") (lit "completed");
              mkrow (mkdate 2024 1 1) (lit "B") (lit "incomplete");
              mkrow (mkdate 2024 1 3) (lit "C") (lit "completed")]
             (mkdate 2023 12 28) (mkdate 2024 1 3) in
  completed s = 2%Z ∧ incomplete s = 1%Z ∧ total s = 3%Z
  ∧ days_tracked s = 2%Z
  ∧ (Qabs (inject_Z (completed s) / inject_Z (total s) * inject_Z 100
           - (6667 # 100)) <= 1 # 100)%Q
  ∧ ∃ q, f64_value (completion_rate s) = Some q
         ∧ (Qabs (q - (6667 # 100)) <= 1 # 100)%Q.
Proof.
  pose proof (summarize_range_counts [] (mkdate 2023 12 28) (mkdate 2024 1 3))
    as H.
  cbv zeta in H. destruct H as (_ & _ & _ & _ & _ & H).
  apply (H (mkdate 2024 1 1) (mkdate 2024 1 3)); closed_fact.
Defined.

(** The rate of a summary, as a number: for fewer than 2^53 counted
    rows it is finite, lies between 0 and 100, is within 2^-44 of the
    exact rate, is 100 exactly when some task is completed and none is
    incomplete, and is 0 exactly when none is completed. *)
Lemma summarize_range_rate_value (df : list (row date)) (start end_ : date) :
  let s := summarize_range df start end_ in
  (total s < 2 ^ 53)%Z →
  ∃ q, f64_value (completion_rate s) = Some q
       ∧ (0 <= q)%Q ∧ (q <= inject_Z 100)%Q
       ∧ ((0 < completed s + incomplete s)%Z →
          (Qabs (q - inject_Z (completed s)
                     / inject_Z (completed s + incomplete s) * inject_Z 100)
           <= 2 ^ (-44))%Q)
       ∧ (q == inject_Z 100 ↔ (0 < completed s)%Z ∧ incomplete s = 0%Z)%Q
       ∧ (q == 0 ↔ completed s = 0%Z)%Q.
Proof.
  intros s. unfold s, summarize_range.
  cbn [completed incomplete total days_tracked completion_rate].
  set (sub := range_rows df start end_).
  set (c := series_sum _). set (i := series_sum _).
  assert (Hc : (0 <= c)%Z) by apply series_sum_nonneg.
  assert (Hi : (0 <= i)%Z) by apply series_sum_nonneg.
  intros Hlt. destruct (Z.eq_dec (c + i)%Z 0%Z) as [E|E].
  - exists 0%Q. unfold completion_rate_f64. rewrite (proj2 (Z.eqb_eq _ _) E).
    split; [reflexivity|]. split_and!; try done; try lia.
    + split; [intros H; by vm_compute in H|lia].
    + split; [lia|done].
  - destruct (Binary64.completion_rate_f64_spec c i Hc Hi ltac:(lia))
      as (q & Eq & H0 & H100 & Herr & Hfull & Hnone).
    exists q. split_and!; try done.
    rewrite Hfull. split; [intros ->; lia | by intros [_ ->]].
Qed.

(** C5. [summarize_range] never divides by zero: the quotient is taken
    only when the sum of the two counts is not 0, where binary64 gives a
    number (0 / 0 is not one). When no row lies in the range every count
    is 0 and the rate is exactly 0.0. In every case the counts are
    non-negative; the rate is 0.0 when completed + incomplete is 0 and
    otherwise the binary64 value of completed / (completed + incomplete)
    * 100, the quotient rounded and then the product rounded. For fewer
    than 2^53 counted rows the rate is a finite number between 0 and 100,
    within 2^-44 of the exact quotient times 100. *)
Theorem summarize_range_rate (df : list (row date)) (start end_ : date) :
  let s := summarize_range df start end_ in
  (range_rows df start end_ = [] → s = mkstats 0 0 0 0 PrimFloat.zero)
  ∧ (0 <= days_tracked s)%Z ∧ (0 <= completed s)%Z
  ∧ (0 <= incomplete s)%Z ∧ (0 <= total s)%Z
  ∧ ((completed s + incomplete s = 0)%Z → completion_rate s = PrimFloat.zero)
  ∧ ((0 < completed s + incomplete s)%Z →
     completion_rate s
     = PrimFloat.mul
         (PrimFloat.div (np_float64 (completed s))
            (np_float64 (completed s + incomplete s)))
         (np_float64 100))
  ∧ PrimFloat.is_nan (PrimFloat.div (np_float64 0) (np_float64 (0 + 0)))
    = true
  ∧ ((total s < 2 ^ 53)%Z →
     ∃ q, f64_value (completion_rate s) = Some q
          ∧ (0 <= q)%Q ∧ (q <= inject_Z 100)%Q
          ∧ ((0 < completed s + incomplete s)%Z →
             (Qabs (q - inject_Z (completed s)
                        / inject_Z (completed s + incomplete s)
                        * inject_Z 100)
              <= 2 ^ (-44))%Q)).
Proof.
  intros s.
  pose proof (summarize_range_rate_value df start end_) as Hvalue.
  fold s in Hvalue. cbv zeta in Hvalue. revert Hvalue.
  unfold s, summarize_range.
  cbn [completed incomplete total days_tracked completion_rate].
  set (sub := range_rows df start end_).
  set (c := series_sum _). set (i := series_sum _).
  assert (Hc : (0 <= c)%Z) by apply series_sum_nonneg.
  assert (Hi : (0 <= i)%Z) by apply series_sum_nonneg.
  intros Hvalue. split_and!; try done; try lia.
  - intros E. unfold c, i. rewrite E. reflexivity.
  - intros E. unfold completion_rate_f64. by rewrite (proj2 (Z.eqb_eq _ _) E).
  - intros Hpos. unfold completion_rate_f64.
    destruct (Z.eqb_spec (c + i) 0); [lia|done].
  - intros Hlt. destruct (Hvalue Hlt) as (q & Eq & H0 & H100 & Herr & _).
    by exists q.
Qed.

Lemma summarize_range_rate_witness :
  summarize_range [mkrow (mkdate 2023 11 30) (lit "A") (lit "completed")]
    (mkdate 2024 1 1) (mkdate 2024 1 7)
  = mkstats 0 0 0 0 PrimFloat.zero
  ∧ ∃ q, f64_value
           (completion_rate
              (summarize_range
                 [mkrow (mkdate 2024 1 2) (lit "A") (lit "completed");
                  mkrow (mkdate 2024 1 2) (lit "B") (lit "incomplete");
                  mkrow (mkdate 2024 1 3) (lit "C") (lit "incomplete")]
                 (mkdate 2024 1 1) (mkdate 2024 1 7)))
         = Some q
         ∧ (0 <= q)%Q ∧ (q <= inject_Z 100)%Q
         ∧ (Qabs (q - inject_Z 1 / inject_Z (1 + 2) * inject_Z 100)
            <= 2 ^ (-44))%Q.
Proof.
  split.
  - apply (summarize_range_rate
             [mkrow (mkdate 2023 11 30) (lit "A") (lit "completed")]
             (mkdate 2024 1 1) (mkdate 2024 1 7)). reflexivity.
  - pose proof (summarize_range_rate
                  [mkrow (mkdate 2024 1 2) (lit "A") (lit "completed");
                   mkrow (mkdate 2024 1 2) (lit "B") (lit "incomplete");
                   mkrow (mkdate 2024 1 3) (lit "C") (lit "incomplete")]
                  (mkdate 2024 1 1) (mkdate 2024 1 7)) as H.
    cbv zeta in H. destruct H as (_ & _ & _ & _ & _ & _ & _ & _ & H).
    destruct (H ltac:(reflexivity)) as (q & Eq & H0 & H100 & Herr).
    exists q. split_and!; try done. by apply Herr.
Defined.

(** * Further properties *)

(** ** What a record file can hold *)

Lemma Forall_lstrip (P : N → Prop) s : Forall P s → Forall P (lstrip s).
Proof.
  induction 1 as [|c s Hc Hs IH]; simpl; [constructor|].
  destruct (isspace c); [done | by constructor].
Qed.

Lemma Forall_strip (P : N → Prop) s : Forall P s → Forall P (strip s).
Proof.
  intros H. unfold strip, rstrip.
  by apply Forall_reverse, Forall_lstrip, Forall_reverse, Forall_lstrip.
Qed.

Lemma universal_newlines_no_CR s :
  Forall (λ c, c ≠ CR) (universal_newlines s).
Proof.
  cut (Forall (λ c, c ≠ CR) (universal_newlines s)
       ∧ ∀ a, Forall (λ c, c ≠ CR) (universal_newlines (a :: s)));
    [by intros [? _]|].
  induction s as [|b s [IH1 IH2]].
  - split; [constructor|]. intros a. cbn [universal_newlines].
    destruct (N.eqb_spec a CR); by repeat constructor.
  - split; [apply IH2|]. intros a. cbn [universal_newlines].
    destruct (N.eqb_spec a CR) as [->|Ha].
    + destruct (b =? LF); constructor; try done. apply IH2.
    + constructor; [done|]. apply IH2.
Qed.

Lemma readlines_lines s : Forall line_of_file (readlines s).
Proof.
  induction s as [|c s IH]; cbn [readlines]; [constructor|].
  destruct (N.eqb_spec c LF) as [->|Hc].
  - constructor; [|done]. exists []. split; [constructor | by right].
  - destruct (readlines s) as [|ln lns]; inversion_clear IH as [|? ? Hln Hlns].
    + repeat constructor. exists [c]. split; [by repeat constructor | by left].
    + constructor; [|done]. destruct Hln as (body & Hbody & Hln).
      exists (c :: body). split; [by constructor|].
      destruct Hln as [-> | ->]; [by left | by right].
Qed.

Lemma readlines_chars (P : N → Prop) s :
  Forall P s → Forall (Forall P) (readlines s).
Proof.
  induction 1 as [|c s Hc Hs IH]; cbn [readlines]; [constructor|].
  destruct (c =? LF); [by repeat constructor|].
  destruct (readlines s) as [|ln lns]; inversion_clear IH.
  - by repeat constructor.
  - constructor; [by constructor | done].
Qed.

Lemma stripped_lines_shape content :
  Forall (λ ln, single_line ln ∧ trimmed ln) (stripped_lines content).
Proof.
  unfold stripped_lines. apply Forall_fmap, Forall_forall. intros ln Hln.
  simpl. split; [|apply strip_trimmed].
  pose proof (readlines_lines (universal_newlines content)) as Hlines.
  pose proof (readlines_chars _ _ (universal_newlines_no_CR content)) as Hcr.
  rewrite Forall_forall in Hlines, Hcr.
  destruct (Hlines ln Hln) as (body & Hbody & Hshape).
  specialize (Hcr ln Hln).
  assert (Hb : Forall (λ c, c ≠ LF ∧ c ≠ CR) body).
  { apply Forall_forall. intros c Hc. split.
    - by eapply Forall_forall in Hbody.
    - eapply Forall_forall in Hcr; [exact Hcr|].
      destruct Hshape as [-> | ->]; [done | set_solver]. }
  unfold single_line. destruct Hshape as [-> | ->].
  - by apply Forall_strip.
  - rewrite strip_snoc_space by done. by apply Forall_strip.
Qed.

Lemma startswith_prefix s p : startswith s p = true → ∃ r, s = p ++ r.
Proof.
  revert s. induction p as [|a p IH]; intros s; [by exists s|].
  destruct s as [|b s]; [done|]. cbn [startswith].
  intros [Hab Hp]%andb_true_iff. apply N.eqb_eq in Hab as ->.
  destruct (IH s Hp) as [r ->]. by exists r.
Qed.

Lemma lstrip_keeps_last s c :
  last s = Some c → isspace c = false → last (lstrip s) = Some c.
Proof.
  intros Hlast Hc. induction s as [|a s IH]; [done|]. simpl.
  destruct (isspace a) eqn:Ha; [|done].
  destruct s as [|b s]; [|apply IH; by rewrite last_cons_cons in Hlast].
  simpl in Hlast. congruence.
Qed.

(** The text after the marker of a bullet line is a task name of the data
    model. *)
Lemma bullet_task_valid ln :
  single_line ln → trimmed ln → is_bullet ln = true →
  valid_task (strip (drop 2 ln)).
Proof.
  intros Hsl [_ Hlast] Hb. unfold is_bullet in Hb.
  destruct (startswith_prefix _ _ Hb) as [rest ->].
  change (lit "- " ++ rest) with (0x2D :: 0x20 :: rest) in *.
  change (drop 2 (0x2D :: 0x20 :: rest)) with rest.
  split_and!.
  - destruct (last rest) as [c|] eqn:Hc.
    + assert (Hns : isspace c = false).
      { apply Hlast. by rewrite !last_cons, Hc. }
      unfold strip. rewrite rstrip_id.
      * intros E. pose proof (lstrip_keeps_last rest c Hc Hns) as Hl.
        by rewrite E in Hl.
      * intros a Ha. rewrite (lstrip_keeps_last rest c Hc Hns) in Ha.
        congruence.
    + apply last_None in Hc as ->. by specialize (Hlast 0x20 eq_refl).
  - apply strip_idemp.
  - apply Forall_strip. by inversion_clear Hsl as [|? ? _ H]; inversion_clear H.
Qed.

Lemma parse_text_valid content :
  Forall valid_task (parse_text content).1
  ∧ Forall valid_task (parse_text content).2.
Proof.
  change (parse_text content)
    with (parsed (parse_lines parse_init (stripped_lines content))).
  apply parse_lines_tasks; [|constructor..].
  eapply Forall_impl; [apply stripped_lines_shape|].
  intros ln [Hsl Htr] Hb. by apply bullet_task_valid.
Qed.

Lemma parse_txt_day_valid fs path :
  Forall valid_task (parse_txt_day fs path).1
  ∧ Forall valid_task (parse_txt_day fs path).2.
Proof.
  unfold parse_txt_day. destruct (fs !! path); [apply parse_text_valid|].
  split; constructor.
Qed.

(** X1. Whatever a record file contains, the task names read from it are
    names of the data model (non-empty, trimmed, on one line); so a
    record that is written back from what was read reads the same
    again. *)
Theorem parse_txt_day_reads_valid_tasks (fs fs' : gmap str str)
    (path : str) (d : date) :
  let r := parse_txt_day fs path in
  Forall valid_task r.1 ∧ Forall valid_task r.2
  ∧ parse_txt_day (write_daily_file d r.1 r.2 fs') (daily_file_path d) = r.
Proof.
  intros r. destruct (parse_txt_day_valid fs path) as [H1 H2].
  split_and!; [done..|].
  rewrite write_then_parse_lists by done. by destruct r.
Qed.

(** ** Writing task names outside the data model *)

Lemma lstrip_blank s : lstrip s = [] ↔ blank s.
Proof.
  unfold blank. induction s as [|c s IH]; simpl; [by split; constructor|].
  destruct (isspace c) eqn:Hc.
  - rewrite IH, Forall_cons. tauto.
  - split; [done|]. intros [? _]%Forall_cons. congruence.
Qed.

Lemma blank_reverse s : blank (reverse s) ↔ blank s.
Proof.
  unfold blank. split; intros H.
  - rewrite <- (reverse_involutive s). by apply Forall_reverse.
  - by apply Forall_reverse.
Qed.

Lemma lstrip_split s : ∃ ws, blank ws ∧ s = ws ++ lstrip s.
Proof.
  induction s as [|c s (ws & Hws & IH)];
    [exists []; split; [constructor | done]|]. simpl.
  destruct (isspace c) eqn:Hc.
  - exists (c :: ws). split; [by constructor | by simpl; f_equal].
  - exists []. split; [constructor | done].
Qed.

Lemma rstrip_split s : ∃ ws, blank ws ∧ s = rstrip s ++ ws.
Proof.
  destruct (lstrip_split (reverse s)) as (ws & Hws & E).
  exists (reverse ws). split; [by apply blank_reverse|].
  unfold rstrip. rewrite <- reverse_app, <- E. by rewrite reverse_involutive.
Qed.

Lemma strip_split s :
  ∃ ws1 ws2, blank ws1 ∧ blank ws2 ∧ s = ws1 ++ strip s ++ ws2.
Proof.
  destruct (lstrip_split s) as (ws1 & H1 & E1).
  destruct (rstrip_split (lstrip s)) as (ws2 & H2 & E2).
  exists ws1, ws2. split_and!; [done..|]. unfold strip. by rewrite <- E2.
Qed.

Lemma lstrip_app_blank ws s : blank ws → lstrip (ws ++ s) = lstrip s.
Proof.
  induction 1 as [|c ws Hc _ IH]; [done|]. simpl. by rewrite Hc.
Qed.

Lemma rstrip_app_blank s ws : blank ws → rstrip (s ++ ws) = rstrip s.
Proof.
  intros Hws. unfold rstrip. rewrite reverse_app, lstrip_app_blank; [done|].
  by apply blank_reverse.
Qed.

Lemma rstrip_app_trimmed s core :
  core ≠ [] → trimmed core → rstrip (s ++ core) = s ++ core.
Proof.
  intros Hne [_ Hlast]. apply rstrip_id. intros c.
  rewrite last_app. destruct (last core) as [a|] eqn:Ha.
  - intros [= <-]. by apply Hlast.
  - by apply last_None in Ha.
Qed.

(** The line written for a task name, as the parsing loop sees it. *)
Lemma strip_bullet_any t :
  strip (lit "- " ++ t)
  = match strip t with
    | [] => lit "-"
    | _ :: _ => lit "- " ++ rstrip t
    end.
Proof.
  destruct (strip_split t) as (ws1 & ws2 & H1 & H2 & E).
  assert (Hl : lstrip (lit "- " ++ t) = lit "- " ++ t) by done.
  unfold strip at 1. rewrite Hl.
  destruct (strip t) as [|a core] eqn:Hcore.
  - rewrite E. cbn [app].
    change (lit "- " ++ ws1 ++ ws2) with (lit "-" ++ (0x20 :: ws1 ++ ws2)).
    rewrite rstrip_app_blank; [done|].
    constructor; [done|]. by apply Forall_app.
  - pose proof (strip_trimmed t) as Htr. rewrite Hcore in Htr.
    assert (Hr : rstrip t = ws1 ++ a :: core).
    { rewrite E at 1. rewrite (assoc_L (++)).
      rewrite rstrip_app_blank by done. by apply rstrip_app_trimmed. }
    rewrite Hr. rewrite E at 1.
    replace (lit "- " ++ ws1 ++ (a :: core) ++ ws2)
      with (((lit "- " ++ ws1) ++ a :: core) ++ ws2)
      by (by rewrite <- !(assoc_L (++))).
    rewrite rstrip_app_blank by done.
    rewrite rstrip_app_trimmed by done. by rewrite <- (assoc_L (++)).
Qed.

Lemma strip_rstrip t : strip (rstrip t) = strip t.
Proof.
  destruct (strip_split t) as (ws1 & ws2 & H1 & H2 & E).
  destruct (strip t) as [|a core] eqn:Hcore.
  - assert (Hb : blank t).
    { rewrite E. cbn [app]. by apply Forall_app. }
    assert (Hr : rstrip t = []).
    { unfold rstrip. apply blank_reverse, lstrip_blank in Hb. by rewrite Hb. }
    by rewrite Hr.
  - pose proof (strip_trimmed t) as Htr. rewrite Hcore in Htr.
    assert (Hr : rstrip t = ws1 ++ a :: core).
    { rewrite E at 1. rewrite (assoc_L (++)).
      rewrite rstrip_app_blank by done. by apply rstrip_app_trimmed. }
    rewrite Hr. unfold strip. rewrite lstrip_app_blank by done.
    rewrite lstrip_id by (destruct Htr as [Hh _]; exact Hh).
    apply rstrip_id. by destruct Htr.
Qed.

Lemma parse_step_bullet_any st t :
  parse_step st (strip (lit "- " ++ t))
  = add_tasks st (match strip t with [] => [] | _ :: _ => [strip t] end).
Proof.
  rewrite strip_bullet_any. unfold add_tasks.
  destruct (strip t) as [|a core] eqn:Hcore.
  - change (parse_step st (lit "-")) with st.
    destruct st as [[[]|] ? ?]; cbn; by rewrite ?app_nil_r.
  - change (lit "- " ++ rstrip t) with (0x2D :: 0x20 :: rstrip t).
    unfold parse_step, hdr_completed, hdr_incomplete.
    rewrite !startswith_head_ne by done.
    change (startswith (0x2D :: 0x20 :: rstrip t) (lit "- ")) with true.
    change (drop 2 (0x2D :: 0x20 :: rstrip t)) with (rstrip t).
    by rewrite strip_rstrip, Hcore.
Qed.

Lemma add_tasks_add_tasks st l1 l2 :
  add_tasks (add_tasks st l1) l2 = add_tasks st (l1 ++ l2).
Proof.
  unfold add_tasks. destruct st as [[[]|] c i]; cbn; by rewrite <- ?(assoc_L (++)).
Qed.

Lemma add_tasks_nil st : add_tasks st [] = st.
Proof.
  unfold add_tasks. destruct st as [[[]|] c i]; cbn; by rewrite ?app_nil_r.
Qed.

Lemma parse_bullets_any ts st :
  parse_lines st (strip <$> bullet_lines ts) = add_tasks st (read_back ts).
Proof.
  revert st. induction ts as [|t ts IH]; intros st.
  - by rewrite add_tasks_nil.
  - cbn [bullet_lines fmap list_fmap parse_lines fold_left].
    rewrite parse_step_bullet_any.
    change (fold_left parse_step ?l ?s) with (parse_lines s l).
    unfold bullet_lines in IH. rewrite IH, add_tasks_add_tasks. f_equal.
    unfold read_back. cbn [fmap list_fmap]. rewrite filter_cons.
    destruct (strip t); [by rewrite decide_False by auto|].
    by rewrite decide_True.
Qed.

Lemma parse_body_any ts st :
  parse_lines st (strip <$> body_lines ts) = add_tasks st (read_back ts).
Proof.
  destruct ts as [|t ts]; [|apply parse_bullets_any].
  by rewrite add_tasks_nil.
Qed.

Lemma body_lines_single_line_any ts :
  Forall single_line ts → Forall single_line (body_lines ts).
Proof.
  destruct ts as [|t ts]; intros H.
  - repeat constructor; by vm_compute.
  - unfold body_lines, bullet_lines. rewrite Forall_fmap.
    eapply Forall_impl; [exact H|]. intros u Hu. simpl. by repeat constructor.
Qed.

Lemma parse_text_daily_text_any d completed incomplete :
  Forall single_line completed → Forall single_line incomplete →
  parse_text (daily_text d completed incomplete)
  = (read_back completed, read_back incomplete).
Proof.
  intros Hc Hi. rewrite daily_text_lines.
  change (parse_text ?c) with (parsed (parse_lines parse_init (stripped_lines c))).
  rewrite stripped_lines_text.
  - unfold daily_lines. rewrite !fmap_cons, fmap_app, fmap_cons.
    cbn [parse_lines fold_left].
    rewrite (parse_step_unrecognized _ _ (strip_title_line d)).
    rewrite (parse_step_hdr_completed _ (strip (hdr_completed ++ lit ":")))
      by by vm_compute.
    change (fold_left parse_step ?l ?s) with (parse_lines s l).
    rewrite parse_lines_app, parse_body_any.
    cbn [parse_lines fold_left].
    rewrite (parse_step_hdr_incomplete _ (strip (hdr_incomplete ++ lit ":")))
      by by vm_compute.
    change (fold_left parse_step ?l ?s) with (parse_lines s l).
    by rewrite parse_body_any.
  - unfold daily_lines.
    apply Forall_cons; split; [apply title_line_single_line|].
    apply Forall_cons; split; [closed_fact|].
    apply Forall_app; split; [by apply body_lines_single_line_any|].
    apply Forall_cons; split; [closed_fact|].
    by apply body_lines_single_line_any.
Qed.

(** X2. For task names on one line, valid or not, the record written and
    read back holds the names stripped of surrounding whitespace, in
    order, and without those that were empty or only whitespace. *)
Theorem write_then_parse_normalises (fs : gmap str str) (d : date)
    (completed incomplete : list str) :
  Forall single_line completed → Forall single_line incomplete →
  parse_txt_day (write_daily_file d completed incomplete fs)
    (daily_file_path d)
  = (filter (λ t, t ≠ []) (strip <$> completed),
     filter (λ t, t ≠ []) (strip <$> incomplete)).
Proof.
  intros Hc Hi. unfold parse_txt_day, write_daily_file.
  rewrite lookup_insert_eq. by apply parse_text_daily_text_any.
Qed.

Lemma write_then_parse_normalises_witness :
  parse_txt_day
    (write_daily_file (mkdate 2024 1 3) [lit "  A "; lit " "; lit "B"]
       [lit ""] ∅)
    (daily_file_path (mkdate 2024 1 3))
  = ([lit "A"; lit "B"], []).
Proof. apply write_then_parse_normalises; closed_fact. Defined.

(** ** The record files of the directory *)

Lemma get_latest_task_file_spec fs before_date :
  match get_latest_task_file fs before_date with
  | Some p =>
      candidate fs before_date p
      ∧ ∀ n, candidate fs before_date n → str_le n p
  | None => ∀ n, ¬ candidate fs before_date n
  end.
Proof.
  unfold get_latest_task_file.
  set (l := match before_date with Some _ => _ | None => _ end).
  assert (Hl : ∀ n, n ∈ l ↔ candidate fs before_date n).
  { intros n. unfold l, candidate, daily_file_path.
    destruct before_date;
      rewrite !list_elem_of_filter, elem_of_sorted, elem_of_glob_txt; tauto. }
  assert (Hs : StronglySorted str_le l).
  { unfold l. destruct before_date;
      repeat apply StronglySorted_filter; apply sorted_StronglySorted. }
  destruct (last l) as [p|] eqn:E.
  - destruct (last_StronglySorted l p Hs E) as [Hp Hmax].
    split; [by apply Hl|]. intros n Hn. by apply Hmax, Hl.
  - apply last_None in E. intros n Hn%Hl. rewrite E in Hn.
    by apply elem_of_nil in Hn.
Qed.

(** The file returned is determined by the candidates and their order. *)
Lemma get_latest_task_file_is fs before_date p :
  candidate fs before_date p →
  (∀ n, candidate fs before_date n → str_le n p) →
  get_latest_task_file fs before_date = Some p.
Proof.
  intros Hp Hmax. pose proof (get_latest_task_file_spec fs before_date) as H.
  destruct (get_latest_task_file fs before_date) as [q|].
  - destruct H as [Hq Hqmax]. f_equal.
    apply str_le_antisymm; [by apply Hmax | by apply Hqmax].
  - by destruct (H p).
Qed.

Lemma get_latest_task_file_ext fs fs' before_date :
  (∀ n, candidate fs before_date n ↔ candidate fs' before_date n) →
  get_latest_task_file fs before_date = get_latest_task_file fs' before_date.
Proof.
  intros Hext. pose proof (get_latest_task_file_spec fs before_date) as H.
  destruct (get_latest_task_file fs before_date) as [p|].
  - destruct H as [Hp Hmax]. symmetry. apply get_latest_task_file_is.
    + by apply Hext.
    + intros n Hn. by apply Hmax, Hext.
  - pose proof (get_latest_task_file_spec fs' before_date) as H'.
    destruct (get_latest_task_file fs' before_date) as [q|]; [|done].
    destruct H' as [Hq _]. by apply Hext, H in Hq.
Qed.

Lemma str_lt_irrefl a : ¬ str_lt a a.
Proof. intros H%str_lt_not_le. apply H, str_le_refl. Qed.

Lemma date_lt_total a b : a ≠ b → date_lt a b ∨ date_lt b a.
Proof.
  intros Hne. rewrite !date_lt_not_le. unfold date_le.
  destruct a as [ya ma da], b as [yb mb db]. cbn [year month day].
  assert (ya ≠ yb ∨ ma ≠ mb ∨ da ≠ db) by
    (destruct (decide (ya = yb)), (decide (ma = mb)), (decide (da = db));
     subst; tauto).
  lia.
Qed.

(** Different days have different record files. *)
Lemma two_digits_inj n m :
  n < 100 → m < 100 →
  digit (n / 10) = digit (m / 10) → digit n = digit m → n = m.
Proof. unfold digit. intros. euclid. Qed.

Lemma daily_file_path_inj a b :
  valid_date a → valid_date b → daily_file_path a = daily_file_path b → a = b.
Proof.
  intros (_ & Ha2 & Ha3) (_ & Hb2 & Hb3) E.
  unfold daily_file_path in E. apply app_inv_tail in E.
  unfold date_str in E. apply app_inj_2 in E as [Ey Erest]; [|done].
  apply lit_inj, (inj pretty) in Ey.
  change (lit "-") with [0x2D] in Erest. cbn [app] in Erest.
  injection Erest as Em1 Em2 Ed1 Ed2.
  destruct a as [ya ma da], b as [yb mb db]. cbn [year month day] in *.
  f_equal; [done|by apply two_digits_inj..].
Qed.

(** An entry that is not a record file does not count. *)
Lemma candidate_insert_other fs before_date n v m :
  ¬ matches_txt n ∨ n ∈ [WEEKLY_REPORT; MONTHLY_REPORT] →
  candidate (<[n := v]> fs) before_date m ↔ candidate fs before_date m.
Proof.
  intros Hn. unfold candidate. destruct (decide (n = m)) as [->|Hne].
  - tauto.
  - by rewrite lookup_insert_ne.
Qed.

Lemma load_carry_over_tasks_insert_other fs today n v :
  ¬ matches_txt n ∨ n ∈ [WEEKLY_REPORT; MONTHLY_REPORT] →
  load_carry_over_tasks (<[n := v]> fs) today = load_carry_over_tasks fs today.
Proof.
  intros Hn. unfold load_carry_over_tasks.
  rewrite (get_latest_task_file_ext (<[n := v]> fs) fs)
    by (intros m; by apply candidate_insert_other).
  pose proof (get_latest_task_file_spec fs (Some today)) as H.
  destruct (get_latest_task_file fs (Some today)) as [p|]; [|done].
  destruct H as [(_ & Hm & Hr & _) _].
  rewrite parse_txt_day_insert_ne; [done|]. intros ->. tauto.
Qed.

(** X3. There is one record per day: saving a day leaves the records of
    all other days and the two report files as they are, and a second
    save of the same day replaces the first. *)
Theorem write_daily_file_one_record_per_day (fs : gmap str str)
    (d d' : date) (c i c' i' : list str) :
  valid_date d → valid_date d' → d ≠ d' →
  write_daily_file d c i fs !! daily_file_path d' = fs !! daily_file_path d'
  ∧ parse_txt_day (write_daily_file d c i fs) (daily_file_path d')
    = parse_txt_day fs (daily_file_path d')
  ∧ write_daily_file d c i fs !! WEEKLY_REPORT = fs !! WEEKLY_REPORT
  ∧ write_daily_file d c i fs !! MONTHLY_REPORT = fs !! MONTHLY_REPORT
  ∧ write_daily_file d c' i' (write_daily_file d c i fs)
    = write_daily_file d c' i' fs.
Proof.
  intros Hd Hd' Hne.
  assert (Hp : daily_file_path d ≠ daily_file_path d')
    by (intros E; by apply Hne, daily_file_path_inj).
  destruct (daily_file_path_record d) as [_ Hr].
  unfold write_daily_file. split_and!.
  - by rewrite lookup_insert_ne.
  - by apply parse_txt_day_insert_ne.
  - rewrite lookup_insert_ne; [done|]. intros E. apply Hr. rewrite E.
    apply list_elem_of_here.
  - rewrite lookup_insert_ne; [done|]. intros E. apply Hr. rewrite E.
    apply list_elem_of_further, list_elem_of_here.
  - apply insert_insert_eq.
Qed.

Lemma write_daily_file_one_record_per_day_witness :
  parse_txt_day
    (write_daily_file (mkdate 2024 1 3) [lit "A"] []
       (write_daily_file (mkdate 2024 1 1) [] [lit "X"] ∅))
    (daily_file_path (mkdate 2024 1 1))
  = parse_txt_day (write_daily_file (mkdate 2024 1 1) [] [lit "X"] ∅)
      (daily_file_path (mkdate 2024 1 1)).
Proof.
  apply (write_daily_file_one_record_per_day _ (mkdate 2024 1 3)
           (mkdate 2024 1 1) [lit "A"] [] [] []); by vm_compute.
Defined.



(** X5. Without a cutoff date, [get_latest_task_file] returns the record
    file with the greatest name, never a report file, and nothing when
    the directory has no record file; among the records of days from
    the year 1000 on it is the record of the latest day, and its name
    is never smaller than that of the file returned for a cutoff. *)
Theorem get_latest_task_file_no_cutoff (fs : gmap str str) :
  match get_latest_task_file fs None with
  | Some p =>
      is_Some (fs !! p) ∧ matches_txt p
      ∧ (p ∉ [WEEKLY_REPORT; MONTHLY_REPORT])
      ∧ (∀ n, candidate fs None n → str_le n p)
      ∧ (∀ today q, get_latest_task_file fs (Some today) = Some q →
                    str_le q p)
      ∧ ∀ d d', p = daily_file_path d →
                four_digit_year d → valid_date d →
                four_digit_year d' → valid_date d' →
                is_Some (fs !! daily_file_path d') → date_le d' d
  | None =>
      (∀ n, ¬ candidate fs None n)
      ∧ ∀ today, get_latest_task_file fs (Some today) = None
  end.
Proof.
  pose proof (get_latest_task_file_spec fs None) as H.
  destruct (get_latest_task_file fs None) as [p|].
  - destruct H as [(Hp & Hm & Hr & _) Hmax]. split_and!; try done.
    + intros today q Hq.
      pose proof (get_latest_task_file_spec fs (Some today)) as H.
      rewrite Hq in H. destruct H as [(? & ? & ? & _) _]. by apply Hmax.
    + intros d d' -> Hyd Hd Hyd' Hd' Hfile.
      destruct (daily_file_path_record d') as [Hm' Hr'].
      assert (Hle : str_le (daily_file_path d') (daily_file_path d))
        by by apply Hmax.
      destruct (decide (date_le d' d)) as [|Hn]; [done|].
      apply date_lt_not_le, daily_file_path_lt, str_lt_not_le in Hn; done.
  - split; [done|]. intros today.
    pose proof (get_latest_task_file_spec fs (Some today)) as H'.
    destruct (get_latest_task_file fs (Some today)) as [q|]; [|done].
    destruct H' as [(? & ? & ? & _) _]. by destruct (H q).
Qed.

(** ** Text reports *)

Lemma save_text_report_lookup_ne (format_2f : PrimFloat.float → str) (path title : str)
    (stats : range_stats) (start end_ : date) (fs : gmap str str) (q : str) :
  q ≠ path →
  save_text_report format_2f path title stats start end_ fs !! q = fs !! q.
Proof. intros Hq. unfold save_text_report. by rewrite lookup_insert_ne. Qed.

(** X6. Writing a weekly or monthly report changes nothing for the daily
    records: the file [get_latest_task_file] returns, the carry-over of
    every day and what every daily record reads as stay the same. *)
Theorem save_text_report_keeps_records (format_2f : PrimFloat.float → str)
    (path title : str) (stats : range_stats) (start end_ : date)
    (fs : gmap str str) :
  path ∈ [WEEKLY_REPORT; MONTHLY_REPORT] →
  let fs' := save_text_report format_2f path title stats start end_ fs in
  (∀ before_date,
     get_latest_task_file fs' before_date
     = get_latest_task_file fs before_date)
  ∧ (∀ today, load_carry_over_tasks fs' today = load_carry_over_tasks fs today)
  ∧ (∀ d, parse_txt_day fs' (daily_file_path d)
          = parse_txt_day fs (daily_file_path d)).
Proof.
  intros Hpath fs'. unfold fs', save_text_report. split_and!.
  - intros bd. apply get_latest_task_file_ext. intros n.
    apply candidate_insert_other. by right.
  - intros today. apply load_carry_over_tasks_insert_other. by right.
  - intros d. apply parse_txt_day_insert_ne. intros ->.
    by destruct (daily_file_path_record d) as [_ Hr].
Qed.

Lemma save_text_report_keeps_records_witness :
  let fs := write_daily_file (mkdate 2024 1 1) [] [lit "X"] ∅ in
  load_carry_over_tasks
    (save_text_report (λ _, lit "0.00") WEEKLY_REPORT (lit "Weekly Report")
       (mkstats 0 0 0 0 PrimFloat.zero) (mkdate 2023 12 27) (mkdate 2024 1 2) fs)
    (mkdate 2024 1 2)
  = load_carry_over_tasks fs (mkdate 2024 1 2).
Proof.
  intros fs.
  apply (save_text_report_keeps_records (λ _, lit "0.00") WEEKLY_REPORT).
  apply list_elem_of_here.
Defined.

(** X7. A report is appended: the file keeps what it held, the new block
    comes after it and ends with the separator line; a second report
    follows the first, and no other file changes. *)
Theorem save_text_report_appends (format_2f : PrimFloat.float → str) (path : str)
    (title1 title2 : str) (stats1 stats2 : range_stats)
    (start1 end1 start2 end2 : date) (fs : gmap str str) :
  let old := default [] (fs !! path) in
  let block1 := report_block format_2f title1 stats1 start1 end1 in
  let block2 := report_block format_2f title2 stats2 start2 end2 in
  let fs1 := save_text_report format_2f path title1 stats1 start1 end1 fs in
  let fs2 := save_text_report format_2f path title2 stats2 start2 end2 fs1 in
  fs1 !! path = Some (old ++ block1)
  ∧ fs2 !! path = Some (old ++ block1 ++ block2)
  ∧ (∃ text, block1 = text ++ SEPARATOR)
  ∧ (∀ q, q ≠ path → fs2 !! q = fs !! q).
Proof.
  intros old block1 block2 fs1 fs2. unfold fs2, fs1. split_and!.
  - unfold save_text_report. by rewrite lookup_insert_eq.
  - unfold save_text_report. rewrite !lookup_insert_eq. simpl.
    by rewrite <- (assoc_L (++)).
  - by eexists.
  - intros q Hq. by rewrite !save_text_report_lookup_ne.
Qed.

Lemma save_text_report_appends_witness :
  save_text_report (λ _, lit "0.00") MONTHLY_REPORT (lit "Monthly Report")
    (mkstats 0 0 0 0 PrimFloat.zero) (mkdate 2024 1 1) (mkdate 2024 1 2)
    (save_text_report (λ _, lit "0.00") MONTHLY_REPORT (lit "Monthly Report")
       (mkstats 0 0 0 0 PrimFloat.zero) (mkdate 2024 1 1) (mkdate 2024 1 1)
       {[ WEEKLY_REPORT := lit "w" ]})
  !! WEEKLY_REPORT
  = Some (lit "w").
Proof.
  apply (save_text_report_appends (λ _, lit "0.00") MONTHLY_REPORT).
  by vm_compute.
Defined.

Lemma series_sum_zero {A} (P : A → Prop) `{!∀ x, Decision (P x)} l :
  series_sum ((λ x, bool_decide (P x)) <$> l) = 0%Z ↔ Forall (λ x, ¬ P x) l.
Proof.
  induction l as [|x l IH]; [by split; constructor|].
  cbn [fmap list_fmap series_sum foldr].
  fold (series_sum ((λ x, bool_decide (P x)) <$> l)).
  pose proof (series_sum_nonneg ((λ x, bool_decide (P x)) <$> l)).
  rewrite Forall_cons, <- IH. destruct (decide (P x)) as [HP|HP].
  - rewrite bool_decide_true by done. split; [lia | tauto].
  - rewrite bool_decide_false by done. split; [split; [done|lia] | intros [_ ?]; lia].
Qed.

(** X8. The report of a range is its title line followed either by the
    line "No tasks recorded in this period.", when no row of the range
    has the status completed or incomplete (also when rows with another
    status make [days_tracked] positive), or else by the four lines of
    figures: days tracked, total completed, total incomplete and the
    completion rate with its percent sign. *)
Theorem report_of_summary (format_2f : PrimFloat.float → str) (title : str)
    (df : list (row date)) (start end_ : date) :
  let stats := summarize_range df start end_ in
  let header :=
    [LF; BAR_CHART] ++ lit " " ++ title ++ lit " (" ++ isoformat start
    ++ lit " " ++ [RIGHT_ARROW] ++ lit " " ++ isoformat end_ ++ lit ") "
    ++ [BAR_CHART; LF] in
  let no_task := Forall (λ r, r_status r ≠ lit "completed"
                              ∧ r_status r ≠ lit "incomplete")
                   (range_rows df start end_) in
  (no_task
   ∧ report_lines format_2f title stats start end_
     = [header; lit "No tasks recorded in this period." ++ [LF]])
  ∨ (¬ no_task
     ∧ report_lines format_2f title stats start end_
       = [header;
          lit "Days tracked: " ++ int_str (days_tracked stats) ++ [LF];
          [CHECK_MARK] ++ lit " Total Completed: "
          ++ int_str (completed stats) ++ [LF];
          [CROSS_MARK] ++ lit " Total Incomplete: "
          ++ int_str (incomplete stats) ++ [LF];
          [CHART_UP] ++ lit " Completion Rate: "
          ++ format_2f (completion_rate stats) ++ lit "%" ++ [LF]]).
Proof.
  intros stats header no_task.
  assert (Htotal : (total stats = 0)%Z ↔ no_task).
  { unfold stats, no_task, summarize_range. cbn [total].
    set (sub := range_rows df start end_).
    pose proof (series_sum_nonneg
      ((λ r, bool_decide (r_status r = lit "completed")) <$> sub)) as Hc.
    pose proof (series_sum_nonneg
      ((λ r, bool_decide (r_status r = lit "incomplete")) <$> sub)) as Hi.
    pose proof (series_sum_zero
      (λ r : row date, r_status r = lit "completed") sub) as Hzc.
    pose proof (series_sum_zero
      (λ r : row date, r_status r = lit "incomplete") sub) as Hzi.
    cbv beta in Hzc, Hzi. rewrite Forall_and, <- Hzc, <- Hzi. lia. }
  unfold report_lines. fold header.
  destruct (Z.eqb_spec (total stats) 0) as [E|E].
  - left. split; [by apply Htotal|done].
  - right. split; [|done]. intros H. by apply Htotal in H.
Qed.

Lemma get_latest_task_file_no_cutoff_witness :
  let fs : gmap str str :=
    {[ lit "2024-01-01.txt" := lit "a"; lit "2024-01-03.txt" := lit "b";
       lit "weekly_report.txt" := lit "c" ]} in
  str_le (lit "2024-01-01.txt") (lit "2024-01-03.txt").
Proof.
  intros fs. pose proof (get_latest_task_file_no_cutoff fs) as H.
  assert (E : get_latest_task_file fs None = Some (lit "2024-01-03.txt"))
    by by vm_compute.
  rewrite E in H. destruct H as (_ & _ & _ & _ & H & _).
  apply (H (mkdate 2024 1 3)). by vm_compute.
Defined.

(** ** More on range statistics *)

Lemma date_le_trans a b c : date_le a b → date_le b c → date_le a c.
Proof. unfold date_le. lia. Qed.

Lemma unique_length_le s : (length (unique s) ≤ length s)%nat.
Proof.
  destruct (unique_spec s) as [Hnd Hin].
  apply submseteq_length, NoDup_submseteq; [done|]. intros x. by rewrite Hin.
Qed.

Lemma unique_length_mono s1 s2 :
  (∀ d, d ∈ s1 → d ∈ s2) → (length (unique s1) ≤ length (unique s2))%nat.
Proof.
  intros Hsub. destruct (unique_spec s1) as [Hnd1 Hin1].
  destruct (unique_spec s2) as [Hnd2 Hin2].
  apply submseteq_length, NoDup_submseteq; [done|].
  intros x. rewrite Hin1, Hin2. apply Hsub.
Qed.

Lemma unique_length_app s1 s2 :
  (length (unique (s1 ++ s2)) ≤ length (unique s1) + length (unique s2))%nat.
Proof.
  destruct (unique_spec (s1 ++ s2)) as [Hnd Hin].
  destruct (unique_spec s1) as [_ Hin1]. destruct (unique_spec s2) as [_ Hin2].
  rewrite <- length_app. apply submseteq_length, NoDup_submseteq; [done|].
  intros x. rewrite Hin, !elem_of_app, Hin1, Hin2. tauto.
Qed.

Lemma unique_nil_iff s : unique s = [] ↔ s = [].
Proof.
  destruct (unique_spec s) as [_ Hin]. split; [|by intros ->].
  intros E. destruct s as [|d s]; [done|].
  assert (H : d ∈ unique (d :: s)) by (apply Hin, list_elem_of_here).
  rewrite E in H. by apply elem_of_nil in H.
Qed.

(** Two properties that exclude each other are counted on different
    elements. *)
Lemma filter_two_length {A} (P Q : A → Prop)
    `{!∀ x, Decision (P x)} `{!∀ x, Decision (Q x)} (l : list A) :
  (∀ x, P x → Q x → False) →
  (length (filter P l) + length (filter Q l) ≤ length l)%nat
  ∧ ((length (filter P l) + length (filter Q l) = length l)%nat
     ↔ Forall (λ x, P x ∨ Q x) l).
Proof.
  intros Hdisj. induction l as [|x l [IH1 IH2]].
  - split; [done|]. split; [constructor | done].
  - rewrite !filter_cons, Forall_cons.
    destruct (decide (P x)) as [HP|HP], (decide (Q x)) as [HQ|HQ];
      cbn [length]; try (by destruct (Hdisj x)).
    + split; [lia|]. rewrite <- IH2. split; [intros; split; [tauto|lia] | lia].
    + split; [lia|]. rewrite <- IH2. split; [intros; split; [tauto|lia] | lia].
    + split; [lia|]. split; [lia | tauto].
Qed.

Lemma summarize_range_app_counts df1 df2 start end_ :
  let s1 := summarize_range df1 start end_ in
  let s2 := summarize_range df2 start end_ in
  let s := summarize_range (df1 ++ df2) start end_ in
  completed s = (completed s1 + completed s2)%Z
  ∧ incomplete s = (incomplete s1 + incomplete s2)%Z
  ∧ total s = (total s1 + total s2)%Z
  ∧ (days_tracked s1 <= days_tracked s)%Z
  ∧ (days_tracked s2 <= days_tracked s)%Z
  ∧ (days_tracked s <= days_tracked s1 + days_tracked s2)%Z.
Proof.
  intros s1 s2 s.
  destruct (summarize_range_fields df1 start end_) as (Hc1 & Hi1 & Ht1 & Hd1).
  destruct (summarize_range_fields df2 start end_) as (Hc2 & Hi2 & Ht2 & Hd2).
  destruct (summarize_range_fields (df1 ++ df2) start end_)
    as (Hc & Hi & Ht & Hd).
  fold s1 in Hc1, Hi1, Ht1, Hd1. fold s2 in Hc2, Hi2, Ht2, Hd2.
  fold s in Hc, Hi, Ht, Hd.
  rewrite filter_app in Hc, Hi, Hd. rewrite filter_app in Hc, Hi.
  rewrite length_app in Hc, Hi. rewrite fmap_app in Hd.
  set (k1 := filter (λ r, in_range start end_ (r_date r)) df1) in *.
  set (k2 := filter (λ r, in_range start end_ (r_date r)) df2) in *.
  pose proof (unique_length_app (r_date <$> k1) (r_date <$> k2)).
  pose proof (unique_length_mono (r_date <$> k1)
                ((r_date <$> k1) ++ (r_date <$> k2))) as Hm1.
  pose proof (unique_length_mono (r_date <$> k2)
                ((r_date <$> k1) ++ (r_date <$> k2))) as Hm2.
  specialize (Hm1 ltac:(intros d Hd'; apply elem_of_app; by left)).
  specialize (Hm2 ltac:(intros d Hd'; apply elem_of_app; by right)).
  lia.
Qed.

(** X9. The counts of a table made of two parts are the sums of the
    counts of the parts; the days tracked are at least those of each
    part and at most their sum. *)
Theorem summarize_range_app (df1 df2 : list (row date)) (start end_ : date) :
  let s1 := summarize_range df1 start end_ in
  let s2 := summarize_range df2 start end_ in
  let s := summarize_range (df1 ++ df2) start end_ in
  completed s = (completed s1 + completed s2)%Z
  ∧ incomplete s = (incomplete s1 + incomplete s2)%Z
  ∧ total s = (total s1 + total s2)%Z
  ∧ (days_tracked s1 <= days_tracked s)%Z
  ∧ (days_tracked s2 <= days_tracked s)%Z
  ∧ (days_tracked s <= days_tracked s1 + days_tracked s2)%Z.
Proof. apply summarize_range_app_counts. Qed.

(** X10. The total never exceeds the number of rows in the range, and
    equals it exactly when every such row has the status completed or
    incomplete; the days tracked never exceed the number of rows in the
    range and are 0 exactly when no row is in the range. *)
Theorem summarize_range_bounds (df : list (row date)) (start end_ : date) :
  let kept := range_rows df start end_ in
  let s := summarize_range df start end_ in
  (total s <= Z.of_nat (length kept))%Z
  ∧ (total s = Z.of_nat (length kept)
     ↔ Forall (λ r, r_status r = lit "completed"
                    ∨ r_status r = lit "incomplete") kept)
  ∧ (days_tracked s <= Z.of_nat (length kept))%Z
  ∧ (days_tracked s = 0%Z ↔ kept = []).
Proof.
  intros kept s.
  destruct (summarize_range_fields df start end_) as (Hc & Hi & Ht & Hd).
  fold s in Hc, Hi, Ht, Hd. unfold kept. rewrite range_rows_filter.
  set (k := filter (λ r, in_range start end_ (r_date r)) df) in *.
  destruct (filter_two_length
              (λ r : row date, r_status r = lit "completed")
              (λ r : row date, r_status r = lit "incomplete") k) as [Hle Heq].
  { intros r E1 E2. rewrite E1 in E2. by vm_compute in E2. }
  pose proof (unique_length_le (r_date <$> k)) as Hu.
  rewrite length_fmap in Hu.
  split_and!.
  - lia.
  - rewrite <- Heq. lia.
  - lia.
  - rewrite Hd. split.
    + intros E. assert (Hn : unique (r_date <$> k) = [])
        by (apply length_zero_iff_nil; lia).
      apply (proj1 (unique_nil_iff _)) in Hn. by apply fmap_nil_inv in Hn.
    + by intros ->.
Qed.

(** X11. A range whose end lies before its start holds no row: every
    figure is 0. *)
Theorem summarize_range_reversed (df : list (row date)) (start end_ : date) :
  date_lt end_ start →
  summarize_range df start end_ = mkstats 0 0 0 0 PrimFloat.zero.
Proof.
  intros Hlt. apply date_lt_not_le in Hlt.
  assert (E : range_rows df start end_ = []).
  { rewrite range_rows_filter. induction df as [|r df IH]; [done|].
    rewrite filter_cons_False; [done|].
    intros [H1 H2]. apply Hlt. by eapply date_le_trans. }
  unfold summarize_range. rewrite E. reflexivity.
Qed.

Lemma summarize_range_reversed_witness :
  summarize_range [mkrow (mkdate 2024 1 2) (lit "A") (lit "completed")]
    (mkdate 2024 1 3) (mkdate 2024 1 1)
  = mkstats 0 0 0 0 PrimFloat.zero.
Proof. apply summarize_range_reversed. closed_fact. Defined.

(** X12. The monthly figures are those of the month to date: the range
    from [month_start today] to [today] keeps exactly the rows of today's
    year and month up to today's day. *)
Theorem month_to_date_rows (df : list (row date)) (today : date) :
  Forall (λ r, 1 <= day (r_date r)) df →
  range_rows df (month_start today) today
  = filter (λ r, year (r_date r) = year today
                 ∧ month (r_date r) = month today
                 ∧ day (r_date r) <= day today) df.
Proof.
  intros Hdays. rewrite range_rows_filter.
  induction Hdays as [|r df Hr _ IH]; [done|].
  rewrite !filter_cons, IH.
  assert (in_range (month_start today) today (r_date r)
          ↔ year (r_date r) = year today ∧ month (r_date r) = month today
            ∧ day (r_date r) <= day today) as Hiff.
  { unfold in_range, date_le, month_start. cbn [year month day]. lia. }
  destruct (decide (in_range _ _ _)), (decide (_ ∧ _)); tauto.
Qed.

Lemma month_to_date_rows_witness :
  range_rows
    [mkrow (mkdate 2023 12 31) (lit "A") (lit "completed");
     mkrow (mkdate 2024 1 1) (lit "B") (lit "completed");
     mkrow (mkdate 2024 1 9) (lit "C") (lit "incomplete")]
    (month_start (mkdate 2024 1 8)) (mkdate 2024 1 8)
  = [mkrow (mkdate 2024 1 1) (lit "B") (lit "completed")].
Proof.
  rewrite month_to_date_rows; [reflexivity|].
  repeat constructor; by vm_compute.
Defined.

(** ** Saving and the statistics *)

Lemma filter_all {A} (P : A → Prop) `{!∀ x, Decision (P x)} (l : list A) :
  Forall P l → filter P l = l.
Proof.
  induction 1 as [|x l Hx _ IH]; [done|]. by rewrite filter_cons_True, IH.
Qed.

Lemma filter_none {A} (P : A → Prop) `{!∀ x, Decision (P x)} (l : list A) :
  Forall (λ x, ¬ P x) l → filter P l = [].
Proof.
  induction 1 as [|x l Hx _ IH]; [done|]. by rewrite filter_cons_False.
Qed.

(** The figures of the rows of one day with one status. *)
Lemma summarize_saved_rows d status tasks start end_ :
  in_range start end_ d →
  let s := summarize_range (saved_rows d status tasks) start end_ in
  completed s
  = (if decide (status = lit "completed") then Z.of_nat (length tasks) else 0)%Z
  ∧ incomplete s
    = (if decide (status = lit "incomplete") then Z.of_nat (length tasks)
       else 0)%Z.
Proof.
  intros Hd s.
  destruct (summarize_range_fields (saved_rows d status tasks) start end_)
    as (Hc & Hi & _ & _).
  fold s in Hc, Hi. rewrite Hc, Hi.
  rewrite (filter_all (λ r, in_range start end_ (r_date r)))
    by (unfold saved_rows; by apply Forall_fmap, Forall_true).
  split; case_decide as E.
  - rewrite filter_all; [by unfold saved_rows; rewrite length_fmap|].
    unfold saved_rows. by apply Forall_fmap, Forall_true.
  - rewrite filter_none; [done|].
    unfold saved_rows. by apply Forall_fmap, Forall_true.
  - rewrite filter_all; [by unfold saved_rows; rewrite length_fmap|].
    unfold saved_rows. by apply Forall_fmap, Forall_true.
  - rewrite filter_none; [done|].
    unfold saved_rows. by apply Forall_fmap, Forall_true.
Qed.

Lemma set_date_column_new_rows d completed incomplete :
  History.set_date_column (History.new_rows d completed incomplete)
    (replicate (length (History.new_rows d completed incomplete)) d)
  = saved_rows d (lit "completed") completed
    ++ saved_rows d (lit "incomplete") incomplete.
Proof.
  unfold History.set_date_column. rewrite zip_with_replicate_r_eq by done.
  unfold History.new_rows, saved_rows.
  rewrite fmap_app, <- !list_fmap_compose. done.
Qed.

Section HistoryPipeline.
Import History.
Context {csv : Type}.
Context (read_csv : csv → option (list (row str))).
Context (to_csv : list (row str) → csv).
Context (to_datetime : list str → option (list date)).

Local Abbreviation append_to_history := (append_to_history read_csv to_csv).
Local Abbreviation load_history :=
  (load_history read_csv to_csv to_datetime).
Local Abbreviation ledger_rows := (ledger_rows read_csv).
Local Abbreviation ensure_history_csv := (ensure_history_csv to_csv).

(** X13. Reading the history can be repeated: it creates a missing file
    with the header only, never changes an existing one, and a second
    reading returns the same table; initialising the file twice is the
    same as once. *)
Theorem load_history_repeatable (w : option csv) :
  (load_history w).2
  = Some (match w with Some c => c | None => to_csv [] end)
  ∧ load_history (load_history w).2 = load_history w
  ∧ ensure_history_csv (ensure_history_csv w).2 = ensure_history_csv w.
Proof.
  rewrite !load_history_run, !ensure_history_csv_run. by cbn [fst snd].
Qed.

(** X14. On a history file pandas cannot read, saving at least one task
    raises and leaves the file as it is, while reading the history still
    returns, with the empty table. *)
Theorem unreadable_history_file (d : date) (completed incomplete : list str)
    (c : csv) :
  read_csv c = None → completed ≠ [] ∨ incomplete ≠ [] →
  (∃ e, append_to_history d completed incomplete (Some c)
        = (Raised e, Some c))
  ∧ load_history (Some c) = (Returned [], Some c).
Proof.
  intros Hc Hne. split.
  - exists ParserError. apply append_to_history_unreadable; [done|].
    unfold new_rows. destruct Hne as [Hne|Hne].
    + by destruct completed.
    + destruct incomplete; [done|]. by destruct completed.
  - rewrite load_history_run. cbn. by rewrite Hc.
Qed.

(** X15. Saving a day adds its tasks to the figures: in every range that
    contains the day, the completed count read from the history grows by
    the number of completed tasks saved, the incomplete count by the
    number of incomplete ones, and the total by both. pandas is assumed
    to read back the tables it wrote and the dates written. *)
Theorem save_adds_to_statistics (d : date) (done todo : list str)
    (w : option csv) (old : list (row str)) (col : list date)
    (start end_ : date) :
  let new := new_rows d done todo in
  let w' := (append_to_history d done todo w).2 in
  let before := summarize_range (returned_table (load_history w)) start end_ in
  let after := summarize_range (returned_table (load_history w')) start end_ in
  ledger_rows w = Some old →
  read_csv (to_csv []) = Some [] →
  read_csv (to_csv (old ++ new)) = Some (old ++ new) →
  to_datetime (r_date <$> old) = Some col → length col = length old →
  to_datetime (r_date <$> (old ++ new))
  = Some (col ++ replicate (length new) d) →
  in_range start end_ d →
  completed after = (completed before + Z.of_nat (length done))%Z
  ∧ incomplete after = (incomplete before + Z.of_nat (length todo))%Z
  ∧ total after
    = (total before + Z.of_nat (length done)
       + Z.of_nat (length todo))%Z
  ∧ (days_tracked before <= days_tracked after <= days_tracked before + 1)%Z.
Proof.
  intros new w' before after Hold Hempty Hrt Hcol Hlen Hcol' Hd.
  assert (Hc : read_csv (match w with Some c => c | None => to_csv [] end)
               = Some old).
  { destruct w as [c|]; simpl in *; [done|]. rewrite Hempty. congruence. }
  assert (Hbefore : returned_table (load_history w) = set_date_column old col).
  { unfold returned_table. rewrite load_history_run. cbn [fst].
    by rewrite Hc, Hcol. }
  assert (Hw' : ledger_rows w' = Some (old ++ new)).
  { by apply (append_to_history_rows read_csv to_csv d done todo
                w old). }
  assert (Hafter : returned_table (load_history w')
                   = set_date_column old col
                     ++ saved_rows d (lit "completed") done
                     ++ saved_rows d (lit "incomplete") todo).
  { unfold returned_table. rewrite load_history_run. cbn [fst].
    assert (Hc' : read_csv (match w' with Some c => c | None => to_csv [] end)
                  = Some (old ++ new)).
    { destruct w' as [c|]; simpl in *; [done|].
      rewrite Hempty in *. congruence. }
    rewrite Hc', Hcol'. unfold set_date_column at 1.
    rewrite zip_with_app by done.
    f_equal. apply set_date_column_new_rows. }
  unfold before, after. rewrite Hbefore, Hafter.
  set (df0 := set_date_column old col).
  destruct (summarize_range_app_counts df0
    (saved_rows d (lit "completed") done
     ++ saved_rows d (lit "incomplete") todo) start end_)
    as (A1 & A2 & A3 & A4 & _ & A6).
  destruct (summarize_range_app_counts
    (saved_rows d (lit "completed") done)
    (saved_rows d (lit "incomplete") todo) start end_)
    as (B1 & B2 & B3 & _ & _ & B6).
  destruct (summarize_saved_rows d (lit "completed") done start end_ Hd)
    as [C1 C2].
  destruct (summarize_saved_rows d (lit "incomplete") todo start end_ Hd)
    as [D1 D2].
  rewrite decide_True in C1 by done. rewrite decide_False in C2 by done.
  rewrite decide_False in D1 by done. rewrite decide_True in D2 by done.
  assert (Hdays :
    (days_tracked (summarize_range
       (saved_rows d (lit "completed") done
        ++ saved_rows d (lit "incomplete") todo) start end_) <= 1)%Z).
  { unfold summarize_range. cbn [days_tracked].
    transitivity (Z.of_nat (length (unique [d]))); [|done].
    apply inj_le, unique_length_mono. intros x Hx.
    apply list_elem_of_fmap in Hx as (r & -> & Hr).
    rewrite range_rows_filter in Hr.
    apply list_elem_of_filter in Hr as [_ Hr].
    apply elem_of_app in Hr as [Hr|Hr];
      apply list_elem_of_fmap in Hr as (t & -> & _); apply list_elem_of_here. }
  assert (Ht : ∀ s, total s = total s) by done.
  pose proof (summarize_range_fields df0 start end_) as (_ & _ & T0 & _).
  pose proof (summarize_range_fields
    (df0 ++ saved_rows d (lit "completed") done
         ++ saved_rows d (lit "incomplete") todo) start end_)
    as (_ & _ & T1 & _).
  cbv zeta in *. lia.
Qed.
End HistoryPipeline.

Lemma unreadable_history_file_witness :
  History.load_history Table.read_csv Table.to_csv Table.to_datetime
    (Some Table.Unreadable)
  = (Returned [], Some Table.Unreadable).
Proof.
  apply (unreadable_history_file Table.read_csv Table.to_csv
           Table.to_datetime (mkdate 2024 1 3) [lit "A"] []);
    [reflexivity | by left].
Defined.

Lemma save_adds_to_statistics_witness :
  let w := (History.append_to_history Table.read_csv Table.to_csv
              (mkdate 2024 1 3) [lit "A"; lit "B"] [lit "C"] None).2 in
  completed
    (summarize_range
       (returned_table
          (History.load_history Table.read_csv Table.to_csv
             Table.to_datetime w))
       (mkdate 2024 1 1) (mkdate 2024 1 7))
  = (completed
       (summarize_range
          (returned_table
             (History.load_history Table.read_csv Table.to_csv
                Table.to_datetime None))
          (mkdate 2024 1 1) (mkdate 2024 1 7))
     + Z.of_nat (length [lit "A"; lit "B"]))%Z.
Proof.
  intros w.
  apply (save_adds_to_statistics Table.read_csv Table.to_csv Table.to_datetime
           (mkdate 2024 1 3) [lit "A"; lit "B"] [lit "C"] None [] []
           (mkdate 2024 1 1) (mkdate 2024 1 7));
    first [reflexivity | closed_fact].
Defined.

(** ** The checklist *)

Lemma is_linebreak_isspace c : is_linebreak c = true → isspace c = true.
Proof.
  unfold is_linebreak, isspace, LF, CR. intros H.
  repeat (apply orb_prop in H as [H|H]); apply N.eqb_eq in H as ->; done.
Qed.

Lemma splitlines_lines_both s :
  Forall (Forall (λ c, is_linebreak c = false)) (splitlines s)
  ∧ ∀ a, Forall (Forall (λ c, is_linebreak c = false)) (splitlines (a :: s)).
Proof.
  induction s as [|b s [IH1 IH2]].
  - split; [constructor|]. intros a. simpl.
    destruct (is_linebreak a) eqn:Ea.
    + destruct (a =? CR); repeat constructor.
    + repeat constructor. done.
  - split; [apply IH2|]. intros a.
    change (splitlines (a :: b :: s)) with
      (if is_linebreak a then
         [] :: (if a =? CR then
                  if b =? LF then splitlines s else splitlines (b :: s)
                else splitlines (b :: s))
       else match splitlines (b :: s) with
            | [] => [[a]]
            | ln :: lns => (a :: ln) :: lns
            end).
    destruct (is_linebreak a) eqn:Ea.
    + constructor; [constructor|].
      destruct (a =? CR); [destruct (b =? LF)|]; auto.
    + specialize (IH2 b). destruct (splitlines (b :: s)) as [|ln lns].
      * repeat constructor. done.
      * inversion IH2; subst. constructor; [by constructor|done].
Qed.

Lemma splitlines_single_line s : Forall single_line (splitlines s).
Proof.
  eapply Forall_impl; [apply splitlines_lines_both|].
  intros ln Hln. eapply Forall_impl; [exact Hln|].
  intros c Hc. cbv beta in Hc.
  split; intros ->; discriminate Hc.
Qed.

Lemma new_tasks_valid text : Forall valid_task (new_tasks text).
Proof.
  unfold new_tasks.
  assert (H : Forall single_line
                (match text with [] => [] | _ :: _ => splitlines text end)).
  { destruct text; [constructor|apply splitlines_single_line]. }
  revert H. generalize (match text with [] => [] | _ :: _ => splitlines text end).
  intros lns H. apply Forall_fmap, Forall_forall. intros ln Hln.
  apply list_elem_of_filter in Hln as [Hne Hln].
  rewrite Forall_forall in H. specialize (H _ Hln).
  split; [done|]. split; [apply strip_idemp|].
  by apply Forall_strip.
Qed.

Lemma dict_set_fresh (d : list (str * bool)) k v :
  k ∉ d.*1 → dict_set d k v = d ++ [(k, v)].
Proof.
  induction d as [|[k' v'] d IH]; [done|]. simpl. intros Hk.
  apply not_elem_of_cons in Hk as [Hne Hk].
  rewrite decide_False by done. by rewrite IH.
Qed.

Lemma completed_flags_from checkbox tasks (acc : list (str * bool)) :
  NoDup (acc.*1 ++ tasks) →
  fold_left (λ d t, dict_set d t (checkbox t)) tasks acc
  = acc ++ ((λ t, (t, checkbox t)) <$> tasks).
Proof.
  revert acc. induction tasks as [|t tasks IH]; intros acc Hnd; simpl.
  - by rewrite app_nil_r.
  - apply NoDup_app in Hnd as (Ha & Hdisj & Ht).
    rewrite dict_set_fresh.
    2:{ intros Hin. apply (Hdisj t Hin). apply list_elem_of_here. }
    rewrite IH; [by rewrite <- (assoc_L (++))|].
    rewrite fmap_app. simpl. rewrite <- (assoc_L (++)). simpl.
    apply NoDup_app. split; [done|]. split; [|done]. apply Hdisj.
Qed.

Lemma completed_flags_NoDup checkbox tasks :
  NoDup tasks →
  completed_flags checkbox tasks = (λ t, (t, checkbox t)) <$> tasks.
Proof. intros Hnd. by apply (completed_flags_from checkbox tasks []). Qed.

Lemma checked_tasks_filter checkbox tasks :
  NoDup tasks →
  checked_tasks checkbox tasks = filter (λ t, Is_true (checkbox t)) tasks
  ∧ unchecked_tasks checkbox tasks
    = filter (λ t, ¬ Is_true (checkbox t)) tasks.
Proof.
  intros Hnd. unfold checked_tasks, unchecked_tasks.
  rewrite completed_flags_NoDup by done. clear Hnd.
  split; induction tasks as [|t tasks IH]; try done;
    rewrite fmap_cons, !filter_cons; cbn [snd];
    destruct (checkbox t) eqn:E; cbn [Is_true];
    repeat first [rewrite decide_True by tauto | rewrite decide_False by tauto];
    rewrite ?fmap_cons; cbn [fst]; by rewrite IH.
Qed.

Lemma filter_partition_length {A} (P : A → Prop) `{!∀ x, Decision (P x)}
    (l : list A) :
  filter P l ++ filter (λ x, ¬ P x) l ≡ₚ l.
Proof.
  induction l as [|x l IH]; [done|]. rewrite !filter_cons.
  destruct (decide (P x)).
  - rewrite decide_False by tauto. simpl. by rewrite IH.
  - rewrite decide_True by done. rewrite <- Permutation_middle. by rewrite IH.
Qed.

Lemma Forall_filter_keep {A} (P Q : A → Prop) `{!∀ x, Decision (Q x)}
    (l : list A) :
  Forall P l → Forall P (filter Q l).
Proof.
  rewrite !Forall_forall. intros HP x Hx.
  apply list_elem_of_filter in Hx as [_ Hx]. auto.
Qed.

(** X16. Every task of the checklist, carried over or typed, is a valid
    task name: not empty, trimmed and on one line, whatever the text area
    and the data directory hold. So any two lists of them written as a
    day's record are read back as they were. *)
Theorem checklist_tasks_valid (fs : gmap str str) (selected_date : date)
    (show_carry_over : bool) (new_tasks_text : str) :
  let tasks := all_tasks fs selected_date show_carry_over new_tasks_text in
  Forall valid_task (new_tasks new_tasks_text)
  ∧ Forall valid_task tasks
  ∧ ∀ (d : date) (cs us : list str) (fs' : gmap str str),
      cs ⊆ tasks → us ⊆ tasks →
      parse_txt_day (write_daily_file d cs us fs') (daily_file_path d)
      = (cs, us).
Proof.
  intros tasks.
  assert (Hv : Forall valid_task tasks).
  { unfold tasks, all_tasks. apply Forall_app. split.
    - destruct show_carry_over; [|constructor].
      unfold load_carry_over_tasks.
      destruct (get_latest_task_file fs (Some selected_date)); [|constructor].
      apply parse_txt_day_valid.
    - apply new_tasks_valid. }
  split; [apply new_tasks_valid|]. split; [done|].
  intros d cs us fs' Hcs Hus. rewrite Forall_forall in Hv.
  apply write_then_parse_lists; apply Forall_forall; auto.
Qed.

(** X17. With no task listed twice, the checked tasks are the tasks whose
    box is ticked and the unchecked ones the others, each in the order of
    the checklist; together they are the checklist, and no task is in
    both. *)
Theorem checklist_partition (checkbox : str → bool) (tasks : list str) :
  NoDup tasks →
  checked_tasks checkbox tasks = filter (λ t, Is_true (checkbox t)) tasks
  ∧ unchecked_tasks checkbox tasks
    = filter (λ t, ¬ Is_true (checkbox t)) tasks
  ∧ checked_tasks checkbox tasks ++ unchecked_tasks checkbox tasks ≡ₚ tasks
  ∧ ∀ t, t ∈ checked_tasks checkbox tasks →
         t ∉ unchecked_tasks checkbox tasks.
Proof.
  intros Hnd. destruct (checked_tasks_filter checkbox tasks Hnd) as [-> ->].
  split; [done|]. split; [done|]. split.
  - apply filter_partition_length.
  - intros t Ht Hu. apply list_elem_of_filter in Ht as [Ht _].
    apply list_elem_of_filter in Hu as [Hu _]. done.
Qed.

Lemma checklist_partition_witness :
  let checkbox := λ t : str, bool_decide (t = lit "B") in
  checked_tasks checkbox [lit "A"; lit "B"; lit "C"]
  = filter (λ t, Is_true (checkbox t)) [lit "A"; lit "B"; lit "C"].
Proof.
  intros checkbox.
  apply (checklist_partition checkbox [lit "A"; lit "B"; lit "C"]).
  closed_fact.
Defined.

Section SaveDay.
Context (checkbox : str → bool).
Context {csv : Type}.
Context (read_csv : csv → option (list (row str))).
Context (to_csv : list (row str) → csv).

Local Abbreviation save_clicked := (save_day checkbox read_csv to_csv).
Local Abbreviation ledger_rows := (History.ledger_rows read_csv).

(** X18. "Save Day" on a checklist of distinct valid tasks, with a
    history file from which pandas reads some rows (an absent file is
    first created with the header only): the call returns, the day's
    record then reads as the ticked tasks and the others, the history
    file is rewritten as pandas' rendering of the rows read followed by
    one row (day, task, completed) per ticked task and then one row
    (day, task, incomplete) per other task, and no other file of the
    directory changes. *)
Theorem save_day_saves (selected_date : date) (tasks : list str)
    (fs : gmap str str) (w : option csv) (old : list (row str)) :
  let done := filter (λ t, Is_true (checkbox t)) tasks in
  let todo := filter (λ t, ¬ Is_true (checkbox t)) tasks in
  let new :=
    ((λ t, mkrow (date_str selected_date) t (lit "completed")) <$> done)
    ++ ((λ t, mkrow (date_str selected_date) t (lit "incomplete"))
          <$> todo) in
  let c := match w with Some c => c | None => to_csv [] end in
  let r := save_clicked selected_date tasks fs w in
  tasks ≠ [] → NoDup tasks → Forall valid_task tasks →
  read_csv c = Some old →
  r.1 = Returned ()
  ∧ parse_txt_day r.2.1 (daily_file_path selected_date) = (done, todo)
  ∧ r.2.2 = Some (to_csv (old ++ new))
  ∧ length new = length tasks
  ∧ ∀ n, n ≠ daily_file_path selected_date → r.2.1 !! n = fs !! n.
Proof.
  intros done todo new c r Hne Hnd Hv Hold.
  destruct (checked_tasks_filter checkbox tasks Hnd) as [Hc Hu].
  assert (Hlen : length new = length tasks).
  { unfold new. rewrite length_app, !length_fmap.
    rewrite <- length_app. apply Permutation_length.
    apply filter_partition_length. }
  unfold r, save_day. destruct tasks as [|t0 tasks']; [done|].
  set (tasks := t0 :: tasks') in *. cbv zeta. cbn [fst snd].
  rewrite Hc, Hu. fold done todo.
  rewrite (append_to_history_file read_csv to_csv selected_date done todo
             w old Hold).
  change (History.new_rows selected_date done todo) with new.
  cbn [fst snd]. rewrite decide_False by (intros E; by rewrite E in Hlen).
  split; [done|]. split.
  { apply write_then_parse_lists.
    - unfold done. by apply Forall_filter_keep.
    - unfold todo. by apply Forall_filter_keep. }
  split; [done|]. split; [done|].
  intros n Hn. unfold write_daily_file. by rewrite lookup_insert_ne.
Qed.

(** X19. "Save Day" on a history file pandas cannot read: the call
    raises and the history file stays as it was, but the day's record
    has already been written, and reads as the ticked tasks and the
    others. On an empty checklist nothing is written at all. *)
Theorem save_day_unreadable_history (selected_date : date)
    (tasks : list str) (fs : gmap str str) (c : csv) :
  let done := filter (λ t, Is_true (checkbox t)) tasks in
  let todo := filter (λ t, ¬ Is_true (checkbox t)) tasks in
  let r := save_clicked selected_date tasks fs (Some c) in
  tasks ≠ [] → NoDup tasks → Forall valid_task tasks →
  read_csv c = None →
  (∃ e, r.1 = Raised e)
  ∧ r.2.2 = Some c
  ∧ parse_txt_day r.2.1 (daily_file_path selected_date) = (done, todo)
  ∧ save_clicked selected_date [] fs (Some c) = (Returned (), (fs, Some c)).
Proof.
  intros done todo r Hne Hnd Hv Hc.
  destruct (checked_tasks_filter checkbox tasks Hnd) as [Hd Hu].
  unfold r, save_day. destruct tasks as [|t0 tasks']; [done|].
  set (tasks := t0 :: tasks') in *. cbv zeta. cbn [fst snd].
  rewrite Hd, Hu. fold done todo.
  rewrite (append_to_history_unreadable read_csv to_csv selected_date
             done todo c Hc).
  2:{ intros Hnil.
      pose proof (filter_partition_length (λ t, Is_true (checkbox t)) tasks)
        as Hp.
      apply Permutation_length in Hp. fold done todo in Hp.
      apply (f_equal length) in Hnil. unfold History.new_rows in Hnil.
      rewrite length_app, !length_fmap, <- length_app, Hp in Hnil.
      done. }
  cbn [fst snd]. split; [by eexists|]. split; [done|]. split; [|done].
  apply write_then_parse_lists.
  - unfold done. by apply Forall_filter_keep.
  - unfold todo. by apply Forall_filter_keep.
Qed.
End SaveDay.

Lemma save_day_saves_witness :
  let checkbox := λ t : str, bool_decide (t = lit "B") in
  (save_day checkbox Table.read_csv Table.to_csv (mkdate 2024 1 3)
     [lit "A"; lit "B"; lit "C"] ∅ None).1
  = Returned ().
Proof.
  intros checkbox.
  apply (save_day_saves checkbox Table.read_csv Table.to_csv
           (mkdate 2024 1 3) [lit "A"; lit "B"; lit "C"] ∅ None []);
    first [reflexivity | closed_fact | done].
Defined.

Lemma save_day_unreadable_history_witness :
  let checkbox := λ t : str, bool_decide (t = lit "B") in
  (save_day checkbox Table.read_csv Table.to_csv (mkdate 2024 1 3)
     [lit "A"; lit "B"; lit "C"] ∅ (Some Table.Unreadable)).2.2
  = Some Table.Unreadable.
Proof.
  intros checkbox.
  apply (save_day_unreadable_history checkbox Table.read_csv Table.to_csv
           (mkdate 2024 1 3) [lit "A"; lit "B"; lit "C"] ∅ Table.Unreadable);
    first [reflexivity | closed_fact | done].
Defined.

(** ** The text area *)

Lemma splitlines_cons_break c s :
  is_linebreak c = true → c ≠ CR → splitlines (c :: s) = [] :: splitlines s.
Proof.
  intros Hc Hne. simpl. rewrite Hc.
  by destruct (N.eqb_spec c CR).
Qed.

Lemma splitlines_CR_nil : splitlines [CR] = [[]].
Proof. done. Qed.

Lemma splitlines_CR_LF s : splitlines (CR :: LF :: s) = [] :: splitlines s.
Proof. done. Qed.

Lemma splitlines_CR_other c s :
  c ≠ LF → splitlines (CR :: c :: s) = [] :: splitlines (c :: s).
Proof.
  intros Hne.
  change (splitlines (CR :: c :: s)) with
    ([] :: (if c =? LF then splitlines s else splitlines (c :: s))).
  by destruct (N.eqb_spec c LF).
Qed.

Lemma splitlines_cons_char c s :
  is_linebreak c = false →
  splitlines (c :: s) = match splitlines s with
                        | [] => [[c]]
                        | ln :: lns => (c :: ln) :: lns
                        end.
Proof. intros Hc. simpl. by rewrite Hc. Qed.

(** Induction along the way [splitlines] reads a string. *)
Lemma splitlines_ind (P : str → Prop) :
  P [] →
  (∀ c s, is_linebreak c = true → c ≠ CR → P s → P (c :: s)) →
  P [CR] →
  (∀ s, P s → P (CR :: LF :: s)) →
  (∀ c s, c ≠ LF → P (c :: s) → P (CR :: c :: s)) →
  (∀ c s, is_linebreak c = false → P s → P (c :: s)) →
  ∀ s, P s.
Proof.
  intros Hnil Hbreak Hcr Hcrlf Hcro Hchar.
  assert (H : ∀ s, P s ∧ ∀ a, P (a :: s)); [|intros s; apply H].
  induction s as [|b s [IH1 IH2]].
  - split; [done|]. intros a.
    destruct (is_linebreak a) eqn:Ea; [|by apply Hchar].
    destruct (decide (a = CR)) as [->|Hne]; [done|by apply Hbreak].
  - split; [apply IH2|]. intros a.
    destruct (is_linebreak a) eqn:Ea; [|by apply Hchar].
    destruct (decide (a = CR)) as [->|Hne]; [|by apply Hbreak].
    destruct (decide (b = LF)) as [->|Hb]; [by apply Hcrlf|by apply Hcro].
Qed.

Lemma splitlines_nonempty s : s ≠ [] → splitlines s ≠ [].
Proof.
  destruct s as [|c s]; [done|]. intros _. simpl.
  destruct (is_linebreak c); [done|]. by destruct (splitlines s).
Qed.

Lemma splitlines_app_LF a b :
  splitlines (a ++ LF :: b) = splitlines (a ++ [LF]) ++ splitlines b.
Proof.
  induction a as [| c s Hc Hne IH | | s IH | c s Hne IH | c s Hc IH]
    using splitlines_ind.
  - done.
  - rewrite <- !app_comm_cons, !splitlines_cons_break by done.
    by rewrite IH.
  - done.
  - rewrite <- !app_comm_cons, !splitlines_CR_LF. by rewrite IH.
  - rewrite <- !app_comm_cons, !splitlines_CR_other by done.
    rewrite !app_comm_cons. by rewrite IH.
  - rewrite <- !app_comm_cons, !splitlines_cons_char by done.
    rewrite IH.
    pose proof (splitlines_nonempty (s ++ [LF])) as Hn.
    destruct (splitlines (s ++ [LF])); [|done].
    exfalso. apply Hn; [|done]. by destruct s.
Qed.

Lemma splitlines_snoc_LF a :
  splitlines (a ++ [LF]) = splitlines a
  ∨ splitlines (a ++ [LF]) = splitlines a ++ [[]].
Proof.
  induction a as [| c s Hc Hne IH | | s IH | c s Hne IH | c s Hc IH]
    using splitlines_ind.
  - by right.
  - rewrite <- !app_comm_cons, !splitlines_cons_break by done.
    destruct IH as [->| ->]; [by left|by right].
  - by left.
  - rewrite <- !app_comm_cons, !splitlines_CR_LF.
    destruct IH as [->| ->]; [by left|by right].
  - rewrite <- !app_comm_cons, !splitlines_CR_other by done.
    rewrite !app_comm_cons.
    destruct IH as [->| ->]; [by left|by right].
  - rewrite <- !app_comm_cons, !splitlines_cons_char by done.
    destruct IH as [->| ->]; [by left|].
    destruct (splitlines s); [by left|by right].
Qed.

Lemma task_lines_app l1 l2 : task_lines (l1 ++ l2) = task_lines l1 ++ task_lines l2.
Proof. unfold task_lines. by rewrite filter_app, fmap_app. Qed.

Lemma task_lines_blank w lns : blank w → task_lines (w :: lns) = task_lines lns.
Proof.
  intros Hw. unfold task_lines. rewrite filter_cons_False; [done|].
  intros Hne. apply Hne. unfold strip.
  rewrite (proj2 (lstrip_blank w)) by done. done.
Qed.

Lemma new_tasks_splitlines text : new_tasks text = task_lines (splitlines text).
Proof. by destruct text. Qed.

Lemma new_tasks_app_LF a b :
  new_tasks (a ++ LF :: b) = new_tasks a ++ new_tasks b.
Proof.
  rewrite !new_tasks_splitlines, splitlines_app_LF, task_lines_app.
  f_equal. destruct (splitlines_snoc_LF a) as [->| ->]; [done|].
  rewrite task_lines_app. rewrite (task_lines_blank []) by constructor.
  by rewrite app_nil_r.
Qed.

Lemma new_tasks_cons_space c s :
  isspace c = true → new_tasks (c :: s) = new_tasks s.
Proof.
  intros Hc. rewrite !new_tasks_splitlines.
  destruct (is_linebreak c) eqn:Eb.
  - destruct (decide (c = CR)) as [->|Hne].
    + destruct s as [|b s]; [done|].
      destruct (decide (b = LF)) as [->|Hb].
      * rewrite splitlines_CR_LF, splitlines_cons_break by done.
        by rewrite !(task_lines_blank []) by constructor.
      * rewrite splitlines_CR_other by done.
        by rewrite (task_lines_blank []) by constructor.
    + rewrite splitlines_cons_break by done.
      by rewrite (task_lines_blank []) by constructor.
  - rewrite splitlines_cons_char by done.
    destruct (splitlines s) as [|ln lns].
    + apply task_lines_blank. by repeat constructor.
    + unfold task_lines. rewrite !filter_cons.
      assert (Hs : strip (c :: ln) = strip ln).
      { unfold strip. by rewrite lstrip_space. }
      rewrite Hs. destruct (decide (strip ln ≠ [])); [|done].
      by rewrite !fmap_cons, Hs.
Qed.

Lemma new_tasks_app_blank ws s : blank ws → new_tasks (ws ++ s) = new_tasks s.
Proof.
  induction 1 as [|c ws Hc _ IH]; [done|].
  rewrite <- app_comm_cons, new_tasks_cons_space by done. apply IH.
Qed.

Lemma splitlines_snoc_space s c :
  isspace c = true →
  splitlines (s ++ [c]) = splitlines s
  ∨ splitlines (s ++ [c]) = splitlines s ++ [[]]
  ∨ splitlines (s ++ [c]) = splitlines s ++ [[c]]
  ∨ ∃ Y ln, splitlines s = Y ++ [ln]
            ∧ splitlines (s ++ [c]) = Y ++ [ln ++ [c]].
Proof.
  intros Hc.
  assert (Hone : splitlines [c] = [[]] ∨ splitlines [c] = [[c]]).
  { simpl. destruct (is_linebreak c); [|by right].
    left. by destruct (c =? CR). }
  assert (Hcons : ∀ s' : str,
    (splitlines (s' ++ [c]) = splitlines s'
     ∨ splitlines (s' ++ [c]) = splitlines s' ++ [[]]
     ∨ splitlines (s' ++ [c]) = splitlines s' ++ [[c]]
     ∨ ∃ Y ln, splitlines s' = Y ++ [ln]
               ∧ splitlines (s' ++ [c]) = Y ++ [ln ++ [c]]) →
    [] :: splitlines (s' ++ [c]) = [] :: splitlines s'
    ∨ [] :: splitlines (s' ++ [c]) = ([] :: splitlines s') ++ [[]]
    ∨ [] :: splitlines (s' ++ [c]) = ([] :: splitlines s') ++ [[c]]
    ∨ ∃ Y ln, [] :: splitlines s' = Y ++ [ln]
              ∧ [] :: splitlines (s' ++ [c]) = Y ++ [ln ++ [c]]).
  { intros s' [->|[->|[->|(Y & ln & HY & ->)]]]; auto.
    right; right; right. exists ([] :: Y), ln. by rewrite HY. }
  induction s as [| x s Hx Hne IH | | s IH | x s Hne IH | x s Hx IH]
    using splitlines_ind.
  - simpl app. destruct Hone as [->| ->]; auto.
  - rewrite <- !app_comm_cons, !splitlines_cons_break by done. auto.
  - change ([CR] ++ [c]) with [CR; c].
    destruct (decide (c = LF)) as [->|Hlf]; [by left|].
    rewrite splitlines_CR_other by done.
    destruct Hone as [->| ->]; auto.
  - rewrite <- !app_comm_cons, !splitlines_CR_LF. auto.
  - rewrite <- !app_comm_cons, !splitlines_CR_other by done.
    rewrite !app_comm_cons. auto.
  - rewrite <- !app_comm_cons, !splitlines_cons_char by done.
    destruct IH as [->|[->|[->|(Y & ln & HY & ->)]]].
    + by left.
    + destruct (splitlines s); [by left|]. right. by left.
    + destruct (splitlines s).
      * right; right; right. by exists [], [x].
      * right; right. by left.
    + rewrite HY. right; right; right. destruct Y as [|y Y].
      * by exists [], (x :: ln).
      * by exists ((x :: y) :: Y), ln.
Qed.

Lemma new_tasks_snoc_space s c :
  isspace c = true → new_tasks (s ++ [c]) = new_tasks s.
Proof.
  intros Hc. rewrite !new_tasks_splitlines.
  destruct (splitlines_snoc_space s c Hc)
    as [->|[->|[->|(Y & ln & -> & ->)]]].
  - done.
  - rewrite task_lines_app, (task_lines_blank []) by constructor.
    by rewrite app_nil_r.
  - rewrite task_lines_app, (task_lines_blank [c]) by (by repeat constructor).
    by rewrite app_nil_r.
  - rewrite !task_lines_app. f_equal. unfold task_lines.
    rewrite !filter_cons, strip_snoc_space by done.
    destruct (decide (strip ln ≠ [])); [|done].
    by rewrite !fmap_cons, strip_snoc_space.
Qed.

Lemma new_tasks_app_blank_r s ws : blank ws → new_tasks (s ++ ws) = new_tasks s.
Proof.
  induction ws as [|c ws IH] using rev_ind; intros Hws.
  - by rewrite app_nil_r.
  - apply Forall_app in Hws as [Hws Hc]. inversion Hc; subst.
    rewrite (assoc_L (++)). rewrite new_tasks_snoc_space by done.
    by apply IH.
Qed.

Lemma new_tasks_strip s : new_tasks (strip s) = new_tasks s.
Proof.
  destruct (strip_split s) as (ws1 & ws2 & H1 & H2 & Hs).
  rewrite Hs at 2.
  by rewrite new_tasks_app_blank, new_tasks_app_blank_r.
Qed.

(** X20. The text area is read line by line: the tasks of two texts
    joined by a newline are those of the first followed by those of the
    second, and white space around the text adds nothing. So "Add
    Example Tasks" puts the three example tasks after the tasks already
    typed. *)
Theorem add_example_tasks_appends (new_tasks_text : str) :
  new_tasks (add_example_tasks new_tasks_text)
  = new_tasks new_tasks_text
    ++ [lit "Finish assignment"; lit "Read a book"; lit "Exercise"]
  ∧ (∀ a b, new_tasks (a ++ [LF] ++ b) = new_tasks a ++ new_tasks b)
  ∧ (∀ s, new_tasks (strip s) = new_tasks s).
Proof.
  split; [|split; [apply new_tasks_app_LF|apply new_tasks_strip]].
  assert (Hex : new_tasks EXAMPLE_TASKS
                = [lit "Finish assignment"; lit "Read a book";
                   lit "Exercise"]) by (by vm_compute).
  unfold add_example_tasks.
  destruct new_tasks_text as [|c0 text0] eqn:Etext; [done|].
  rewrite <- Etext. clear Etext.
  assert (Hstrip : strip (new_tasks_text ++ [LF] ++ EXAMPLE_TASKS)
                   = lstrip new_tasks_text ++ [LF] ++ EXAMPLE_TASKS
                     ∨ (lstrip new_tasks_text = []
                        ∧ strip (new_tasks_text ++ [LF] ++ EXAMPLE_TASKS)
                          = EXAMPLE_TASKS)).
  { destruct (lstrip_split new_tasks_text) as (ws & Hws & Hsplit).
    unfold strip.
    assert (Hl : lstrip (new_tasks_text ++ [LF] ++ EXAMPLE_TASKS)
                 = lstrip (lstrip new_tasks_text ++ [LF] ++ EXAMPLE_TASKS)).
    { rewrite Hsplit at 1. rewrite <- (assoc_L (++)).
      by rewrite lstrip_app_blank. }
    rewrite Hl. destruct (lstrip new_tasks_text) as [|c r] eqn:El.
    - right. split; [done|]. by vm_compute.
    - left. rewrite lstrip_id.
      2:{ intros c' [= <-]. apply (lstrip_head new_tasks_text).
          by rewrite El. }
      rewrite (assoc_L (++)).
      apply rstrip_app_trimmed; [done|].
      apply strip_fixpoint. by vm_compute. }
  destruct (lstrip_split new_tasks_text) as (ws & Hws & Hsplit).
  assert (Htext : new_tasks new_tasks_text = new_tasks (lstrip new_tasks_text)).
  { rewrite Hsplit at 1. by apply new_tasks_app_blank. }
  destruct Hstrip as [-> | [Hnil ->]].
  - change ([LF] ++ EXAMPLE_TASKS) with (LF :: EXAMPLE_TASKS).
    by rewrite new_tasks_app_LF, Hex, Htext.
  - by rewrite Hex, Htext, Hnil.
Qed.

(** ** Records of the day itself and of later days *)

(** X21. From the year 1000 on, what a day carries over does not depend
    on its own record nor on the records of later days: saving such a
    day changes neither the file found nor the tasks carried over. *)
Theorem carry_over_ignores_later_days (fs : gmap str str) (d today : date)
    (cs us : list str) :
  four_digit_year d → four_digit_year today →
  valid_date d → valid_date today → date_le today d →
  get_latest_task_file (write_daily_file d cs us fs) (Some today)
  = get_latest_task_file fs (Some today)
  ∧ load_carry_over_tasks (write_daily_file d cs us fs) today
    = load_carry_over_tasks fs today.
Proof.
  intros Hyd Hytoday Hd Htoday Hle.
  assert (Hnot : ¬ str_lt (daily_file_path d) (daily_file_path today)).
  { intros Hlt. apply daily_file_path_lt in Hlt; [|done..].
    by apply date_lt_not_le in Hlt. }
  assert (Hlatest :
    get_latest_task_file (write_daily_file d cs us fs) (Some today)
    = get_latest_task_file fs (Some today)).
  { apply get_latest_task_file_ext. intros n. unfold candidate, write_daily_file.
    destruct (decide (n = daily_file_path d)) as [->|Hne]; [tauto|].
    by rewrite lookup_insert_ne. }
  split; [done|]. unfold load_carry_over_tasks. rewrite Hlatest.
  pose proof (get_latest_task_file_spec fs (Some today)) as Hspec.
  destruct (get_latest_task_file fs (Some today)) as [p|]; [|done].
  destruct Hspec as [(_ & _ & _ & Hlt) _].
  unfold write_daily_file. rewrite parse_txt_day_insert_ne; [done|].
  intros E. apply Hnot. by rewrite E.
Qed.

Lemma carry_over_ignores_later_days_witness :
  load_carry_over_tasks
    (write_daily_file (mkdate 2024 1 3) [lit "A"] [lit "B"] ∅)
    (mkdate 2024 1 3)
  = load_carry_over_tasks ∅ (mkdate 2024 1 3).
Proof.
  apply (carry_over_ignores_later_days ∅ (mkdate 2024 1 3) (mkdate 2024 1 3)
           [lit "A"] [lit "B"]); closed_fact.
Defined.

(** X22. The names of the daily records order as their days do from the
    year 1000 on: one name sorts before another exactly when its day is
    earlier. Below the year 1000 the year is written without padding and
    the order fails: the record of 999-12-31 sorts after the record of
    1000-01-01. For every year of at most four digits two days never
    share a name, and every such name is matched by "*.txt" and is
    neither report file. *)
Theorem daily_file_path_order (a b : date) :
  valid_date a → valid_date b →
  (four_digit_year a → four_digit_year b →
   (str_lt (daily_file_path a) (daily_file_path b) ↔ date_lt a b))
  ∧ (daily_file_path a = daily_file_path b ↔ a = b)
  ∧ matches_txt (daily_file_path a)
  ∧ (daily_file_path a ∉ [WEEKLY_REPORT; MONTHLY_REPORT])
  ∧ daily_file_path (mkdate 999 12 31) = lit "999-12-31.txt"
  ∧ str_lt (daily_file_path (mkdate 1000 1 1))
      (daily_file_path (mkdate 999 12 31)).
Proof.
  intros Ha Hb. split; [intros Hya Hyb; by apply daily_file_path_lt|]. split.
  { split; [by apply daily_file_path_inj|by intros ->]. }
  split; [apply daily_file_path_record|].
  split; [apply daily_file_path_record|].
  split; [by vm_compute|closed_fact].
Qed.

Lemma daily_file_path_order_witness :
  str_lt (daily_file_path (mkdate 2023 12 31))
    (daily_file_path (mkdate 2024 1 1))
  ↔ date_lt (mkdate 2023 12 31) (mkdate 2024 1 1).
Proof.
  destruct (daily_file_path_order (mkdate 2023 12 31) (mkdate 2024 1 1))
    as [H _]; [closed_fact..|].
  apply H; closed_fact.
Defined.

(** ** The extremes of the rate *)

(** X23. For fewer than 2^53 counted rows, the completion rate the
    program computes in binary64 is 100 exactly when tasks were recorded
    in the range and none of them is incomplete, and it is 0 exactly when
    none is completed. *)
Theorem summarize_range_rate_extremes (df : list (row date))
    (start end_ : date) :
  let s := summarize_range df start end_ in
  (total s < 2 ^ 53)%Z →
  ∃ q, f64_value (completion_rate s) = Some q
       ∧ (q == inject_Z 100
          ↔ (0 < completed s)%Z ∧ incomplete s = 0%Z)%Q
       ∧ (q == 0 ↔ completed s = 0%Z)%Q.
Proof.
  intros s Hlt.
  destruct (summarize_range_rate_value df start end_ Hlt)
    as (q & Eq & _ & _ & _ & Hfull & Hnone).
  by exists q.
Qed.

Lemma summarize_range_rate_extremes_witness :
  ∃ q, f64_value
         (completion_rate
            (summarize_range
               [mkrow (mkdate 2024 1 2) (lit "A") (lit "completed");
                mkrow (mkdate 2024 1 3) (lit "B") (lit "completed")]
               (mkdate 2024 1 1) (mkdate 2024 1 7)))
       = Some q
       ∧ (q == inject_Z 100 ↔ (0 < 2)%Z ∧ 0%Z = 0%Z)%Q
       ∧ (q == 0 ↔ 2%Z = 0%Z)%Q.
Proof.
  apply (summarize_range_rate_extremes
           [mkrow (mkdate 2024 1 2) (lit "A") (lit "completed");
            mkrow (mkdate 2024 1 3) (lit "B") (lit "completed")]
           (mkdate 2024 1 1) (mkdate 2024 1 7)).
  reflexivity.
Defined.
